(** * OneLake migration scripts: a shallow embedding and its properties

    The development follows the Python sources of the repository:
    [onelake_migrator_production.py], [onelake_migrator_turbo_working.py],
    [onelake_migrator_auto_refresh.py], [src/fabric/onelake_migrator_turbo_fixed.py],
    [src/monitoring/log_analyzer.py], [src/monitoring/dashboard_monitor.py] and
    [src/sharepoint/dll_pdf_fabric_turbo.py].

    Python values are modelled as follows: [int] as [Z]; [str] as [string]
    (byte strings, [lower] acting on the ASCII letters); [dict] used as a map
    as [gmap]; lists as [list]; a float timestamp as the opaque reading of a
    clock.  Code that can raise runs in a state-and-exception monad. *)

From Stdlib Require Import ZArith String Ascii List Lia Bool.
From stdpp Require Import base option gmap strings list pretty.
Import ListNotations.

Local Open Scope string_scope.
Local Open Scope Z_scope.
Set Warnings "-clear-no-such-hyp".

(** ** Python primitives used by the scripts *)
Module Py.

(** [c.lower()] on one character. *)
Definition lower_char (c : ascii) : ascii :=
  let n := nat_of_ascii c in
  if (Nat.leb 65 n && Nat.leb n 90)%bool then ascii_of_nat (n + 32) else c.

(** [s.lower()]. *)
Fixpoint lower (s : string) : string :=
  match s with
  | EmptyString => EmptyString
  | String c s' => String (lower_char c) (lower s')
  end.

(** [s.startswith(p)]. *)
Fixpoint startswith (p s : string) : bool :=
  match p, s with
  | EmptyString, _ => true
  | String _ _, EmptyString => false
  | String a p', String b s' => if Ascii.eqb a b then startswith p' s' else false
  end.

(** [p in s] on strings: [p] occurs in [s] as a contiguous substring. *)
Fixpoint str_in (p s : string) : bool :=
  startswith p s ||
  match s with
  | EmptyString => false
  | String _ s' => str_in p s'
  end.

(** Truth value of an optional string: [None] and [""] are falsy. *)
Definition truthy (o : option string) : bool :=
  match o with
  | Some (String _ _) => true
  | _ => false
  end.

(** [len(l)] as a Python integer. *)
Definition len {A} (l : list A) : Z := Z.of_nat (length l).

(** Normalisation of a slice bound against a length (negative bounds count
    from the end, everything is clamped to [0, n]). *)
Definition slice_bound (n i : Z) : Z :=
  if i <? 0 then Z.max 0 (i + n) else Z.min i n.

(** [l[a:b]]. *)
Definition slice {A} (l : list A) (a b : Z) : list A :=
  let a' := slice_bound (len l) a in
  let b' := slice_bound (len l) b in
  firstn (Z.to_nat (b' - a')) (skipn (Z.to_nat a') l).

(** [range(a, b)]. *)
Definition range (a b : Z) : list Z :=
  map (fun i => a + Z.of_nat i) (seq 0 (Z.to_nat (b - a))).

(** [range(a, b, step)] for a non-zero step. *)
Definition range_step (a b step : Z) : list Z :=
  let n :=
    if 0 <? step then (b - a + step - 1) / step
    else (a - b - step - 1) / (- step) in
  map (fun i => a + Z.of_nat i * step) (seq 0 (Z.to_nat n)).

(** [s.replace(a, b)] for single characters. *)
Fixpoint replace_char (a b : ascii) (s : string) : string :=
  match s with
  | EmptyString => EmptyString
  | String c s' => String (if Ascii.eqb c a then b else c) (replace_char a b s')
  end.

(** [s.lstrip(chars)], [s.rstrip(chars)] and [s.strip(chars)] for a
    predicate on characters. *)
Fixpoint lstrip (drop : ascii -> bool) (s : string) : string :=
  match s with
  | EmptyString => EmptyString
  | String c s' => if drop c then lstrip drop s' else s
  end.

Fixpoint rstrip (drop : ascii -> bool) (s : string) : string :=
  match s with
  | EmptyString => EmptyString
  | String c s' =>
      match rstrip drop s' with
      | EmptyString => if drop c then EmptyString else String c EmptyString
      | r => String c r
      end
  end.

Definition strip (drop : ascii -> bool) (s : string) : string :=
  rstrip drop (lstrip drop s).

(** Whitespace as [str.strip()] understands it on ASCII. *)
Definition is_space (c : ascii) : bool :=
  let n := nat_of_ascii c in
  (Nat.eqb n 32 || (Nat.leb 9 n && Nat.leb n 13) || (Nat.leb 28 n && Nat.leb n 31))%bool.

(** [s.split(sep, 1)[1]] when [sep] occurs in [s]. *)
Fixpoint after_first (sep : ascii) (s : string) : option string :=
  match s with
  | EmptyString => None
  | String c s' => if Ascii.eqb c sep then Some s' else after_first sep s'
  end.

Definition hex_digit (n : nat) : ascii :=
  if Nat.ltb n 10 then ascii_of_nat (48 + n) else ascii_of_nat (55 + n).

(** Characters [urllib.parse.quote(s, safe='/')] leaves alone. *)
Definition quote_keeps (c : ascii) : bool :=
  let n := nat_of_ascii c in
  ((Nat.leb 65 n && Nat.leb n 90) || (Nat.leb 97 n && Nat.leb n 122)
   || (Nat.leb 48 n && Nat.leb n 57)
   || Nat.eqb n 95 || Nat.eqb n 46 || Nat.eqb n 45 || Nat.eqb n 126
   || Nat.eqb n 47)%bool.

(** [quote(s, safe='/')]. *)
Fixpoint quote (s : string) : string :=
  match s with
  | EmptyString => EmptyString
  | String c s' =>
      if quote_keeps c then String c (quote s')
      else
        let n := nat_of_ascii c in
        String "%" (String (hex_digit (Nat.div n 16))
                      (String (hex_digit (Nat.modulo n 16)) (quote s')))
  end.

(** [str(n)] for an integer. *)
Definition str_of_int (n : Z) : string := pretty n.

End Py.

(** ** [src/monitoring/log_analyzer.py] *)
Module LogAnalyzer.
Import Py.

Definition classify_error (error_msg : string) : string :=
  let error_msg_lower := lower error_msg in
  if str_in "401" error_msg || str_in "unauthorized" error_msg_lower then
    "Authentication"
  else if str_in "404" error_msg || str_in "not found" error_msg_lower then
    "File Not Found"
  else if str_in "timeout" error_msg_lower then
    "Timeout"
  else if str_in "connection" error_msg_lower then
    "Connection"
  else if str_in "429" error_msg then
    "Rate Limit"
  else if str_in "500" error_msg || str_in "503" error_msg then
    "Server Error"
  else
    "Other".

(** An event as [parse_log_line] builds it: [timestamp] is a [datetime] or
    [None], [level] a level name or [None], and [data] maps a key of the
    event's data to the text of its value. *)
Record event := Event {
  line_number : Z;
  raw_line : string;
  timestamp : option Z;
  level : option string;
  message : string;
  event_type : string;
  data : gmap string string }.

(** An entry of ['error_timeline']. *)
Record timeline_entry := TimelineEntry {
  entry_timestamp : Z; entry_type : string; entry_message : string }.

(** The dictionary [analyze_errors] returns; the key ['error_types'] is set
    only when there are error events. *)
Record error_analysis := ErrorAnalysis {
  total_errors : Z;
  error_timeline : list timeline_entry;
  error_types : option (gmap string Z) }.

(** The filter of [error_events]. *)
Definition is_error_event (e : event) : bool :=
  bool_decide (level e = Some "ERROR") || str_in "failed" (lower (raw_line e)).

(** The key under which the loop of [analyze_errors] files an event. *)
Definition error_type_of (event : event) : string :=
  if String.eqb (event_type event) "download_failed"
  then classify_error (default "" (data event !! "error_message"))
  else "Other".

(** The [defaultdict(list)] after the loop over [error_events]. *)
Definition group_errors (error_events : list event) : gmap string (list event) :=
  fold_left (fun error_types event =>
               let error_type := error_type_of event in
               <[error_type := (default [] (error_types !! error_type) ++ [event])%list]>
                 error_types)
            error_events ∅.

(** [raw_line[:100] + '...' if len(raw_line) > 100 else raw_line]. *)
Definition shorten (raw_line : string) : string :=
  if 100 <? Z.of_nat (String.length raw_line)
  then substring 0 100 raw_line +:+ "..."
  else raw_line.

Definition analyze_errors (events : list event) : error_analysis :=
  let error_events := List.filter is_error_event events in
  match error_events with
  | [] => ErrorAnalysis (len error_events) [] None
  | _ :: _ =>
      ErrorAnalysis
        (len error_events)
        (omap (fun e => match timestamp e with
                        | Some t => Some (TimelineEntry t (event_type e) (shorten (raw_line e)))
                        | None => None
                        end)
              (slice error_events (-20) (len error_events)))
        (Some (len <$> group_errors error_events))
  end.

End LogAnalyzer.

(** ** [src/monitoring/dashboard_monitor.py] *)
Module DashboardMonitor.
Import Py.

Definition classify_error (error_msg : string) : string :=
  let error_msg_lower := lower error_msg in
  if str_in "401" error_msg || str_in "unauthorized" error_msg_lower then
    "Authentication"
  else if str_in "404" error_msg || str_in "not found" error_msg_lower then
    "File Not Found"
  else if str_in "timeout" error_msg_lower || str_in "timed out" error_msg_lower then
    "Timeout"
  else if str_in "connection" error_msg_lower then
    "Connection"
  else if str_in "permission" error_msg_lower || str_in "access" error_msg_lower then
    "Permission"
  else if str_in "429" error_msg || str_in "rate limit" error_msg_lower then
    "Rate Limit"
  else if str_in "500" error_msg || str_in "503" error_msg || str_in "502" error_msg then
    "Server Error"
  else
    "Other".

End DashboardMonitor.

(** ** Run-time model shared by the migrator scripts

    A migrator process owns its in-memory progress dictionary and its access
    token; around it are the disk, the remote service and the clock.  The
    state below threads all of them, together with the history of what the
    process did to the outside: the operations applied to the progress file,
    the HTTP requests sent and the log records emitted. *)
Module Runtime.

(** A Python exception: its class name and [str(e)]. *)
Record exn := Exn { exn_class : string; exn_msg : string }.

(** One value of [completed_files]. *)
Record completion := Completion {
  c_status : string; c_size : Z; c_timestamp : Z; c_batch : option Z }.

(** One element of [failed_files_list]. *)
Record failure := Failed {
  f_path : option string; f_error : string; f_timestamp : Z; f_batch : option Z }.

(** The progress dictionary. *)
Record progress := Progress {
  total_files : Z;
  uploaded_files : Z;
  failed_files : Z;
  skipped_files : Z;
  completed_files : gmap string completion;
  failed_files_list : list failure;
  start_time : option Z;
  last_update : option Z;
  current_batch : Z }.

(** An element of the ['files'] list of [file_cache_optimized.json]: a
    dictionary with optional keys, or some other JSON value (named by its
    Python type), on which [.get] does not exist. *)
Record file_info := FileInfo {
  path : option string; relative_path : option string; size_bytes : option Z }.

Inductive cache_entry :=
| Dict (f : file_info)
| NotADict (type_name : string).

(** A local source file: its bytes, or the error [open] raises on it. *)
Inductive source_file :=
| Readable (content : string)
| Unreadable (err : exn).

(** The progress file seen through [json.load]: text that decodes to a
    progress dictionary, or text on which the decoder raises. *)
Inductive progress_text :=
| Json (p : progress)
| Garbled (raw : string).

(** [file_cache_optimized.json] seen through [json.load]. *)
Inductive cache_text :=
| CacheJson (files : option (list cache_entry))
| CacheGarbled.

Record disk := Disk {
  env_file : option (list string);          (* lines of config/.env *)
  cache_file : option cache_text;           (* file_cache_optimized.json *)
  progress_file : option progress_text;     (* Config.PROGRESS_FILE *)
  progress_write_error : option exn;        (* what open(PROGRESS_FILE, 'w') raises, if anything *)
  sources : gmap string source_file }.      (* the files to upload, by local path *)

(** Primitive operations on the progress file, in the order performed. *)
Inductive disk_op :=
| Truncate               (* open(PROGRESS_FILE, 'w') *)
| Dump (p : progress)    (* json.dump(p, f) followed by close *)
| Unlink.

Definition set_progress_file (o : option progress_text) (d : disk) : disk :=
  Disk (env_file d) (cache_file d) o (progress_write_error d) (sources d).

Definition apply_op (o : disk_op) (d : disk) : disk :=
  match o with
  | Truncate => set_progress_file (Some (Garbled "")) d
  | Dump p => set_progress_file (Some (Json p)) d
  | Unlink => set_progress_file None d
  end.

(** The disk after the operations [ops], applied oldest first. *)
Definition replay (ops : list disk_op) (d : disk) : disk :=
  fold_left (fun d o => apply_op o d) ops d.

Inductive http_method := PUT | PATCH.

Record request := Request {
  method : http_method; url : string; content_length : option Z; body : string }.

(** What the remote answers: a status with a body, or a transport error. *)
Inductive reply :=
| Reply (status : Z) (text : string)
| NetError (e : exn).

Record log_record := Log {
  level : string; template : string; fields : list string }.

Record state := State {
  st_progress : progress;          (* self.progress *)
  access_token : option string;    (* self.access_token *)
  st_disk : disk;
  disk_ops : list disk_op;         (* newest last *)
  sent : list request;             (* newest last *)
  log : list log_record;           (* newest last *)
  ticks : nat }.                   (* number of clock readings so far *)

Inductive outcome (A : Type) :=
| Return (a : A)
| Raise (e : exn).
Arguments Return {A} a.
Arguments Raise {A} e.

Definition M (A : Type) : Type := state -> outcome A * state.

Definition ret {A} (a : A) : M A := fun st => (Return a, st).
Definition raise {A} (e : exn) : M A := fun st => (Raise e, st).
Definition bind {A B} (m : M A) (k : A -> M B) : M B :=
  fun st =>
    match m st with
    | (Return a, st') => k a st'
    | (Raise e, st') => (Raise e, st')
    end.

(** [try: m except Exception as e: h e]. *)
Definition try_except {A} (m : M A) (h : exn -> M A) : M A :=
  fun st =>
    match m st with
    | (Return a, st') => (Return a, st')
    | (Raise e, st') => h e st'
    end.

Declare Scope py_scope.
Delimit Scope py_scope with py.
Notation "x <- m ;; k" := (bind m (fun x => k))
  (at level 100, m at next level, right associativity) : py_scope.
Notation "m ;; k" := (bind m (fun _ => k))
  (at level 100, right associativity) : py_scope.

(** [for x in l: body x]. *)
Fixpoint for_each {A} (l : list A) (body : A -> M unit) : M unit :=
  match l with
  | [] => ret tt
  | x :: l' => bind (body x) (fun _ => for_each l' body)
  end.

Definition get : M state := fun st => (Return st, st).
Definition modify (f : state -> state) : M unit := fun st => (Return tt, f st).

Definition with_progress (f : progress -> progress) (st : state) : state :=
  State (f (st_progress st)) (access_token st) (st_disk st) (disk_ops st)
        (sent st) (log st) (ticks st).
Definition with_token (t : option string) (st : state) : state :=
  State (st_progress st) t (st_disk st) (disk_ops st) (sent st) (log st) (ticks st).
Definition do_op (o : disk_op) (st : state) : state :=
  State (st_progress st) (access_token st) (apply_op o (st_disk st))
        (disk_ops st ++ [o]) (sent st) (log st) (ticks st).
Definition add_sent (r : request) (st : state) : state :=
  State (st_progress st) (access_token st) (st_disk st) (disk_ops st)
        (sent st ++ [r]) (log st) (ticks st).
Definition add_log (r : log_record) (st : state) : state :=
  State (st_progress st) (access_token st) (st_disk st) (disk_ops st)
        (sent st) (log st ++ [r]) (ticks st).
Definition tick (st : state) : state :=
  State (st_progress st) (access_token st) (st_disk st) (disk_ops st)
        (sent st) (log st) (S (ticks st)).

Definition logger (lvl template : string) (fields : list string) : M unit :=
  modify (add_log (Log lvl template fields)).
Definition logger_info := logger "INFO".
Definition logger_error := logger "ERROR".
Definition logger_warning := logger "WARNING".

(** Field updates of the progress dictionary. *)
Definition set_total_files (v : Z) (p : progress) : progress :=
  Progress v (uploaded_files p) (failed_files p) (skipped_files p)
           (completed_files p) (failed_files_list p) (start_time p)
           (last_update p) (current_batch p).
Definition set_uploaded_files (v : Z) (p : progress) : progress :=
  Progress (total_files p) v (failed_files p) (skipped_files p)
           (completed_files p) (failed_files_list p) (start_time p)
           (last_update p) (current_batch p).
Definition set_failed_files (v : Z) (p : progress) : progress :=
  Progress (total_files p) (uploaded_files p) v (skipped_files p)
           (completed_files p) (failed_files_list p) (start_time p)
           (last_update p) (current_batch p).
Definition set_skipped_files (v : Z) (p : progress) : progress :=
  Progress (total_files p) (uploaded_files p) (failed_files p) v
           (completed_files p) (failed_files_list p) (start_time p)
           (last_update p) (current_batch p).
Definition set_completed_files (v : gmap string completion) (p : progress) : progress :=
  Progress (total_files p) (uploaded_files p) (failed_files p) (skipped_files p)
           v (failed_files_list p) (start_time p)
           (last_update p) (current_batch p).
Definition set_failed_files_list (v : list failure) (p : progress) : progress :=
  Progress (total_files p) (uploaded_files p) (failed_files p) (skipped_files p)
           (completed_files p) v (start_time p)
           (last_update p) (current_batch p).
Definition set_start_time (v : option Z) (p : progress) : progress :=
  Progress (total_files p) (uploaded_files p) (failed_files p) (skipped_files p)
           (completed_files p) (failed_files_list p) v
           (last_update p) (current_batch p).
Definition set_last_update (v : option Z) (p : progress) : progress :=
  Progress (total_files p) (uploaded_files p) (failed_files p) (skipped_files p)
           (completed_files p) (failed_files_list p) (start_time p)
           v (current_batch p).
Definition set_current_batch (v : Z) (p : progress) : progress :=
  Progress (total_files p) (uploaded_files p) (failed_files p) (skipped_files p)
           (completed_files p) (failed_files_list p) (start_time p)
           (last_update p) v.

(** The [Config] class of a migrator script. *)
Record config := MkConfig {
  ONELAKE_BASE_URL : string;
  WORKSPACE_ID : string;
  LAKEHOUSE_ID : string;
  API_VERSION : string;
  MAX_CONCURRENT_UPLOADS : Z;
  BATCH_SIZE : Z;
  RETRY_ATTEMPTS : Z;
  REQUEST_TIMEOUT : Z;
  PROGRESS_FILE : string;
  LOG_FILE : string }.

(** What a task handed to [asyncio.gather] with [return_exceptions=True]
    contributes to the result list: its return value, or the exception it
    raised. *)
Inductive gathered (A : Type) :=
| Res (r : A)
| Exc (e : exn).
Arguments Res {A} r.
Arguments Exc {A} e.

(** [await asyncio.gather] over the tasks with [return_exceptions=True];
    the tasks are run in list order. *)
Fixpoint gather {A} (tasks : list (M A)) : M (list (gathered A)) :=
  match tasks with
  | [] => ret []
  | t :: ts =>
      fun st =>
        let '(o, st1) := t st in
        let r := match o with Return a => Res a | Raise e => Exc e end in
        match gather ts st1 with
        | (Return rs, st2) => (Return (r :: rs), st2)
        | (Raise e, st2) => (Raise e, st2)
        end
  end.

(** The [k]-th reading of [time.time()] is given by the clock [time_time]. *)
Definition now (time_time : nat -> Z) : M Z :=
  fun st => (Return (time_time (ticks st)), tick st).

(** A process starts with nothing in memory and an empty history. *)
Definition boot (p0 : progress) (d : disk) : state :=
  State p0 None d [] [] [] 0.

End Runtime.


(** ** [onelake_migrator_production.py] *)
Module Production.
Import Py Runtime.
Local Open Scope py_scope.

Definition Config : config :=
  MkConfig "https://onelake.dfs.fabric.microsoft.com"
           "abc64232-25a2-499d-90ae-9fe5939ae437"
           "a622b04f-1094-4f9b-86fd-5105f4778f76"
           "2020-06-12"
           20 100 3 120
           "migration_progress_production.json"
           "onelake_migration_production.log".

(** The dictionary a successful or failed upload returns. *)
Inductive upload_result :=
| Success (path : string) (size : Z) (skipped : bool)
| Failure (path : option string) (error : string).

(** Parsed command line of [main]. *)
Record args := Args {
  arg_start_batch : Z; arg_max_batches : option Z; arg_test_run : bool }.

(** The structure [load_progress] creates when there is no progress file. *)
Definition new_progress : progress :=
  Progress 0 0 0 0 ∅ [] None None 0.

Section WithWorld.
Variable cfg : config.
Variable onelake : request -> reply.
Variable time_time : nat -> Z.

Definition find_token (lines : list string) : option string :=
  match List.find (fun line => startswith "ACCESS_TOKEN=" (strip is_space line)) lines with
  | Some line => after_first "=" (strip is_space line)
  | None => None
  end.

Definition get_access_token : M bool :=
  st <- get;;
  match from_option find_token None (env_file (st_disk st)) with
  | Some tok =>
      modify (with_token (Some tok));;
      logger_info "SUCCESS: Access token loaded from environment file" [];;
      ret true
  | None =>
      logger_error "FAILED: ACCESS_TOKEN not found in config/.env file" [];;
      logger_info "HINT: Run PowerShell script first: scripts/powershell/get_access_token.ps1" [];;
      ret false
  end.

Definition load_progress : M progress :=
  st <- get;;
  match progress_file (st_disk st) with
  | Some (Json p) => ret p
  | Some (Garbled raw) =>
      raise (Exn "JSONDecodeError" "Expecting value: line 1 column 1 (char 0)")
  | None => ret new_progress
  end.

Definition save_progress : M unit :=
  t <- now time_time;;
  modify (with_progress (set_last_update (Some t)));;
  st <- get;;
  match progress_write_error (st_disk st) with
  | Some e => raise e
  | None =>
      modify (do_op Truncate);;
      modify (do_op (Dump (st_progress st)))
  end.

Definition load_file_cache : M (list cache_entry) :=
  st <- get;;
  match cache_file (st_disk st) with
  | Some (CacheJson (Some files)) =>
      logger_info "Loaded {len(files):,} files from cache (timestamp: {cache_data.get('timestamp', 'Unknown')})"
                  [str_of_int (len files)];;
      ret files
  | Some (CacheJson None) =>
      logger_error "No 'files' key found in cache" [];;
      ret []
  | Some CacheGarbled =>
      logger_error "Failed to load file cache: {e}" ["JSONDecodeError"];;
      ret []
  | None =>
      logger_error "Failed to load file cache: {e}" ["FileNotFoundError"];;
      ret []
  end.

Definition build_onelake_url (relative_path : string) : string :=
  let clean_path := strip (Ascii.eqb "/") (replace_char "\" "/" relative_path) in
  let encoded_path := quote clean_path in
  ONELAKE_BASE_URL cfg +:+ "/" +:+ WORKSPACE_ID cfg +:+ "/" +:+ LAKEHOUSE_ID cfg
    +:+ "/Files/" +:+ encoded_path.

(** One request of the session; only the [Content-Length] header is kept
    from [get_headers]. *)
Definition send (r : request) : M (Z * string) :=
  modify (add_sent r);;
  match onelake r with
  | Reply status text => ret (status, text)
  | NetError e => raise e
  end.

Definition status_in (status : Z) (ok : list Z) : bool :=
  existsb (Z.eqb status) ok.

(** The body of the [try] block of [upload_file_async]; [found] is what
    the disk holds at [local_path]. *)
Definition upload_attempt (found : option source_file)
           (local_path relative_path : string) : M upload_result :=
  match found with
  | None =>
      ret (Failure (Some relative_path) ("Local file not found: " +:+ local_path))
  | Some (Unreadable e) => raise e
  | Some (Readable file_content) =>
      let file_size := Z.of_nat (String.length file_content) in
      let base_url := build_onelake_url relative_path in
      (* Step 1: create *)
      response <- send (Request PUT (base_url +:+ "?resource=file") (Some 0) "");;
      let '(status, text) := response in
      (if status_in status [200; 201] then ret tt
       else raise (Exn "Exception"
                       ("Create failed: HTTP " +:+ str_of_int status +:+ " - " +:+ text)));;
      (* Steps 2 and 3: append and flush, if the file has content *)
      (if 0 <? file_size then
         response <-
           send (Request PATCH (base_url +:+ "?action=append&position=0")
                         (Some file_size) file_content);;
         let '(status, text) := response in
         (if status_in status [200; 202] then ret tt
          else raise (Exn "Exception"
                          ("Append failed: HTTP " +:+ str_of_int status +:+ " - " +:+ text)));;
         response <-
           send (Request PATCH
                         (base_url +:+ "?action=flush&position=" +:+ str_of_int file_size)
                         (Some 0) "");;
         let '(status, text) := response in
         (if status_in status [200; 201] then ret tt
          else raise (Exn "Exception"
                          ("Flush failed: HTTP " +:+ str_of_int status +:+ " - " +:+ text)))
       else ret tt);;
      logger_info "SUCCESS: Uploaded {relative_path} ({file_size:,} bytes)"
                  [relative_path; str_of_int file_size];;
      ret (Success relative_path file_size false)
  end.

(** The [except Exception as e] handler of [upload_file_async]. *)
Definition upload_failed (relative_path : string) (e : exn) : M upload_result :=
  logger_error "FAILED: Upload failed: {relative_path} - {str(e)}"
               [relative_path; exn_msg e];;
  ret (Failure (Some relative_path) (exn_msg e)).

Definition upload_file_async (entry : cache_entry) : M upload_result :=
  match entry with
  | NotADict ty =>
      raise (Exn "AttributeError" ("'" +:+ ty +:+ "' object has no attribute 'get'"))
  | Dict file_info =>
      let local_path := path file_info in
      let relative_path := relative_path file_info in
      let expected_size := default 0 (size_bytes file_info) in
      if negb (truthy local_path) || negb (truthy relative_path) then
        ret (Failure relative_path "Missing path information")
      else
        let local_path := default "" local_path in
        let relative_path := default "" relative_path in
        st <- get;;
        if decide (relative_path ∈ dom (completed_files (st_progress st))) then
          ret (Success relative_path expected_size true)
        else
          try_except
            (upload_attempt (sources (st_disk st) !! local_path) local_path relative_path)
            (upload_failed relative_path)
  end.

Definition upload_batch (file_batch : list cache_entry)
  : M (list (gathered upload_result)) :=
  gather (map upload_file_async file_batch).

(** The body of [for result in results] in [migrate_files]; the triple is
    [(batch_success, batch_failed, batch_skipped)]. *)
Definition process_result (batch_num : Z) (counts : Z * Z * Z)
           (result : gathered upload_result) : M (Z * Z * Z) :=
  let '(batch_success, batch_failed, batch_skipped) := counts in
  match result with
  | Res (Success path size true) =>
      modify (with_progress (fun p => set_skipped_files (skipped_files p + 1) p));;
      ret (batch_success, batch_failed, batch_skipped + 1)
  | Res (Success path size false) =>
      modify (with_progress (fun p => set_uploaded_files (uploaded_files p + 1) p));;
      t <- now time_time;;
      modify (with_progress (fun p =>
        set_completed_files
          (<[path := Completion "completed" size t (Some (batch_num + 1))]>
             (completed_files p)) p));;
      ret (batch_success + 1, batch_failed, batch_skipped)
  | Res (Failure path error) =>
      modify (with_progress (fun p => set_failed_files (failed_files p + 1) p));;
      t <- now time_time;;
      modify (with_progress (fun p =>
        set_failed_files_list
          (failed_files_list p ++ [Failed path error t (Some (batch_num + 1))]) p));;
      ret (batch_success, batch_failed + 1, batch_skipped)
  | Exc e =>
      modify (with_progress (fun p => set_failed_files (failed_files p + 1) p));;
      logger_error "BATCH EXCEPTION: {result}" [exn_msg e];;
      ret (batch_success, batch_failed + 1, batch_skipped)
  end.

Fixpoint process_results (batch_num : Z) (counts : Z * Z * Z)
         (results : list (gathered upload_result)) : M (Z * Z * Z) :=
  match results with
  | [] => ret counts
  | r :: rs =>
      counts' <- process_result batch_num counts r;;
      process_results batch_num counts' rs
  end.

Definition print_summary : M unit :=
  st <- get;;
  let total := total_files (st_progress st) in
  let uploaded := uploaded_files (st_progress st) in
  let failed := failed_files (st_progress st) in
  let skipped := skipped_files (st_progress st) in
  t <- now time_time;;
  logger_info "============================================================" [];;
  logger_info "PRODUCTION MIGRATION SUMMARY" [];;
  logger_info "============================================================" [];;
  logger_info "SUCCESS: Total files processed: {total:,}" [str_of_int total];;
  logger_info "SUCCESS: Successfully uploaded: {uploaded:,}" [str_of_int uploaded];;
  logger_info "SKIPPED: Already uploaded: {skipped:,}" [str_of_int skipped];;
  logger_info "FAILED: Failed uploads: {failed:,}" [str_of_int failed];;
  logger_info "PERCENT: Success rate: {percentage:.1f}%" [];;
  logger_info "TIME: Total time: {int(hours):02d}:{int(minutes):02d}:{int(seconds):02d}" [];;
  if 0 <? failed then
    logger_info "FAILED FILES: Check details in: {Config.PROGRESS_FILE}" [PROGRESS_FILE cfg]
  else ret tt.

(** [a // b]. *)
Definition floordiv (a b : Z) : M Z :=
  if b =? 0 then raise (Exn "ZeroDivisionError" "integer division or modulo by zero")
  else ret (a / b).

(** The slice of [files] that batch number [batch_num] takes. *)
Definition batch_slice (files : list cache_entry) (batch_num : Z) : list cache_entry :=
  let start_idx := batch_num * BATCH_SIZE cfg in
  let end_idx := Z.min (start_idx + BATCH_SIZE cfg) (len files) in
  slice files start_idx end_idx.

(** The body of [for batch_num in range(start_batch, end_batch)]. *)
Definition migrate_batch (files : list cache_entry) (total_batches batch_num : Z) : M unit :=
  let batch := batch_slice files batch_num in
  modify (with_progress (set_current_batch (batch_num + 1)));;
  logger_info "BATCH: Processing batch {batch_num + 1}/{total_batches} ({len(batch)} files)"
              [str_of_int (batch_num + 1); str_of_int total_batches; str_of_int (len batch)];;
  results <- upload_batch batch;;
  counts <- process_results batch_num (0, 0, 0) results;;
  let '(batch_success, batch_failed, batch_skipped) := counts in
  save_progress;;
  logger_info "BATCH COMPLETE: Success: {batch_success}, Failed: {batch_failed}, Skipped: {batch_skipped}"
              [str_of_int batch_success; str_of_int batch_failed; str_of_int batch_skipped];;
  st <- get;;
  logger_info "PROGRESS: {completed:,}/{total:,} files ({percentage:.1f}%)"
              [str_of_int (uploaded_files (st_progress st));
               str_of_int (total_files (st_progress st))].

(** [end_batch] as computed from [max_batches]; [None] and [0] are falsy. *)
Definition end_batch_of (total_batches start_batch : Z) (max_batches : option Z) : Z :=
  match max_batches with
  | Some m => if m =? 0 then total_batches else Z.min total_batches (start_batch + m)
  | None => total_batches
  end.

Definition migrate_files (start_batch : Z) (max_batches : option Z) : M bool :=
  ok <- get_access_token;;
  if negb ok then
    logger_error "FAILED: Cannot proceed without access token" [];;
    ret false
  else
    files <- load_file_cache;;
    match files with
    | [] =>
        logger_error "FAILED: No files to migrate" [];;
        ret false
    | _ :: _ =>
        logger_info "STARTING: Production migration" [];;
        logger_info "Total files in cache: {len(files):,}" [str_of_int (len files)];;
        logger_info "Starting from batch: {start_batch}" [str_of_int start_batch];;
        logger_info "Max batches: {max_batches if max_batches else 'All'}"
                    [match max_batches with
                     | Some m => if m =? 0 then "All" else str_of_int m
                     | None => "All"
                     end];;
        logger_info "Target: {Config.ONELAKE_BASE_URL}/{Config.WORKSPACE_ID}/{Config.LAKEHOUSE_ID}/Files/"
                    [ONELAKE_BASE_URL cfg; WORKSPACE_ID cfg; LAKEHOUSE_ID cfg];;
        modify (with_progress (set_total_files (len files)));;
        t <- now time_time;;
        modify (with_progress (set_start_time (Some t)));;
        total_batches <- floordiv (len files + BATCH_SIZE cfg - 1) (BATCH_SIZE cfg);;
        let end_batch := end_batch_of total_batches start_batch max_batches in
        logger_info "Processing batches {start_batch + 1} to {end_batch} of {total_batches}"
                    [str_of_int (start_batch + 1); str_of_int end_batch; str_of_int total_batches];;
        for_each (range start_batch end_batch) (migrate_batch files total_batches);;
        print_summary;;
        ret true
    end.

(** [OneLakeProductionMigrator()]. *)
Definition init : M unit :=
  modify (with_token None);;
  p <- load_progress;;
  modify (with_progress (fun _ => p)).

Definition main (a : args) : M unit :=
  init;;
  success <-
    (if arg_test_run a then
       logger_info "TEST RUN: Processing first 5 batches only" [];;
       migrate_files 0 (Some 5)
     else migrate_files (arg_start_batch a) (arg_max_batches a));;
  if (success : bool) then logger_info "MIGRATION COMPLETED SUCCESSFULLY!" []
  else logger_error "MIGRATION FAILED" [].

(** Running the script as a process on the disk [d]: the interpreter exits
    with status 0 when [main] returns and with status 1 on an uncaught
    exception. *)
Definition run (a : args) (d : disk) : Z * state :=
  match main a (boot new_progress d) with
  | (Return _, st) => (0, st)
  | (Raise _, st) => (1, st)
  end.

End WithWorld.
End Production.

(** ** [onelake_migrator_turbo_working.py]

    [get_access_token], [save_progress], [build_onelake_url] and the request
    layer are the same text as in the production script and are shared with
    it. *)
Module TurboWorking.
Import Py Runtime.
Local Open Scope py_scope.

Definition Config : config :=
  MkConfig "https://onelake.dfs.fabric.microsoft.com"
           "abc64232-25a2-499d-90ae-9fe5939ae437"
           "a622b04f-1094-4f9b-86fd-5105f4778f76"
           "2020-06-12"
           10 50 3 60
           "migration_progress_working.json"
           "onelake_migration_working.log".

(** The dictionary [upload_file_async] returns. *)
Inductive upload_result :=
| Success (path : string) (size : Z)
| Failure (path : string) (error : string).

Section WithWorld.
Variable cfg : config.
Variable onelake : request -> reply.
Variable time_time : nat -> Z.

Let send := Production.send onelake.
Let build_onelake_url := Production.build_onelake_url cfg.
Let status_in := Production.status_in.

(** The body of the [try] block of [upload_file_async]; [found] is what
    the disk holds at [file_path]. *)
Definition upload_attempt (found : option source_file)
           (file_path onelake_path : string) : M upload_result :=
  match found with
  | None =>
      raise (Exn "FileNotFoundError"
                 ("[Errno 2] No such file or directory: '" +:+ file_path +:+ "'"))
  | Some (Unreadable e) => raise e
  | Some (Readable file_content) =>
      let file_size := Z.of_nat (String.length file_content) in
      let base_url := build_onelake_url onelake_path in
      response <- send (Request PUT (base_url +:+ "?resource=file") (Some 0) "");;
      let '(status, text) := response in
      (if status_in status [200; 201] then ret tt
       else raise (Exn "Exception"
                       ("Create failed: HTTP " +:+ str_of_int status +:+ " - " +:+ text)));;
      (if 0 <? file_size then
         response <-
           send (Request PATCH (base_url +:+ "?action=append&position=0")
                         (Some file_size) file_content);;
         let '(status, text) := response in
         (if status_in status [200; 202] then ret tt
          else raise (Exn "Exception"
                          ("Append failed: HTTP " +:+ str_of_int status +:+ " - " +:+ text)));;
         response <-
           send (Request PATCH
                         (base_url +:+ "?action=flush&position=" +:+ str_of_int file_size)
                         (Some 0) "");;
         let '(status, text) := response in
         (if status_in status [200; 201] then ret tt
          else raise (Exn "Exception"
                          ("Flush failed: HTTP " +:+ str_of_int status +:+ " - " +:+ text)))
       else ret tt);;
      logger_info "SUCCESS: Uploaded: {onelake_path} ({file_size:,} bytes)"
                  [onelake_path; str_of_int file_size];;
      ret (Success onelake_path file_size)
  end.

(** The [except Exception as e] handler of [upload_file_async]. *)
Definition upload_failed (onelake_path : string) (e : exn) : M upload_result :=
  logger_error "FAILED: Upload failed: {onelake_path} - {str(e)}"
               [onelake_path; exn_msg e];;
  ret (Failure onelake_path (exn_msg e)).

Definition upload_file_async (file_path onelake_path : string) : M upload_result :=
  st <- get;;
  try_except
    (upload_attempt (sources (st_disk st) !! file_path) file_path onelake_path)
    (upload_failed onelake_path).

Definition upload_batch (file_batch : list (string * string))
  : M (list (gathered upload_result)) :=
  gather (map (fun '(local_path, onelake_path) => upload_file_async local_path onelake_path)
              file_batch).

(** The body of [for result in results]. *)
Definition process_result (result : gathered upload_result) : M unit :=
  match result with
  | Res (Success path size) =>
      modify (with_progress (fun p => set_uploaded_files (uploaded_files p + 1) p));;
      t <- now time_time;;
      modify (with_progress (fun p =>
        set_completed_files
          (<[path := Completion "completed" size t None]> (completed_files p)) p))
  | Res (Failure path error) =>
      modify (with_progress (fun p => set_failed_files (failed_files p + 1) p));;
      t <- now time_time;;
      modify (with_progress (fun p =>
        set_failed_files_list (failed_files_list p ++ [Failed (Some path) error t None]) p))
  | Exc e =>
      modify (with_progress (fun p => set_failed_files (failed_files p + 1) p));;
      logger_error "BATCH EXCEPTION: {result}" [exn_msg e]
  end.

(** The batches [file_list[i:i + BATCH_SIZE]] for
    [i in range(0, len(file_list), BATCH_SIZE)]. *)
Definition batches (file_list : list (string * string)) : list (list (string * string)) :=
  map (fun i => slice file_list i (i + BATCH_SIZE cfg))
      (range_step 0 (len file_list) (BATCH_SIZE cfg)).

(** The loop body; [batch_number] is the counter after its increment. *)
Definition migrate_batch (batch_number : Z) (batch : list (string * string)) : M unit :=
  logger_info "BATCH: Processing batch {batch_number} ({len(batch)} files)"
              [str_of_int batch_number; str_of_int (len batch)];;
  results <- upload_batch batch;;
  for_each results process_result;;
  Production.save_progress time_time;;
  st <- get;;
  logger_info "PROGRESS: {completed:,}/{total:,} files ({percentage:.1f}%)"
              [str_of_int (uploaded_files (st_progress st));
               str_of_int (total_files (st_progress st))].

Fixpoint migrate_loop (batch_number : Z) (bs : list (list (string * string))) : M unit :=
  match bs with
  | [] => ret tt
  | batch :: bs' =>
      migrate_batch (batch_number + 1) batch;;
      migrate_loop (batch_number + 1) bs'
  end.

Definition print_summary : M unit :=
  st <- get;;
  let total := total_files (st_progress st) in
  let uploaded := uploaded_files (st_progress st) in
  let failed := failed_files (st_progress st) in
  t <- now time_time;;
  logger_info "==================================================" [];;
  logger_info "MIGRATION SUMMARY" [];;
  logger_info "==================================================" [];;
  logger_info "SUCCESS: Total files processed: {total:,}" [str_of_int total];;
  logger_info "SUCCESS: Successfully uploaded: {uploaded:,}" [str_of_int uploaded];;
  logger_info "FAILED: Failed uploads: {failed:,}" [str_of_int failed];;
  logger_info "PERCENT: Success rate: {percentage:.1f}%" [];;
  logger_info "TIME: Total time: {int(hours):02d}:{int(minutes):02d}:{int(seconds):02d}" [];;
  if 0 <? failed then
    logger_info "FAILED FILES: Failed files logged in: {Config.PROGRESS_FILE}" [PROGRESS_FILE cfg]
  else ret tt.

Definition migrate_files (file_list : list (string * string)) : M bool :=
  ok <- Production.get_access_token;;
  if negb ok then
    logger_error "FAILED: Cannot proceed without access token" [];;
    ret false
  else
    modify (with_progress (set_total_files (len file_list)));;
    t <- now time_time;;
    modify (with_progress (set_start_time (Some t)));;
    logger_info "STARTING: Migration of {len(file_list):,} files" [str_of_int (len file_list)];;
    logger_info "TARGET: {Config.ONELAKE_BASE_URL}/{Config.WORKSPACE_ID}/{Config.LAKEHOUSE_ID}/Files/"
                [ONELAKE_BASE_URL cfg; WORKSPACE_ID cfg; LAKEHOUSE_ID cfg];;
    (if BATCH_SIZE cfg =? 0
     then raise (Exn "ValueError" "range() arg 3 must not be zero")
     else migrate_loop 0 (batches file_list));;
    print_summary;;
    ret true.

End WithWorld.
End TurboWorking.

(** ** [onelake_migrator_auto_refresh.py]: the progress file *)
Module AutoRefresh.
Import Py Runtime.
Local Open Scope py_scope.

Definition save_progress : M unit :=
  try_except
    (st <- get;;
     match progress_write_error (st_disk st) with
     | Some e => raise e
     | None =>
         modify (do_op Truncate);;
         modify (do_op (Dump (st_progress st)))
     end)
    (fun e => logger_error "WARNING: Failed to save progress: {e}" [exn_msg e]).

End AutoRefresh.

(** ** [onelake_migrator_auto_refresh.py]: the token and one upload

    The class [OneLakeMigratorWithRefresh].  Its process owns the access
    token, the time the token was loaded and the progress dictionary, of
    which one upload reads the keys of ['completed_files']; around it are the
    environment file, the PowerShell script that renews the token, the source
    files, the remote service and the clock.  The service answers
    [onelake n r] to the request [r] when [n] requests were sent before it,
    and the [n]-th run of the script goes as [powershell n]. *)
Module OneLakeMigratorWithRefresh.
Import Py Runtime.

(** The part of [Config] that the token and the upload use. *)
Record settings := Settings {
  ONELAKE_BASE_URL : string;
  WORKSPACE_ID : string;
  LAKEHOUSE_ID : string;
  TOKEN_REFRESH_MINUTES : Z }.

(** [config/.env] as [open] and the loop over its lines find it. *)
Inductive env_text :=
| EnvLines (lines : list string)
| EnvMissing                        (* FileNotFoundError *)
| EnvError (e : exn).               (* any other exception *)

(** One [subprocess.run] of [get_access_token.ps1]: the script ends with a
    return code and an error output and leaves the environment file as
    [env], or [subprocess.run] raises. *)
Inductive script_run :=
| Ran (returncode : Z) (stderr : string) (env : env_text)
| Crashed (e : exn).

(** A request with the headers that matter: the token that [get_headers]
    puts after [Bearer], and [Content-Length] where the call adds it. *)
Record request := Request {
  method : http_method;
  url : string;
  authorization : option string;
  content_length : option Z;
  body : string }.

(** The dictionary [upload_file_to_onelake] returns. *)
Inductive upload_result :=
| Skipped (file : string)
| Success (file : string) (size : Z)
| Failed (file : string) (error : string).

Record state := State {
  access_token : option string;              (* self.access_token *)
  token_timestamp : option Z;                (* self.token_timestamp *)
  completed_files : gset string;             (* keys of progress_data['completed_files'] *)
  env_file : env_text;                       (* config/.env *)
  script_exists : bool;                      (* os.path.exists(ps_script) *)
  script_runs : nat;                         (* runs of the script so far *)
  local_files : gmap string source_file;     (* the source files, by path *)
  sent : list request;                       (* newest last *)
  log : list log_record;                     (* newest last *)
  ticks : nat }.

Definition M (A : Type) : Type := state -> outcome A * state.

Definition ret {A} (a : A) : M A := fun st => (Return a, st).
Definition raise {A} (e : exn) : M A := fun st => (Raise e, st).
Definition bind {A B} (m : M A) (k : A -> M B) : M B :=
  fun st =>
    match m st with
    | (Return a, st') => k a st'
    | (Raise e, st') => (Raise e, st')
    end.
Definition try_except {A} (m : M A) (h : exn -> M A) : M A :=
  fun st =>
    match m st with
    | (Return a, st') => (Return a, st')
    | (Raise e, st') => h e st'
    end.

Declare Scope ar_scope.
Delimit Scope ar_scope with ar.
Notation "x <- m ;; k" := (bind m (fun x => k))
  (at level 100, m at next level, right associativity) : ar_scope.
Notation "m ;; k" := (bind m (fun _ => k))
  (at level 100, right associativity) : ar_scope.
Local Open Scope ar_scope.

Definition get : M state := fun st => (Return st, st).
Definition modify (f : state -> state) : M unit := fun st => (Return tt, f st).

Definition set_access_token (tok : option string) (st : state) : state :=
  State tok (token_timestamp st) (completed_files st) (env_file st) (script_exists st)
        (script_runs st) (local_files st) (sent st) (log st) (ticks st).
Definition set_token_timestamp (t : option Z) (st : state) : state :=
  State (access_token st) t (completed_files st) (env_file st) (script_exists st)
        (script_runs st) (local_files st) (sent st) (log st) (ticks st).
Definition script_ran (env : env_text) (st : state) : state :=
  State (access_token st) (token_timestamp st) (completed_files st) env (script_exists st)
        (S (script_runs st)) (local_files st) (sent st) (log st) (ticks st).
Definition script_crashed (st : state) : state :=
  State (access_token st) (token_timestamp st) (completed_files st) (env_file st)
        (script_exists st) (S (script_runs st)) (local_files st) (sent st) (log st) (ticks st).
Definition add_sent (r : request) (st : state) : state :=
  State (access_token st) (token_timestamp st) (completed_files st) (env_file st)
        (script_exists st) (script_runs st) (local_files st) (sent st ++ [r]) (log st)
        (ticks st).
Definition add_log (r : log_record) (st : state) : state :=
  State (access_token st) (token_timestamp st) (completed_files st) (env_file st)
        (script_exists st) (script_runs st) (local_files st) (sent st) (log st ++ [r])
        (ticks st).
Definition tick (st : state) : state :=
  State (access_token st) (token_timestamp st) (completed_files st) (env_file st)
        (script_exists st) (script_runs st) (local_files st) (sent st) (log st)
        (S (ticks st)).

Definition logger (lvl template : string) (fields : list string) : M unit :=
  modify (add_log (Log lvl template fields)).

(** The token of the first line that, stripped, starts with
    [ACCESS_TOKEN=]. *)
Definition find_token (lines : list string) : option string :=
  match List.find (fun line => startswith "ACCESS_TOKEN=" (strip is_space line)) lines with
  | Some line => after_first "=" (strip is_space line)
  | None => None
  end.

Section WithWorld.
Variable cfg : settings.
Variable os_sep : ascii.
Variable onelake : nat -> request -> reply.
Variable powershell : nat -> script_run.
Variable clock : nat -> Z.

(** [datetime.now()]. *)
Definition now : M Z := fun st => (Return (clock (ticks st)), tick st).

(** The value is [True], [False], or [None] when the file has no token
    line and the function runs off its end. *)
Definition get_access_token : M (option bool) :=
  st <- get;;
  match env_file st with
  | EnvLines lines =>
      match find_token lines with
      | Some tok =>
          modify (set_access_token (Some tok));;
          logger "INFO" "SUCCESS: Access token loaded from environment file" [];;
          ret (Some true)
      | None => ret None
      end
  | EnvMissing =>
      logger "ERROR" "FAILED: ACCESS_TOKEN not found in config/.env file" [];;
      logger "INFO" "HINT: Run PowerShell script first: scripts/powershell/get_access_token.ps1" [];;
      ret (Some false)
  | EnvError e =>
      logger "ERROR" "FAILED: Failed to load access token: {e}" [exn_msg e];;
      ret (Some false)
  end.

(** [subprocess.run([...], capture_output=True, text=True, timeout=60)]. *)
Definition run_script : M (Z * string) :=
  st <- get;;
  match powershell (script_runs st) with
  | Ran returncode stderr env =>
      modify (script_ran env);;
      ret (returncode, stderr)
  | Crashed e =>
      modify script_crashed;;
      raise e
  end.

Definition refresh_access_token : M bool :=
  try_except
    (logger "INFO" "REFRESHING ACCESS TOKEN..." [];;
     st <- get;;
     if script_exists st then
       result <- run_script;;
       let '(returncode, stderr) := result in
       if returncode =? 0 then
         logger "INFO" "PowerShell token refresh completed" [];;
         loaded <- get_access_token;;
         match loaded with
         | Some true =>
             t <- now;;
             modify (set_token_timestamp (Some t));;
             logger "INFO" "ACCESS TOKEN REFRESHED SUCCESSFULLY" [];;
             ret true
         | _ => ret false
         end
       else
         logger "ERROR" "PowerShell script failed: {result.stderr}" [stderr];;
         ret false
     else
       logger "WARNING" "PowerShell script not found: {ps_script}"
              ["scripts/powershell/get_access_token.ps1"];;
       ret false)
    (fun e =>
       logger "ERROR" "Token refresh failed: {e}" [exn_msg e];;
       ret false).

Definition is_token_expired : M bool :=
  st <- get;;
  match token_timestamp st with
  | None => ret true
  | Some timestamp =>
      t <- now;;
      ret (TOKEN_REFRESH_MINUTES cfg * 60 <? t - timestamp)
  end.

Definition ensure_valid_token : M bool :=
  expired <- is_token_expired;;
  if expired then
    logger "INFO" "Token refresh needed..." [];;
    refreshed <- refresh_access_token;;
    if negb refreshed then
      logger "ERROR" "Failed to refresh token" [];;
      ret false
    else ret true
  else ret true.

(** One request of the session, with the headers [get_headers] gives at
    the time of the call. *)
Definition send (with_token : option string -> request) : M (Z * string) :=
  st <- get;;
  let r := with_token (access_token st) in
  modify (add_sent r);;
  match onelake (length (sent st)) r with
  | Reply status text => ret (status, text)
  | NetError e => raise e
  end.

Definition status_in (status : Z) (ok : list Z) : bool :=
  existsb (Z.eqb status) ok.

(** One of the three steps of the upload: the request, after a 401 the
    check of the token and the request again, and the dictionary to return
    when the step fails.  Only the first step logs the warning. *)
Definition step_with_refresh (warn : bool) (step : string) (ok : list Z)
           (relative_path : string) (with_token : option string -> request)
  : M (option upload_result) :=
  response <- send with_token;;
  let '(status, error_text) := response in
  if status =? 401 then
    (if warn then logger "WARNING" "Token expired during upload, refreshing..." []
     else ret tt);;
    valid <- ensure_valid_token;;
    if valid then
      retry_response <- send with_token;;
      let '(status, error_text) := retry_response in
      if negb (status_in status ok) then
        ret (Some (Failed relative_path
                          (step +:+ " failed after refresh: HTTP " +:+ str_of_int status
                             +:+ " - " +:+ error_text)))
      else ret None
    else ret (Some (Failed relative_path "Token refresh failed"))
  else if negb (status_in status ok) then
    ret (Some (Failed relative_path
                      (step +:+ " failed: HTTP " +:+ str_of_int status
                         +:+ " - " +:+ error_text)))
  else ret None.

Definition object_url (relative_path : string) : string :=
  let onelake_path := "Files/SharePoint_Invoices/" +:+ replace_char os_sep "/" relative_path in
  let encoded_path := quote onelake_path in
  ONELAKE_BASE_URL cfg +:+ "/" +:+ WORKSPACE_ID cfg +:+ "/" +:+ LAKEHOUSE_ID cfg
    +:+ "/" +:+ encoded_path.

Definition create_request (relative_path : string) (tok : option string) : request :=
  Request PUT (object_url relative_path +:+ "?resource=file") tok None "".
Definition append_request (relative_path file_content : string) (tok : option string)
  : request :=
  Request PATCH (object_url relative_path +:+ "?action=append&position=0") tok
          (Some (Z.of_nat (String.length file_content))) file_content.
Definition flush_request (relative_path file_content : string) (tok : option string)
  : request :=
  Request PATCH
          (object_url relative_path +:+ "?action=flush&position="
             +:+ str_of_int (Z.of_nat (String.length file_content)))
          tok None "".

(** The body of the [try] block of [upload_file_to_onelake]. *)
Definition upload_attempt (local_path relative_path : string) : M upload_result :=
  st <- get;;
  match local_files st !! local_path with
  | None =>
      raise (Exn "FileNotFoundError"
                 ("[Errno 2] No such file or directory: '" +:+ local_path +:+ "'"))
  | Some (Unreadable e) => raise e
  | Some (Readable file_content) =>
      let file_size := Z.of_nat (String.length file_content) in
      failed <- step_with_refresh true "Create" [201; 409] relative_path
                                  (create_request relative_path);;
      match failed with
      | Some result => ret result
      | None =>
          failed <- step_with_refresh false "Append" [202] relative_path
                                      (append_request relative_path file_content);;
          match failed with
          | Some result => ret result
          | None =>
              failed <- step_with_refresh false "Flush" [200] relative_path
                                          (flush_request relative_path file_content);;
              match failed with
              | Some result => ret result
              | None =>
                  logger "INFO" "SUCCESS: Uploaded {relative_path} ({file_size:,} bytes)"
                         [relative_path; str_of_int file_size];;
                  ret (Success relative_path file_size)
              end
          end
      end
  end.

Definition upload_file_to_onelake (file_info : file_info) : M upload_result :=
  match relative_path file_info with
  | None => raise (Exn "KeyError" "'relative_path'")
  | Some relative_path =>
      st <- get;;
      if decide (relative_path ∈ completed_files st) then ret (Skipped relative_path)
      else
        valid <- ensure_valid_token;;
        if negb valid then ret (Failed relative_path "Token refresh failed")
        else
          match path file_info with
          | None => raise (Exn "KeyError" "'path'")
          | Some local_path =>
              try_except
                (upload_attempt local_path relative_path)
                (fun e =>
                   logger "ERROR" "ERROR: Exception uploading {relative_path}: {str(e)}"
                          [relative_path; exn_msg e];;
                   ret (Failed relative_path (exn_msg e)))
          end
  end.

End WithWorld.
End OneLakeMigratorWithRefresh.

(** ** [src/fabric/onelake_migrator_turbo_fixed.py]: the progress file *)
Module TurboFixed.
Import Py Runtime.

(** The progress dictionary of this script: lists, and a statistics
    dictionary. *)
Record progress := Progress {
  completed_files : list string;
  failed_files : list (string * string);
  stats : gmap string Z }.

(** [self.migration_log] seen through [json.load]. *)
Inductive log_text :=
| Json (p : progress)
| Garbled (raw : string).

Definition init_progress : progress := Progress [] [] ∅.

(** The [try] body of [load_progress]. *)
Definition read_log (t : log_text) : outcome progress :=
  match t with
  | Json p => Return p
  | Garbled raw => Raise (Exn "JSONDecodeError" "Expecting value: line 1 column 1 (char 0)")
  end.

Definition load_progress (migration_log : option log_text) : outcome progress :=
  match migration_log with
  | Some t =>
      match read_log t with
      | Return p => Return p
      | Raise _ => Return init_progress   (* except: pass *)
      end
  | None => Return init_progress
  end.

End TurboFixed.

(** ** [src/fabric/onelake_migrator_turbo_fixed.py]: the migrator

    The class [OptimizedOneLakeMigrator].  Its process owns the progress
    dictionary, the statistics dictionary [migration_stats] and the token
    with the time it was fetched; around it are the migration log, the file
    cache, the source tree, the remote service and the clock.  The
    statistics hold integers; a time is the reading of the clock, and the
    running average of the speed, a float in the source, is left to the
    function [average]. *)
Module OptimizedOneLakeMigrator.
Import Py Runtime.

(** An element of the file list: a dictionary with optional keys. *)
Record file_info := FileInfo {
  path : option string;
  relative_path : option string;
  size_bytes : option Z;
  modified_time : option Z }.

(** [file_cache_optimized.json] seen through [json.load]: a dictionary whose
    ['timestamp'] may be missing or not parse as a time and whose ['files']
    may be missing, or text the decoder rejects. *)
Inductive cache_text :=
| CacheJson (timestamp : option Z) (files : option (list file_info))
| CacheGarbled.

(** What [__init__] takes from the configuration; [batch_size] is set to 50
    there. *)
Record settings := Settings {
  workspace_id : string;
  lakehouse_id : string;
  access_token : option string;
  onelake_base_path : string;
  batch_size : Z }.

(** The dictionary [upload_file_async] returns, and the one that
    [migrate_batch_async] makes of an exception, which has no ['file']. *)
Inductive upload_result :=
| Success (file : string) (size : Z)
| Failure (file : option string) (error : string).

Record state := State {
  completed_files : list string;                 (* progress["completed_files"] *)
  failed_files : list (string * string);         (* progress["failed_files"]: file and error *)
  migration_stats : gmap string Z;
  token : string;
  token_refresh_time : Z;
  migration_log : option TurboFixed.log_text;    (* migration_progress_optimized.json *)
  migration_log_error : option exn;              (* what open(migration_log, 'w') raises *)
  file_cache : option cache_text;                (* file_cache_optimized.json *)
  file_cache_error : option exn;                 (* what open(file_cache, 'w') raises *)
  walked : list file_info;                       (* what os.walk finds and can stat *)
  local_files : gmap string source_file;         (* the source files, by path *)
  sent : list request;                           (* newest last *)
  log : list log_record;                         (* newest last *)
  ticks : nat }.

Definition M (A : Type) : Type := state -> outcome A * state.

Definition ret {A} (a : A) : M A := fun st => (Return a, st).
Definition raise {A} (e : exn) : M A := fun st => (Raise e, st).
Definition bind {A B} (m : M A) (k : A -> M B) : M B :=
  fun st =>
    match m st with
    | (Return a, st') => k a st'
    | (Raise e, st') => (Raise e, st')
    end.
Definition try_except {A} (m : M A) (h : exn -> M A) : M A :=
  fun st =>
    match m st with
    | (Return a, st') => (Return a, st')
    | (Raise e, st') => h e st'
    end.

Declare Scope fx_scope.
Delimit Scope fx_scope with fx.
Notation "x <- m ;; k" := (bind m (fun x => k))
  (at level 100, m at next level, right associativity) : fx_scope.
Notation "m ;; k" := (bind m (fun _ => k))
  (at level 100, right associativity) : fx_scope.
Local Open Scope fx_scope.

Definition get : M state := fun st => (Return st, st).
Definition modify (f : state -> state) : M unit := fun st => (Return tt, f st).

Definition set_progress (completed : list string) (failed : list (string * string))
           (st : state) : state :=
  State completed failed (migration_stats st) (token st) (token_refresh_time st)
        (migration_log st) (migration_log_error st) (file_cache st) (file_cache_error st)
        (walked st) (local_files st) (sent st) (log st) (ticks st).
Definition set_stats (stats : gmap string Z) (st : state) : state :=
  State (completed_files st) (failed_files st) stats (token st) (token_refresh_time st)
        (migration_log st) (migration_log_error st) (file_cache st) (file_cache_error st)
        (walked st) (local_files st) (sent st) (log st) (ticks st).
Definition set_token (tok : string) (t : Z) (st : state) : state :=
  State (completed_files st) (failed_files st) (migration_stats st) tok t
        (migration_log st) (migration_log_error st) (file_cache st) (file_cache_error st)
        (walked st) (local_files st) (sent st) (log st) (ticks st).
Definition set_migration_log (o : option TurboFixed.log_text) (st : state) : state :=
  State (completed_files st) (failed_files st) (migration_stats st) (token st)
        (token_refresh_time st)
        o (migration_log_error st) (file_cache st) (file_cache_error st)
        (walked st) (local_files st) (sent st) (log st) (ticks st).
Definition set_file_cache (o : option cache_text) (st : state) : state :=
  State (completed_files st) (failed_files st) (migration_stats st) (token st)
        (token_refresh_time st)
        (migration_log st) (migration_log_error st) o (file_cache_error st)
        (walked st) (local_files st) (sent st) (log st) (ticks st).
Definition add_sent (r : request) (st : state) : state :=
  State (completed_files st) (failed_files st) (migration_stats st) (token st)
        (token_refresh_time st)
        (migration_log st) (migration_log_error st) (file_cache st) (file_cache_error st)
        (walked st) (local_files st) (sent st ++ [r]) (log st) (ticks st).
Definition add_log (r : log_record) (st : state) : state :=
  State (completed_files st) (failed_files st) (migration_stats st) (token st)
        (token_refresh_time st)
        (migration_log st) (migration_log_error st) (file_cache st) (file_cache_error st)
        (walked st) (local_files st) (sent st) (log st ++ [r]) (ticks st).
Definition tick (st : state) : state :=
  State (completed_files st) (failed_files st) (migration_stats st) (token st)
        (token_refresh_time st)
        (migration_log st) (migration_log_error st) (file_cache st) (file_cache_error st)
        (walked st) (local_files st) (sent st) (log st) (S (ticks st)).

Definition logger (lvl template : string) (fields : list string) : M unit :=
  modify (add_log (Log lvl template fields)).

(** [await asyncio.gather] over the tasks with [return_exceptions=True]. *)
Fixpoint gather {A} (tasks : list (M A)) : M (list (gathered A)) :=
  match tasks with
  | [] => ret []
  | t :: ts =>
      fun st =>
        let '(o, st1) := t st in
        let r := match o with Return a => Res a | Raise e => Exc e end in
        match gather ts st1 with
        | (Return rs, st2) => (Return (r :: rs), st2)
        | (Raise e, st2) => (Raise e, st2)
        end
  end.

(** [migration_stats[key]] and [migration_stats[key] = v]. *)
Definition stat (key : string) : M Z :=
  st <- get;;
  match migration_stats st !! key with
  | Some v => ret v
  | None => raise (Exn "KeyError" ("'" +:+ key +:+ "'"))
  end.
Definition set_stat (key : string) (v : Z) : M unit :=
  modify (fun st => set_stats (<[key := v]> (migration_stats st)) st).
(** [migration_stats[key] += n]. *)
Definition add_stat (key : string) (n : Z) : M unit :=
  v <- stat key;;
  set_stat key (v + n).

Section WithWorld.
Variable cfg : settings.
Variable onelake : request -> reply.
Variable clock : nat -> Z.
Variable oauth_token : outcome string.
Variable average : Z -> Z -> Z -> Z -> Z.

(** [time.time()] and [datetime.now()]. *)
Definition now : M Z := fun st => (Return (clock (ticks st)), tick st).

Definition get_fabric_token : M string :=
  if truthy (access_token cfg) then ret (default "" (access_token cfg))
  else
    match oauth_token with
    | Return t => ret t
    | Raise e => raise e
    end.

(** The [try] block of [scan_files_optimized]: the cached list when the
    cache is less than an hour old. *)
Definition read_cache (cached_data : cache_text) : M (option (list file_info)) :=
  match cached_data with
  | CacheGarbled =>
      raise (Exn "JSONDecodeError" "Expecting value: line 1 column 1 (char 0)")
  | CacheJson None _ => raise (Exn "KeyError" "'timestamp'")
  | CacheJson (Some cache_time) files =>
      t <- now;;
      if t - cache_time <? 3600 then
        match files with
        | None => raise (Exn "KeyError" "'files'")
        | Some files =>
            logger "INFO" "Using cached file list: {len(cached_data['files']):,} files"
                   [str_of_int (len files)];;
            ret (Some files)
        end
      else ret None
  end.

Definition scan_files_optimized : M (list file_info) :=
  logger "INFO" "Scanning files with optimized parallel processing..." [];;
  st <- get;;
  cached <-
    match file_cache st with
    | Some cached_data => try_except (read_cache cached_data) (fun _ => ret None)
    | None => ret None
    end;;
  match cached with
  | Some files => ret files
  | None =>
      start_time <- now;;
      st <- get;;
      let files := walked st in
      t <- now;;
      let scan_time := t - start_time in
      (if scan_time =? 0 then raise (Exn "ZeroDivisionError" "float division by zero")
       else ret tt);;
      logger "INFO"
             "Scanned {len(files):,} files in {scan_time:.1f}s ({len(files)/scan_time:.0f} files/sec)"
             [str_of_int (len files)];;
      cache_time <- now;;
      st <- get;;
      match file_cache_error st with
      | Some e => raise e
      | None =>
          modify (set_file_cache (Some (CacheJson (Some cache_time) (Some files))));;
          ret files
      end
  end.

Definition send (r : request) : M Z :=
  modify (add_sent r);;
  match onelake r with
  | Reply status _ => ret status
  | NetError e => raise e
  end.

Definition status_in (status : Z) (ok : list Z) : bool :=
  existsb (Z.eqb status) ok.

Definition upload_url (relative_path : string) : string :=
  "https://onelake.dfs.fabric.microsoft.com/" +:+ workspace_id cfg +:+ "/"
    +:+ lakehouse_id cfg +:+ ".Lakehouse" +:+ onelake_base_path cfg +:+ "/" +:+ relative_path.

(** The body of the [try] block of [upload_file_async]. *)
Definition upload_attempt (source_path relative_path : string) : M upload_result :=
  st <- get;;
  match local_files st !! source_path with
  | None =>
      raise (Exn "FileNotFoundError"
                 ("[Errno 2] No such file or directory: '" +:+ source_path +:+ "'"))
  | Some (Unreadable e) => raise e
  | Some (Readable file_data) =>
      let size := Z.of_nat (String.length file_data) in
      status <- send (Request PUT (upload_url relative_path) None "");;
      if negb (status_in status [200; 201]) then
        ret (Failure (Some relative_path) ("Create failed: HTTP " +:+ str_of_int status))
      else
        status <-
          send (Request PATCH (upload_url relative_path +:+ "?action=append&position=0")
                        None file_data);;
        if negb (status_in status [200; 202]) then
          ret (Failure (Some relative_path) ("Append failed: HTTP " +:+ str_of_int status))
        else
          status <-
            send (Request PATCH
                          (upload_url relative_path +:+ "?action=flush&position="
                             +:+ str_of_int size)
                          None "");;
          if status_in status [200; 201] then ret (Success relative_path size)
          else ret (Failure (Some relative_path)
                            ("Flush failed: HTTP " +:+ str_of_int status))
  end.

Definition upload_file_async (file_info : file_info) : M upload_result :=
  match path file_info with
  | None => raise (Exn "KeyError" "'path'")
  | Some source_path =>
      match relative_path file_info with
      | None => raise (Exn "KeyError" "'relative_path'")
      | Some relative_path =>
          try_except (upload_attempt source_path relative_path)
                     (fun e => ret (Failure (Some relative_path) (exn_msg e)))
      end
  end.

Definition migrate_batch_async (file_batch : list file_info) : M (list upload_result) :=
  results <- gather (map upload_file_async file_batch);;
  ret (map (fun result =>
              match result with
              | Exc e => Failure None (exn_msg e)
              | Res r => r
              end) results).

Definition save_progress : M unit :=
  st <- get;;
  match migration_log_error st with
  | Some e => raise e
  | None =>
      modify (set_migration_log
                (Some (TurboFixed.Json
                         (TurboFixed.Progress (completed_files st) (failed_files st)
                                              (migration_stats st)))))
  end.

(** The body of [for result in results]; the pair is
    [(batch_success, batch_failed)]. *)
Definition record_result (counts : Z * Z) (result : upload_result) : M (Z * Z) :=
  let '(batch_success, batch_failed) := counts in
  match result with
  | Success file _ =>
      modify (fun st => set_progress (completed_files st ++ [file]) (failed_files st) st);;
      ret (batch_success + 1, batch_failed)
  | Failure file error =>
      t <- now;;
      modify (fun st =>
                set_progress (completed_files st)
                             (failed_files st ++ [(default "unknown" file, error)]) st);;
      ret (batch_success, batch_failed + 1)
  end.

Fixpoint record_results (counts : Z * Z) (results : list upload_result) : M (Z * Z) :=
  match results with
  | [] => ret counts
  | r :: rs =>
      counts' <- record_result counts r;;
      record_results counts' rs
  end.

(** The body of the [try] block of the batch loop. *)
Definition migrate_batch (batch_idx batch_start_time : Z) (batch : list file_info) : M unit :=
  results <- migrate_batch_async batch;;
  counts <- record_results (0, 0) results;;
  let '(batch_success, batch_failed) := counts in
  add_stat "processed_files" (len batch);;
  add_stat "successful_uploads" batch_success;;
  add_stat "failed_uploads" batch_failed;;
  add_stat "batches_completed" 1;;
  t <- now;;
  let batch_time := t - batch_start_time in
  avg <- stat "avg_upload_speed";;
  set_stat "avg_upload_speed" (average avg batch_idx (len batch) batch_time);;
  processed <- stat "processed_files";;
  total <- stat "total_files";;
  (if total =? 0 then raise (Exn "ZeroDivisionError" "division by zero") else ret tt);;
  logger "INFO"
         "Progress: {pct:.1f}% | Speed: {batch_speed:.1f} files/sec | Success: {batch_success}/{len(batch)}"
         [str_of_int batch_success; str_of_int (len batch)];;
  if batch_idx mod 10 =? 0 then save_progress else ret tt.

(** The body of [for batch_idx, batch in enumerate(batches)]. *)
Definition batch_step (total_batches batch_idx : Z) (batch : list file_info) : M unit :=
  batch_start_time <- now;;
  t <- now;;
  st <- get;;
  (if 1800 <? t - token_refresh_time st then
     tok <- get_fabric_token;;
     t' <- now;;
     modify (set_token tok t')
   else ret tt);;
  logger "INFO" "Processing batch {batch_idx + 1}/{len(batches)} ({len(batch)} files)"
         [str_of_int (batch_idx + 1); str_of_int total_batches; str_of_int (len batch)];;
  try_except (migrate_batch batch_idx batch_start_time batch)
             (fun e => logger "ERROR" "Batch {batch_idx + 1} failed: {e}"
                              [str_of_int (batch_idx + 1); exn_msg e]).

Fixpoint batch_loop (total_batches batch_idx : Z) (batches : list (list file_info)) : M unit :=
  match batches with
  | [] => ret tt
  | batch :: rest =>
      batch_step total_batches batch_idx batch;;
      batch_loop total_batches (batch_idx + 1) rest
  end.

(** [[f for f in files if f["relative_path"] not in processed_files]]. *)
Fixpoint filter_remaining (processed_files : gset string) (files : list file_info)
  : M (list file_info) :=
  match files with
  | [] => ret []
  | f :: rest =>
      match relative_path f with
      | None => raise (Exn "KeyError" "'relative_path'")
      | Some rp =>
          remaining <- filter_remaining processed_files rest;;
          ret (if decide (rp ∈ processed_files) then remaining else f :: remaining)
      end
  end.

(** [[remaining_files[i:i + batch_size] for i in range(0, len(remaining_files), batch_size)]]. *)
Definition make_batches (remaining_files : list file_info) : list (list file_info) :=
  map (fun i => slice remaining_files i (i + batch_size cfg))
      (range_step 0 (len remaining_files) (batch_size cfg)).

(** [self.load_progress() if resume else self.init_progress()]. *)
Definition progress_at_start (resume : bool) (migration_log : option TurboFixed.log_text)
  : TurboFixed.progress :=
  if resume then
    match TurboFixed.load_progress migration_log with
    | Return p => p
    | Raise _ => TurboFixed.init_progress
    end
  else TurboFixed.init_progress.

Definition migrate_files_optimized (resume : bool) : M (gmap string Z) :=
  logger "INFO" "Starting optimized OneLake migration..." [];;
  st <- get;;
  let progress := progress_at_start resume (migration_log st) in
  modify (set_progress (TurboFixed.completed_files progress)
                       (TurboFixed.failed_files progress));;
  files <- scan_files_optimized;;
  let processed_files : gset string := list_to_set (TurboFixed.completed_files progress) in
  remaining_files <- filter_remaining processed_files files;;
  logger "INFO"
         "Migration status: {len(processed_files):,} completed, {len(remaining_files):,} remaining"
         [str_of_int (Z.of_nat (size processed_files)); str_of_int (len remaining_files)];;
  match remaining_files with
  | [] =>
      logger "INFO" "All files already migrated!" [];;
      ret (TurboFixed.stats progress)
  | _ :: _ =>
      (if batch_size cfg =? 0
       then raise (Exn "ValueError" "range() arg 3 must not be zero")
       else ret tt);;
      let batches := make_batches remaining_files in
      tok <- get_fabric_token;;
      t <- now;;
      modify (set_token tok t);;
      (if decide (TurboFixed.stats progress = ∅) then
         start_time <- now;;
         modify (set_stats
                   (<["start_time" := start_time]>
                      (<["total_files" := len files]>
                         (<["processed_files" := Z.of_nat (size processed_files)]>
                            (<["successful_uploads" := Z.of_nat (size processed_files)]>
                               (<["failed_uploads" := 0]>
                                  (<["batches_completed" := 0]>
                                     (<["avg_upload_speed" := 0]> ∅))))))))
       else modify (set_stats (TurboFixed.stats progress)));;
      logger "INFO" "Processing {len(batches)} batches with {self.batch_size} files each"
             [str_of_int (len batches); str_of_int (batch_size cfg)];;
      batch_loop (len batches) 0 batches;;
      end_time <- now;;
      set_stat "end_time" end_time;;
      save_progress;;
      logger "INFO" "Optimized migration completed!" [];;
      successful <- stat "successful_uploads";;
      total <- stat "total_files";;
      logger "INFO"
             "Results: {migration_stats['successful_uploads']:,}/{migration_stats['total_files']:,} files migrated"
             [str_of_int successful; str_of_int total];;
      speed <- stat "avg_upload_speed";;
      logger "INFO" "Average speed: {migration_stats['avg_upload_speed']:.1f} files/sec" [];;
      st <- get;;
      ret (migration_stats st)
  end.

End WithWorld.
End OptimizedOneLakeMigrator.

(** ** [src/sharepoint/dll_pdf_fabric_turbo.py]: the download engine

    The workers of the thread pool take the lock one after the other; the
    order in which they do is the [schedule].  Log templates are given
    without their pictograms. *)
Module SharepointTurbo.
Import Py.
Local Open Scope list_scope.

Record file_info := FileInfo {
  path : string; download_url : string; id : option string }.

(** The dictionary a download returns. *)
Inductive result :=
| Success (file local_path : string) (skipped : bool)
| Failed (file error : string).

(** [results = {"success": [...], "failed": [...]}]. *)
Record results := Results { success : list result; failed : list result }.

(** [download_progress_turbo.json] seen through [json.load]: a dictionary
    with optional keys, or text on which the decoder raises. *)
Inductive progress_text :=
| Json (last_processed_index : option Z) (saved : option results)
| Garbled (raw : string).

(** The download directory and the log. *)
Record world := World {
  progress_file : option progress_text;    (* download_progress_turbo.json *)
  plain_progress_file : bool;              (* download_progress.json is there *)
  file_list_cache : bool;                  (* file_list_cache.json is there *)
  downloaded : gmap string string;         (* the files below the directory *)
  log : list Runtime.log_record }.

(** What [session.get] followed by [raise_for_status] amounts to. *)
Inductive response :=
| Ok (content : string)
| HTTPError (status_code : Z) (msg : string)
| OtherError (msg : string).

(** The item the Graph API answers with, or the failure of the request. *)
Inductive graph_reply :=
| Item (downloadUrl : option string)
| GraphError (msg : string).

Definition logger (lvl template : string) (fields : list string) (w : world) : world :=
  World (progress_file w) (plain_progress_file w) (file_list_cache w) (downloaded w)
        (log w ++ [Runtime.Log lvl template fields]).

Definition set_progress_file (o : option progress_text) (w : world) : world :=
  World o (plain_progress_file w) (file_list_cache w) (downloaded w) (log w).

Definition write_file (path content : string) (w : world) : world :=
  World (progress_file w) (plain_progress_file w) (file_list_cache w)
        (<[path := content]> (downloaded w)) (log w).


Section WithRemote.
Variable http_get : string -> response.
Variable graph_item : string -> string -> graph_reply.
Variable get_graph_token : Runtime.outcome string.
Variable schedule : list (Z * file_info) -> list (Z * file_info).
Variable local_download_path : string.

Definition get_fresh_download_url (drive_id file_id : string) (w : world)
  : option string * world :=
  match graph_item drive_id file_id with
  | Item u => (u, w)
  | GraphError msg =>
      (None, logger "WARNING" "Failed to get fresh download URL: {e}" [msg] w)
  end.

(** The [for attempt in range(max_retries)] loop of
    [download_file_safely_turbo]. *)
Fixpoint download_attempts (attempts : list Z) (max_retries : Z)
         (file_info : file_info) (drive_id : option string)
         (download_url : string) (w : world) : result * world :=
  let file_path := path file_info in
  let local_file_path := local_download_path +:+ "/" +:+ file_path in
  match attempts with
  | [] => (Failed file_path "Max retries exceeded", w)
  | attempt :: rest =>
      let w := logger "INFO" "Downloading: {file_path} (attempt {attempt + 1})"
                      [file_path; str_of_int (attempt + 1)] w in
      let give_up_or_retry (msg : string) (w : world) :=
        let w := logger "WARNING" "Attempt {attempt + 1} failed for {file_path}: {e}"
                        [str_of_int (attempt + 1); file_path; msg] w in
        if attempt =? max_retries - 1 then (Failed file_path msg, w)
        else download_attempts rest max_retries file_info drive_id download_url w in
      match http_get download_url with
      | Ok content =>
          let w := write_file file_path content w in
          let w := logger "INFO" "Downloaded: {file_path}" [file_path] w in
          (Success file_path local_file_path false, w)
      | HTTPError status_code msg =>
          if (status_code =? 401) && truthy drive_id && truthy (id file_info)
             && (attempt <? max_retries - 1)
          then
            let w := logger "WARNING"
                            "401 error for {file_path}, attempting to get fresh download URL..."
                            [file_path] w in
            let '(fresh_url, w) :=
              get_fresh_download_url (default "" drive_id) (default "" (id file_info)) w in
            if truthy fresh_url then
              let w := logger "INFO" "Got fresh download URL, retrying..." [] w in
              download_attempts rest max_retries file_info drive_id (default "" fresh_url) w
            else give_up_or_retry msg w
          else give_up_or_retry msg w
      | OtherError msg => give_up_or_retry msg w
      end
  end.

Definition download_file_safely_turbo (file_info : file_info) (drive_id : option string)
           (max_retries : Z) (w : world) : result * world :=
  let file_path := path file_info in
  let local_file_path := local_download_path +:+ "/" +:+ file_path in
  if decide (file_path ∈ dom (downloaded w)) then
    (Success file_path local_file_path true, w)
  else
    download_attempts (range 0 max_retries) max_retries file_info drive_id
                      (download_url file_info) w.

(** What the workers share under the lock. *)
Record tally := Tally {
  t_results : results; completed_count : Z; total_processed : Z }.

Definition is_failed_401 (r : result) : bool :=
  match r with
  | Failed _ error => str_in "401" error
  | Success _ _ _ => false
  end.

(** [download_worker((index, file_info))]. *)
Definition download_worker (total_files : Z) (drive_id : option string)
           (file_data : Z * file_info) (tw : tally * world) : tally * world :=
  let '(index, file_info) := file_data in
  let '(t, w) := tw in
  let '(result, w) := download_file_safely_turbo file_info drive_id 2 w in
  (* a 401 error: refresh the token and try once more *)
  let '(result, w) :=
    if is_failed_401 result then
      match get_graph_token with
      | Runtime.Return new_token => download_file_safely_turbo file_info drive_id 1 w
      | Runtime.Raise e =>
          (result, logger "WARNING" "Token refresh failed for {file_info['path']}: {e}"
                          [path file_info; Runtime.exn_msg e] w)
      end
    else (result, w) in
  (* with progress_lock *)
  let total_processed := total_processed t + 1 in
  let '(results, completed_count) :=
    match result with
    | Success _ _ skipped =>
        (Results (success (t_results t) ++ [result]) (failed (t_results t)),
         if skipped then completed_count t else completed_count t + 1)
    | Failed _ _ =>
        (Results (success (t_results t)) (failed (t_results t) ++ [result]),
         completed_count t)
    end in
  let w :=
    if total_processed mod 50 =? 0 then
      logger "INFO"
             "TURBO Progress: {total_processed}/{total_files} ({progress_pct:.1f}%) - {completed_count} new downloads"
             [str_of_int total_processed; str_of_int total_files; str_of_int completed_count] w
    else w in
  let w :=
    if total_processed mod 1000 =? 0 then
      let w := set_progress_file (Some (Json (Some index) (Some results))) w in
      logger "INFO" "Progress saved at {total_processed} files" [str_of_int total_processed] w
    else w in
  (Tally results completed_count total_processed, w).

(** The filter of the files already downloaded; [i] is the index of the
    first element of [files] in the file list. *)
Fixpoint filter_remaining (i : Z) (files : list file_info) (w : world)
  : list (Z * file_info) * list result :=
  match files with
  | [] => ([], [])
  | file_info :: rest =>
      let '(remaining_files, skipped) := filter_remaining (i + 1) rest w in
      if decide (path file_info ∈ dom (downloaded w)) then
        (remaining_files,
         Success (path file_info) (local_download_path +:+ "/" +:+ path file_info) true
           :: skipped)
      else ((i, file_info) :: remaining_files, skipped)
  end.

Definition is_new_download (r : result) : bool :=
  match r with
  | Success _ _ skipped => negb skipped
  | Failed _ _ => true
  end.

Definition download_all_files_turbo (file_list : list file_info)
           (drive_id : option string) (max_workers : Z) (w : world) : results * world :=
  let total_files := len file_list in
  (* Load previous progress *)
  let '(results, start_index, w) :=
    match progress_file w with
    | Some (Json last saved) =>
        let results := default (Results [] []) saved in
        let start_index := default 0 last + 1 in
        let w := logger "INFO" "TURBO: Resuming from file {start_index}/{total_files}"
                        [str_of_int start_index; str_of_int total_files] w in
        let w := logger "INFO"
                        "Previous progress: {len(results['success'])} successful, {len(results['failed'])} failed"
                        [str_of_int (len (success results)); str_of_int (len (failed results))] w in
        (results, start_index, w)
    | Some (Garbled raw) =>
        (Results [] [], 0,
         logger "WARNING" "Could not load progress file: {e}. Starting fresh." [raw] w)
    | None => (Results [] [], 0, w)
    end in
  (* Filter out already downloaded files *)
  let '(remaining_files, skipped) :=
    filter_remaining start_index (slice file_list start_index (len file_list)) w in
  let results := Results (success results ++ skipped) (failed results) in
  let skipped_count := len skipped in
  let w := logger "INFO"
                  "TURBO MODE: Starting parallel download of {len(remaining_files)} files using {max_workers} workers"
                  [str_of_int (len remaining_files); str_of_int max_workers] w in
  let w := if 0 <? skipped_count
           then logger "INFO" "Skipped {skipped_count} already downloaded files"
                       [str_of_int skipped_count] w
           else w in
  let completed_count := len (List.filter is_new_download (success results)) in
  let total_processed := len (success results) in
  (* Execute parallel downloads *)
  let '(t, w) :=
    fold_left (fun tw file_data => download_worker total_files drive_id file_data tw)
              (schedule remaining_files)
              (Tally results completed_count total_processed, w) in
  let results := t_results t in
  let w := logger "INFO" "TURBO Complete! Average speed: {avg_speed:.1f} files/sec" [] w in
  (* Clean up progress file on completion *)
  let w :=
    if bool_decide (is_Some (progress_file w)) && (len (failed results) =? 0) then
      logger "INFO" "Progress file cleaned up" [] (set_progress_file None w)
    else w in
  (results, w).

End WithRemote.
End SharepointTurbo.

(** * Properties *)

Import Py Runtime.

(** ** Python primitives *)

Example py_strings_ex :
  quote (strip (Ascii.eqb "/") (replace_char "\" "/" "\a b\c.pdf/")) = "a%20b/c.pdf"
  /\ str_of_int 404 = "404"
  /\ after_first "=" "ACCESS_TOKEN=ab=c" = Some "ab=c".
Proof. repeat split; reflexivity. Qed.

Example py_lists_ex :
  range 2 5 = [2; 3; 4]
  /\ slice [1; 2; 3; 4; 5] 2 4 = [3; 4]
  /\ slice [1; 2; 3; 4; 5] (-2) 0 = []
  /\ range_step 0 5 2 = [0; 2; 4]
  /\ range_step 0 0 (-2) = []
  /\ range_step 0 5 (-2) = [].
Proof. repeat split; reflexivity. Qed.

(** ** The error classifier *)

(** The closed set of kinds of [log_analyzer.classify_error]. *)
Definition error_kinds : list string :=
  ["Authentication"; "File Not Found"; "Timeout"; "Connection";
   "Rate Limit"; "Server Error"; "Other"].


Example classify_ex1 :
  LogAnalyzer.classify_error "HTTP 401 after timeout" = "Authentication".
Proof. reflexivity. Qed.

Example classify_ex2 :
  LogAnalyzer.classify_error "Read TIMEOUT on Connection" = "Timeout".
Proof. reflexivity. Qed.

Example classify_ex3 :
  LogAnalyzer.classify_error "HTTP 429 and 503" = "Rate Limit"
  /\ LogAnalyzer.classify_error "disk full" = "Other".
Proof. split; reflexivity. Qed.




(** The dashboard's classifier keeps the same relative order but has one more
    kind, "Permission", tried between connection and rate-limit. *)
Lemma dashboard_classify_error_401_timeout (e : string) :
  str_in "401" e = true -> DashboardMonitor.classify_error e = "Authentication".
Proof.
  intros H. unfold DashboardMonitor.classify_error. rewrite H. reflexivity.
Qed.

Lemma dashboard_classify_error_permission :
  DashboardMonitor.classify_error "Access denied" = "Permission"
  /\ LogAnalyzer.classify_error "Access denied" = "Other".
Proof. split; reflexivity. Qed.

(** ** Reasoning about computations that return *)

(** [returns m st Q]: run from [st], the computation [m] raises nothing, and
    its value and final state satisfy [Q]. *)
Definition returns {A} (m : M A) (st : state) (Q : A -> state -> Prop) : Prop :=
  exists a st', m st = (Return a, st') /\ Q a st'.

Lemma returns_ret {A} (a : A) st (Q : A -> state -> Prop) :
  Q a st -> returns (ret a) st Q.
Proof. intros H. exists a, st. split; [reflexivity | exact H]. Qed.

Lemma returns_bind {A B} (m : M A) (k : A -> M B) st (Q : B -> state -> Prop) :
  returns m st (fun a st1 => returns (k a) st1 Q) -> returns (bind m k) st Q.
Proof.
  intros (a & st1 & Hm & b & st2 & Hk & HQ).
  exists b, st2. split; [| exact HQ].
  unfold bind. rewrite Hm. exact Hk.
Qed.

Lemma returns_weaken {A} (m : M A) st (Q Q' : A -> state -> Prop) :
  returns m st Q -> (forall a st', Q a st' -> Q' a st') -> returns m st Q'.
Proof. intros (a & st' & Hm & HQ) H. exists a, st'. auto. Qed.

Lemma returns_get st (Q : state -> state -> Prop) :
  Q st st -> returns get st Q.
Proof. intros H. exists st, st. split; [reflexivity | exact H]. Qed.

Lemma returns_modify f st (Q : unit -> state -> Prop) :
  Q tt (f st) -> returns (modify f) st Q.
Proof. intros H. exists tt, (f st). split; [reflexivity | exact H]. Qed.

Lemma returns_logger lvl tpl fs st (Q : unit -> state -> Prop) :
  Q tt (add_log (Log lvl tpl fs) st) -> returns (logger lvl tpl fs) st Q.
Proof. apply returns_modify. Qed.

Lemma returns_now clk st (Q : Z -> state -> Prop) :
  Q (clk (ticks st)) (tick st) -> returns (now clk) st Q.
Proof. intros H. eexists _, _. split; [reflexivity | exact H]. Qed.

Lemma returns_for_each {A} (I : list A -> state -> Prop) (l : list A)
      (body : A -> M unit) st :
  I l st ->
  (forall x rest st1, I (x :: rest) st1 -> returns (body x) st1 (fun _ st2 => I rest st2)) ->
  returns (for_each l body) st (fun _ st' => I [] st').
Proof.
  intros HI Hbody. revert st HI.
  induction l as [| x l IH]; intros st HI.
  - apply returns_ret. exact HI.
  - cbn [for_each]. apply returns_bind.
    eapply returns_weaken; [apply Hbody; exact HI |].
    intros u st1 H1. apply IH. exact H1.
Qed.

Lemma returns_inv {A} (m : M A) st (Q : A -> state -> Prop) a st' :
  returns m st Q -> m st = (Return a, st') -> Q a st'.
Proof. intros (a0 & st0 & Hm & HQ) E. rewrite E in Hm. inversion Hm; subst. exact HQ. Qed.

Ltac step :=
  unfold logger_info, logger_error, logger_warning; cbv beta;
  first
    [ lazymatch goal with
      | |- returns (bind _ _) _ _ => apply returns_bind
      | |- returns (ret _) _ _ => apply returns_ret
      | |- returns get _ _ => apply returns_get
      | |- returns (logger _ _ _) _ _ => apply returns_logger
      | |- returns (modify _) _ _ => apply returns_modify
      | |- returns (now _) _ _ => apply returns_now
      end
    | apply returns_bind
    | apply returns_ret
    | apply returns_get
    | apply returns_modify
    | apply returns_logger
    | apply returns_now ].

(** ** Computations that only talk to the outside *)

(** The state [st] after sending [reqs] and logging [logs]. *)
Definition extend (st : state) (reqs : list request) (logs : list log_record) : state :=
  State (st_progress st) (access_token st) (st_disk st) (disk_ops st)
        (sent st ++ reqs) (log st ++ logs) (ticks st).

Lemma extend_nil st : extend st [] [] = st.
Proof. destruct st. unfold extend. cbn. rewrite !app_nil_r. reflexivity. Qed.

Lemma extend_extend st r1 l1 r2 l2 :
  extend (extend st r1 l1) r2 l2 = extend st (r1 ++ r2) (l1 ++ l2).
Proof. unfold extend. cbn. rewrite !app_assoc. reflexivity. Qed.

(** [m] reads nothing of the state and only sends requests and writes log
    records: it amounts to an outcome and the two lists. *)
Definition talks {A} (m : M A) (o : outcome A) (reqs : list request)
           (logs : list log_record) : Prop :=
  forall st, m st = (o, extend st reqs logs).

Lemma talks_ret {A} (a : A) : talks (ret a) (Return a) [] [].
Proof. intros st. rewrite extend_nil. reflexivity. Qed.

Lemma talks_raise {A} e : talks (@raise A e) (Raise e) [] [].
Proof. intros st. rewrite extend_nil. reflexivity. Qed.

Lemma talks_logger lvl tpl fs : talks (logger lvl tpl fs) (Return tt) [] [Log lvl tpl fs].
Proof.
  intros st. unfold logger, modify, add_log, extend. rewrite app_nil_r. reflexivity.
Qed.

Lemma talks_send onelake r :
  talks (Production.send onelake r)
        (match onelake r with Reply s t => Return (s, t) | NetError e => Raise e end)
        [r] [].
Proof.
  intros st. unfold Production.send, bind, modify.
  destruct (onelake r); unfold ret, raise, add_sent, extend; cbn; rewrite app_nil_r; reflexivity.
Qed.

Lemma talks_bind_return {A B} (m : M A) (k : A -> M B) a r1 l1 o r2 l2 :
  talks m (Return a) r1 l1 -> talks (k a) o r2 l2 ->
  talks (bind m k) o (r1 ++ r2) (l1 ++ l2).
Proof.
  intros Hm Hk st. unfold bind. rewrite Hm, Hk, extend_extend. reflexivity.
Qed.

Lemma talks_bind_raise {A B} (m : M A) (k : A -> M B) e r1 l1 :
  talks m (Raise e) r1 l1 -> talks (bind m k) (Raise e) r1 l1.
Proof. intros Hm st. unfold bind. rewrite Hm. reflexivity. Qed.

Lemma talks_try_return {A} (m : M A) h a r1 l1 :
  talks m (Return a) r1 l1 -> talks (try_except m h) (Return a) r1 l1.
Proof. intros Hm st. unfold try_except. rewrite Hm. reflexivity. Qed.

Lemma talks_try_raise {A} (m : M A) h e r1 l1 o r2 l2 :
  talks m (Raise e) r1 l1 -> talks (h e) o r2 l2 ->
  talks (try_except m h) o (r1 ++ r2) (l1 ++ l2).
Proof.
  intros Hm Hh st. unfold try_except. rewrite Hm, Hh, extend_extend. reflexivity.
Qed.

(** Every computation built from these pieces talks. *)
Definition talkative {A} (m : M A) : Prop := exists o reqs logs, talks m o reqs logs.

Lemma talkative_ret {A} (a : A) : talkative (ret a).
Proof. eexists _, _, _. apply talks_ret. Qed.
Lemma talkative_raise {A} e : talkative (@raise A e).
Proof. eexists _, _, _. apply talks_raise. Qed.
Lemma talkative_logger lvl tpl fs : talkative (logger lvl tpl fs).
Proof. eexists _, _, _. apply talks_logger. Qed.
Lemma talkative_send onelake r : talkative (Production.send onelake r).
Proof. eexists _, _, _. apply talks_send. Qed.
Lemma talkative_bind {A B} (m : M A) (k : A -> M B) :
  talkative m -> (forall a, talkative (k a)) -> talkative (bind m k).
Proof.
  intros (o & r1 & l1 & Hm) Hk. destruct o as [a | e].
  - destruct (Hk a) as (o2 & r2 & l2 & H2).
    eexists _, _, _. eapply talks_bind_return; eassumption.
  - eexists _, _, _. eapply talks_bind_raise; eassumption.
Qed.
Lemma talkative_try {A} (m : M A) h :
  talkative m -> (forall e, talkative (h e)) -> talkative (try_except m h).
Proof.
  intros (o & r1 & l1 & Hm) Hh. destruct o as [a | e].
  - eexists _, _, _. eapply talks_try_return; eassumption.
  - destruct (Hh e) as (o2 & r2 & l2 & H2).
    eexists _, _, _. eapply talks_try_raise; eassumption.
Qed.

Ltac talk :=
  repeat first
    [ apply talkative_ret | apply talkative_raise | apply talkative_logger
    | apply talkative_send
    | apply talkative_bind; [| intros ?]
    | apply talkative_try; [| intros ?]
    | match goal with
      | |- talkative (let '(_, _) := ?x in _) => destruct x
      | |- talkative (if ?b then _ else _) => destruct b
      | |- talkative (match ?x with _ => _ end) => destruct x
      end ].

Lemma upload_attempt_talkative cfg onelake found lp rp :
  talkative (Production.upload_attempt cfg onelake found lp rp).
Proof.
  unfold Production.upload_attempt, logger_info. talk. 
Qed.

(** A state with nothing in it, to read off what a computation says. *)
Definition blank : state :=
  boot Production.new_progress (Disk None None None None ∅).

Definition trace_of {A} (m : M A) : outcome A * list request * list log_record :=
  let '(o, st) := m blank in (o, sent st, log st).

Lemma talks_trace_of {A} (m : M A) o reqs logs :
  talks m o reqs logs -> trace_of m = (o, reqs, logs).
Proof. intros H. unfold trace_of. rewrite H. reflexivity. Qed.

Lemma talkative_run {A} (m : M A) st :
  talkative m ->
  m st = (fst (fst (trace_of m)),
          extend st (snd (fst (trace_of m))) (snd (trace_of m))).
Proof.
  intros (o & reqs & logs & H). rewrite (talks_trace_of _ _ _ _ H). apply H.
Qed.

Lemma bind_returns_inv {A B} (m : M A) (k : A -> M B) st b st' :
  bind m k st = (Return b, st') ->
  exists a st1, m st = (Return a, st1) /\ k a st1 = (Return b, st').
Proof.
  unfold bind. destruct (m st) as [[a | e] st1]; [eauto | discriminate].
Qed.

Section Upload.
Variable cfg : config.
Variable onelake : request -> reply.

(** What the attempt to upload the file found at [local_path] amounts to:
    the result dictionary, the requests sent and the log records. *)
Definition transfer (found : option source_file) (local_path relative_path : string)
  : outcome Production.upload_result * list request * list log_record :=
  trace_of (try_except
              (Production.upload_attempt cfg onelake found local_path relative_path)
              (Production.upload_failed relative_path)).

Lemma upload_failed_talks rp e :
  talks (Production.upload_failed rp e)
        (Return (Production.Failure (Some rp) (exn_msg e))) []
        [Log "ERROR" "FAILED: Upload failed: {relative_path} - {str(e)}" [rp; exn_msg e]].
Proof.
  intros st. unfold Production.upload_failed, logger_error, logger, bind, modify, ret,
    add_log, extend. cbn. rewrite app_nil_r. reflexivity.
Qed.

Lemma guarded_attempt_talkative found lp rp :
  talkative (try_except (Production.upload_attempt cfg onelake found lp rp)
                        (Production.upload_failed rp)).
Proof.
  apply talkative_try.
  - unfold Production.upload_attempt, logger_info. talk.
  - intros e. eexists _, _, _. apply upload_failed_talks.
Qed.

(** The attempt never lets an exception out, and what it returns is about
    the item's own key: a fresh success or a failure. *)
Lemma upload_attempt_returns found lp rp st r st' :
  Production.upload_attempt cfg onelake found lp rp st = (Return r, st') ->
  (exists size, r = Production.Success rp size false)
  \/ (exists msg, r = Production.Failure (Some rp) msg).
Proof.
  unfold Production.upload_attempt.
  destruct found as [[content | e] |].
  - intros H. left. exists (Z.of_nat (String.length content)).
    apply bind_returns_inv in H as ([status text] & s1 & _ & H).
    apply bind_returns_inv in H as (? & s2 & _ & H).
    apply bind_returns_inv in H as (? & s3 & _ & H).
    apply bind_returns_inv in H as (? & s4 & _ & H).
    inversion H. reflexivity.
  - intros H. discriminate.
  - intros H. right. inversion H. eauto.
Qed.

Lemma transfer_outcome found lp rp :
  exists r, fst (fst (transfer found lp rp)) = Return r
    /\ ((exists size, r = Production.Success rp size false)
        \/ (exists msg, r = Production.Failure (Some rp) msg)).
Proof.
  unfold transfer, trace_of, try_except.
  destruct (Production.upload_attempt cfg onelake found lp rp blank) as [[r | e] st'] eqn:E.
  - exists r. split; [reflexivity |]. eapply upload_attempt_returns. exact E.
  - rewrite upload_failed_talks. eexists. split; [reflexivity |]. right. eauto.
Qed.

(** [upload_file_async], case by case. *)
Lemma upload_file_async_not_a_dict ty st :
  Production.upload_file_async cfg onelake (NotADict ty) st
  = (Raise (Exn "AttributeError" ("'" +:+ ty +:+ "' object has no attribute 'get'")), st).
Proof. reflexivity. Qed.

Lemma upload_file_async_missing fi st :
  truthy (path fi) && truthy (relative_path fi) = false ->
  Production.upload_file_async cfg onelake (Dict fi) st
  = (Return (Production.Failure (relative_path fi) "Missing path information"), st).
Proof.
  intros H. unfold Production.upload_file_async.
  destruct (truthy (path fi)), (truthy (relative_path fi)); try discriminate; reflexivity.
Qed.

Lemma upload_file_async_skip fi st :
  truthy (path fi) && truthy (relative_path fi) = true ->
  default "" (relative_path fi) ∈ dom (completed_files (st_progress st)) ->
  Production.upload_file_async cfg onelake (Dict fi) st
  = (Return (Production.Success (default "" (relative_path fi))
                                (default 0 (size_bytes fi)) true), st).
Proof.
  intros H Hin. unfold Production.upload_file_async.
  destruct (truthy (path fi)), (truthy (relative_path fi)); try discriminate.
  cbn [negb orb]. unfold bind, get.
  destruct (decide _) as [_ | n]; [reflexivity | contradiction].
Qed.

Lemma upload_file_async_attempt fi st :
  truthy (path fi) && truthy (relative_path fi) = true ->
  default "" (relative_path fi) ∉ dom (completed_files (st_progress st)) ->
  Production.upload_file_async cfg onelake (Dict fi) st
  = let t := transfer (sources (st_disk st) !! default "" (path fi))
                      (default "" (path fi)) (default "" (relative_path fi)) in
    (fst (fst t), extend st (snd (fst t)) (snd t)).
Proof.
  intros H Hin. unfold Production.upload_file_async.
  destruct (truthy (path fi)), (truthy (relative_path fi)); try discriminate.
  cbn [negb orb]. unfold bind at 1. unfold get.
  destruct (decide _) as [i | _]; [contradiction |].
  cbv zeta. apply talkative_run, guarded_attempt_talkative.
Qed.
End Upload.

(** ** One batch: what the tasks hand back *)

Section Tasks.
Variable cfg : config.
Variable onelake : request -> reply.

(** What the task for entry [e] contributes to the result list of
    [gather], given the keys already completed and the source files. *)
Definition outcome_for (done : gset string) (srcs : gmap string source_file)
           (e : cache_entry) : gathered Production.upload_result :=
  match e with
  | NotADict ty =>
      Exc (Exn "AttributeError" ("'" +:+ ty +:+ "' object has no attribute 'get'"))
  | Dict fi =>
      if truthy (path fi) && truthy (relative_path fi) then
        if decide (default "" (relative_path fi) ∈ done) then
          Res (Production.Success (default "" (relative_path fi))
                                  (default 0 (size_bytes fi)) true)
        else
          match fst (fst (transfer cfg onelake (srcs !! default "" (path fi))
                                   (default "" (path fi))
                                   (default "" (relative_path fi)))) with
          | Return r => Res r
          | Raise x => Exc x
          end
      else Res (Production.Failure (relative_path fi) "Missing path information")
  end.

Lemma upload_file_async_outcome e st :
  exists reqs logs,
    Production.upload_file_async cfg onelake e st
    = (match outcome_for (dom (completed_files (st_progress st)))
                         (sources (st_disk st)) e with
       | Res r => Return r
       | Exc x => Raise x
       end,
       extend st reqs logs).
Proof.
  destruct e as [fi | ty]; cbn [outcome_for].
  - destruct (truthy (path fi) && truthy (relative_path fi)) eqn:T.
    + destruct (decide _) as [Hin | Hout].
      * exists [], []. rewrite extend_nil. apply upload_file_async_skip; assumption.
      * eexists _, _. rewrite upload_file_async_attempt by assumption. cbv zeta.
        destruct (transfer_outcome cfg onelake
                    (sources (st_disk st) !! default "" (path fi))
                    (default "" (path fi)) (default "" (relative_path fi)))
          as (r & Hr & _).
        rewrite Hr. reflexivity.
    + exists [], []. rewrite extend_nil. apply upload_file_async_missing. exact T.
  - exists [], []. rewrite extend_nil. reflexivity.
Qed.

Lemma upload_batch_outcome batch st :
  exists reqs logs,
    Production.upload_batch cfg onelake batch st
    = (Return (map (outcome_for (dom (completed_files (st_progress st)))
                                (sources (st_disk st))) batch),
       extend st reqs logs).
Proof.
  unfold Production.upload_batch. revert st.
  induction batch as [| e batch IH]; intros st.
  - exists [], []. rewrite extend_nil. reflexivity.
  - cbn [map gather].
    destruct (upload_file_async_outcome e st) as (r1 & l1 & H1). rewrite H1.
    destruct (IH (extend st r1 l1)) as (r2 & l2 & H2). rewrite H2.
    exists (r1 ++ r2)%list, (l1 ++ l2)%list. rewrite extend_extend. cbn [extend st_progress st_disk].
    f_equal. f_equal. f_equal.
    destruct (outcome_for _ _ e); reflexivity.
Qed.
End Tasks.

(** ** One batch: how the results are recorded *)

(** What a result adds to the progress dictionary. *)
Definition uploaded_key (r : gathered Production.upload_result) : option string :=
  match r with
  | Res (Production.Success p _ false) => Some p
  | _ => None
  end.

Definition is_skip (r : gathered Production.upload_result) : bool :=
  match r with
  | Res (Production.Success _ _ true) => true
  | _ => false
  end.

Definition failure_of (r : gathered Production.upload_result) : option (option string * string) :=
  match r with
  | Res (Production.Failure p e) => Some (p, e)
  | _ => None
  end.

Definition is_exc (r : gathered Production.upload_result) : bool :=
  match r with
  | Exc _ => true
  | _ => false
  end.

Definition failed_pairs (p : progress) : list (option string * string) :=
  map (fun f => (f_path f, f_error f)) (failed_files_list p).

(** [tallied rs p p']: the progress dictionary [p'] is [p] with the results
    [rs] recorded (time stamps and batch numbers apart). *)
Record tallied (rs : list (gathered Production.upload_result)) (p p' : progress) : Prop := {
  tallied_dom :
    dom (completed_files p') = dom (completed_files p) ∪ list_to_set (omap uploaded_key rs);
  tallied_skipped :
    skipped_files p' = skipped_files p + len (List.filter is_skip rs);
  tallied_failed_list :
    failed_pairs p' = (failed_pairs p ++ omap failure_of rs)%list;
  tallied_failed :
    failed_files p' = failed_files p + len (omap failure_of rs)
                      + len (List.filter is_exc rs);
  tallied_uploaded :
    uploaded_files p' = uploaded_files p + len (omap uploaded_key rs);
  tallied_total : total_files p' = total_files p }.

Lemma tallied_nil p : tallied [] p p.
Proof.
  split; cbn; unfold len; cbn; try lia.
  - set_solver.
  - rewrite app_nil_r. reflexivity.
Qed.

Lemma tallied_app rs1 rs2 p p1 p2 :
  tallied rs1 p p1 -> tallied rs2 p1 p2 -> tallied (rs1 ++ rs2) p p2.
Proof.
  intros [d1 s1 l1 f1 u1 t1] [d2 s2 l2 f2 u2 t2].
  split.
  - rewrite d2, d1, omap_app, list_to_set_app_L. set_solver.
  - rewrite s2, s1, List.filter_app. unfold len. rewrite length_app. lia.
  - rewrite l2, l1, omap_app, app_assoc. reflexivity.
  - rewrite f2, f1, omap_app, List.filter_app. unfold len. rewrite !length_app. lia.
  - rewrite u2, u1, omap_app. unfold len. rewrite length_app. lia.
  - congruence.
Qed.

Lemma tallied_cons r rs p p1 p2 :
  tallied [r] p p1 -> tallied rs p1 p2 -> tallied (r :: rs) p p2.
Proof. apply (tallied_app [r] rs). Qed.

(** The fields [tallied] does not look at may change freely. *)
Lemma tallied_ext rs p p' q q' :
  tallied rs p p' ->
  completed_files q = completed_files p -> skipped_files q = skipped_files p ->
  failed_files_list q = failed_files_list p -> failed_files q = failed_files p ->
  uploaded_files q = uploaded_files p -> total_files q = total_files p ->
  completed_files q' = completed_files p' -> skipped_files q' = skipped_files p' ->
  failed_files_list q' = failed_files_list p' -> failed_files q' = failed_files p' ->
  uploaded_files q' = uploaded_files p' -> total_files q' = total_files p' ->
  tallied rs q q'.
Proof.
  intros [d s l f u t] E1 E2 E3 E4 E5 E6 E1' E2' E3' E4' E5' E6'.
  unfold failed_pairs in *.
  split; unfold failed_pairs; rewrite ?E1, ?E2, ?E3, ?E4, ?E5, ?E6, ?E1', ?E2', ?E3', ?E4', ?E5', ?E6';
    assumption.
Qed.

Section Recording.
Variable time_time : nat -> Z.

(** The frame of the result loop: nothing but the progress dictionary, the
    clock and the log moves. *)
Definition recorded (rs : list (gathered Production.upload_result)) (st st' : state) : Prop :=
  tallied rs (st_progress st) (st_progress st')
  /\ st_disk st' = st_disk st /\ disk_ops st' = disk_ops st
  /\ sent st' = sent st /\ access_token st' = access_token st.

Lemma process_result_recorded bn counts r st :
  returns (Production.process_result time_time bn counts r) st
          (fun _ st' => recorded [r] st st').
Proof.
  unfold Production.process_result. destruct counts as [[bs bf] bk].
  destruct r as [[p size [|] | p e] | e].
  - repeat step. repeat split; cbn; unfold len; cbn; try lia; try set_solver.
    unfold failed_pairs. cbn. rewrite app_nil_r. reflexivity.
  - repeat step. repeat split; cbn; unfold len; cbn; try lia.
    + rewrite dom_insert_L. set_solver.
    + unfold failed_pairs. cbn. rewrite app_nil_r. reflexivity.
  - repeat step. repeat split; cbn; unfold len; cbn; try lia; try set_solver.
    unfold failed_pairs. cbn. rewrite map_app. reflexivity.
  - repeat step. repeat split; cbn; unfold len; cbn; try lia; try set_solver.
    unfold failed_pairs. cbn. rewrite app_nil_r. reflexivity.
Qed.

Lemma recorded_cons r rs st st1 st2 :
  recorded [r] st st1 -> recorded rs st1 st2 -> recorded (r :: rs) st st2.
Proof.
  intros (T1 & D1 & O1 & S1 & A1) (T2 & D2 & O2 & S2 & A2).
  repeat split; try congruence.
  all: try (eapply tallied_cons; eassumption).
Qed.

Lemma process_results_recorded bn rs counts st :
  returns (Production.process_results time_time bn counts rs) st
          (fun _ st' => recorded rs st st').
Proof.
  revert counts st. induction rs as [| r rs IH]; intros counts st.
  - cbn. step. split; [apply tallied_nil | repeat split].
  - cbn [Production.process_results]. step.
    eapply returns_weaken; [apply process_result_recorded |].
    intros c1 st1 H1. eapply returns_weaken; [apply IH |].
    intros c2 st2 H2. exact (recorded_cons _ _ _ _ _ H1 H2).
Qed.
End Recording.

(** ** One batch: the checkpoint *)

Ltac simpl_state :=
  cbn [st_progress st_disk disk_ops access_token sent log ticks
       add_log add_sent with_progress with_token do_op tick extend].
Tactic Notation "simpl_state" "in" hyp(H) :=
  cbn [st_progress st_disk disk_ops access_token sent log ticks
       add_log add_sent with_progress with_token do_op tick extend] in H.

Section Batches.
Variable cfg : config.
Variable onelake : request -> reply.
Variable time_time : nat -> Z.

(** [saved st st']: [st'] is [st] after a successful [save_progress]. *)
Definition saved (st st' : state) : Prop :=
  (exists t, st_progress st' = set_last_update (Some t) (st_progress st))
  /\ st_disk st' = set_progress_file (Some (Json (st_progress st'))) (st_disk st)
  /\ disk_ops st' = (disk_ops st ++ [Truncate; Dump (st_progress st')])%list
  /\ sent st' = sent st /\ access_token st' = access_token st.

Lemma save_progress_returns st :
  progress_write_error (st_disk st) = None ->
  returns (Production.save_progress time_time) st (fun _ st' => saved st st').
Proof.
  intros W. unfold Production.save_progress.
  step. step. step. step. step. step.
  cbn [st_disk with_progress tick]. rewrite W.
  step. step. step.
  unfold saved. cbn. rewrite <- app_assoc.
  repeat split; eauto.
Qed.

Lemma upload_batch_returns batch st :
  returns (Production.upload_batch cfg onelake batch) st
          (fun rs st' =>
             rs = map (outcome_for cfg onelake (dom (completed_files (st_progress st)))
                                   (sources (st_disk st))) batch
             /\ exists reqs logs, st' = extend st reqs logs).
Proof.
  destruct (upload_batch_outcome cfg onelake batch st) as (reqs & logs & H).
  eexists _, _. split; [exact H |]. split; [reflexivity | eauto].
Qed.

(** [batch_done files bn st st']: [st'] is [st] after the loop body of
    [migrate_files] ran for batch number [bn] and saved its checkpoint. *)
Definition batch_done (files : list cache_entry) (bn : Z) (st st' : state) : Prop :=
  tallied (map (outcome_for cfg onelake (dom (completed_files (st_progress st)))
                            (sources (st_disk st)))
               (Production.batch_slice cfg files bn))
          (st_progress st) (st_progress st')
  /\ st_disk st' = set_progress_file (Some (Json (st_progress st'))) (st_disk st)
  /\ disk_ops st' = (disk_ops st ++ [Truncate; Dump (st_progress st')])%list
  /\ access_token st' = access_token st.

Lemma migrate_batch_returns files total bn st :
  progress_write_error (st_disk st) = None ->
  returns (Production.migrate_batch cfg onelake time_time files total bn) st
          (fun _ st' => batch_done files bn st st').
Proof.
  intros W. unfold Production.migrate_batch.
  step. step. step. step. step.
  eapply returns_weaken; [apply upload_batch_returns |].
  intros rs st1 (Hrs & reqs & logs & Hst1).
  step. eapply returns_weaken; [apply process_results_recorded |].
  intros [[bs bf] bk] st2 (T2 & D2 & O2 & S2 & A2).
  step. eapply returns_weaken; [apply save_progress_returns |].
  { rewrite D2, Hst1. exact W. }
  intros [] st3 ((t & P3) & D3 & O3 & S3 & A3).
  repeat step.
  subst st1 rs. unfold batch_done. simpl_state. simpl_state in T2.
  simpl_state in D2. simpl_state in O2. simpl_state in A2.
  split; [| split; [| split]].
  - eapply tallied_ext; [exact T2 | ..]; rewrite ?P3; reflexivity.
  - rewrite D3, D2. reflexivity.
  - rewrite O3, O2. reflexivity.
  - congruence.
Qed.

(** The batches numbered [bns] done one after the other. *)
Inductive batches_done (files : list cache_entry) : list Z -> state -> state -> Prop :=
| batches_done_nil st : batches_done files [] st st
| batches_done_cons bn bns st st1 st2 :
    batch_done files bn st st1 -> batches_done files bns st1 st2 ->
    batches_done files (bn :: bns) st st2.

Lemma batch_done_writable files bn st st' :
  batch_done files bn st st' ->
  progress_write_error (st_disk st') = progress_write_error (st_disk st)
  /\ sources (st_disk st') = sources (st_disk st).
Proof. intros (_ & D & _). rewrite D. split; reflexivity. Qed.

Lemma migrate_loop_returns files total bns st :
  progress_write_error (st_disk st) = None ->
  returns (for_each bns (Production.migrate_batch cfg onelake time_time files total)) st
          (fun _ st' => batches_done files bns st st').
Proof.
  revert st. induction bns as [| bn bns IH]; intros st W.
  - step. constructor.
  - cbn [for_each]. step.
    eapply returns_weaken; [apply migrate_batch_returns; exact W |].
    intros [] st1 H1. eapply returns_weaken; [apply IH |].
    + destruct (batch_done_writable _ _ _ _ H1) as [-> _]. exact W.
    + intros [] st2 H2. econstructor; eassumption.
Qed.
End Batches.

(** ** A whole run *)

(** What a process finds on the disk when it starts. *)
Definition cached_files (d : disk) : list cache_entry :=
  match cache_file d with
  | Some (CacheJson (Some files)) => files
  | _ => []
  end.

Definition token_of (d : disk) : option string :=
  from_option Production.find_token None (env_file d).

Definition loaded (d : disk) : progress :=
  match progress_file d with
  | Some (Json p) => p
  | _ => Production.new_progress
  end.

Definition loadable (d : disk) : Prop :=
  forall raw, progress_file d <> Some (Garbled raw).

Definition writable (d : disk) : Prop := progress_write_error d = None.

(** The batch numbers [migrate_files] goes through. *)
Definition batch_numbers (cfg : config) (files : list cache_entry)
           (start_batch : Z) (max_batches : option Z) : list Z :=
  range start_batch
        (Production.end_batch_of ((len files + BATCH_SIZE cfg - 1) / BATCH_SIZE cfg)
                                 start_batch max_batches).

Section Runs.
Variable cfg : config.
Variable onelake : request -> reply.
Variable time_time : nat -> Z.

(** [migrated start max st st']: the batches of the run were done from
    [st], with the total and the start time set first, and ended in [st']. *)
Definition migrated (start_batch : Z) (max_batches : option Z) (st st' : state) : Prop :=
  let files := cached_files (st_disk st) in
  exists t st0 st1,
    st_progress st0 = set_start_time (Some t) (set_total_files (len files) (st_progress st))
    /\ st_disk st0 = st_disk st /\ disk_ops st0 = disk_ops st
    /\ batches_done cfg onelake files (batch_numbers cfg files start_batch max_batches) st0 st1
    /\ st_progress st' = st_progress st1 /\ st_disk st' = st_disk st1
    /\ disk_ops st' = disk_ops st1.

Definition untouched (st st' : state) : Prop :=
  st_progress st' = st_progress st /\ st_disk st' = st_disk st
  /\ disk_ops st' = disk_ops st.

Lemma get_access_token_returns st :
  returns Production.get_access_token st
          (fun ok st' => ok = bool_decide (is_Some (token_of (st_disk st)))
                         /\ untouched st st').
Proof.
  unfold Production.get_access_token. step. step.
  unfold token_of. destruct (from_option _ _ _) as [tok |].
  - repeat step. split; [| repeat split]. rewrite bool_decide_eq_true_2; eauto.
  - repeat step. split; [| repeat split]. rewrite bool_decide_eq_false_2; [reflexivity |].
    intros [x Hx]. discriminate.
Qed.

Lemma load_file_cache_returns st :
  returns Production.load_file_cache st
          (fun files st' => files = cached_files (st_disk st) /\ untouched st st').
Proof.
  unfold Production.load_file_cache, cached_files. step. step.
  destruct (cache_file (st_disk st)) as [[[files |] |] |];
    repeat step; split; try reflexivity; repeat split.
Qed.

Lemma print_summary_returns st :
  returns (Production.print_summary cfg time_time) st (fun _ st' => untouched st st').
Proof.
  unfold Production.print_summary. repeat step.
  destruct (0 <? _); repeat step; repeat split.
Qed.

Lemma migrate_files_returns start_batch max_batches st :
  writable (st_disk st) -> BATCH_SIZE cfg <> 0 ->
  returns (Production.migrate_files cfg onelake time_time start_batch max_batches) st
          (fun ok st' =>
             if bool_decide (is_Some (token_of (st_disk st)))
                && bool_decide (cached_files (st_disk st) <> [])
             then ok = true /\ migrated start_batch max_batches st st'
             else ok = false /\ untouched st st').
Proof.
  intros W B0. unfold Production.migrate_files. step.
  eapply returns_weaken; [apply get_access_token_returns |].
  intros ok st1 (-> & P1 & D1 & O1).
  destruct (bool_decide (is_Some _)); cbn [negb andb].
  - step. eapply returns_weaken; [apply load_file_cache_returns |].
    intros files st2 (-> & P2 & D2 & O2). rewrite D1.
    destruct (cached_files (st_disk st)) as [| e files] eqn:F.
    + repeat step. rewrite bool_decide_eq_false_2 by (intros H; apply H; reflexivity).
      split; [reflexivity |]. repeat split; simpl_state; congruence.
    + rewrite bool_decide_eq_true_2 by discriminate.
      repeat step. unfold Production.floordiv.
      destruct (BATCH_SIZE cfg =? 0) eqn:E; [apply Z.eqb_eq in E; contradiction |].
      repeat step.
      eapply returns_weaken; [apply migrate_loop_returns |].
      { simpl_state. rewrite D2, D1. exact W. }
      intros [] st3 H3. step.
      eapply returns_weaken; [apply print_summary_returns |].
      intros [] st4 (P4 & D4 & O4). step.
      split; [reflexivity |]. unfold migrated. rewrite F.
      eexists _, _, st3. split; [| split; [| split; [| split; [exact H3 |]]]].
      * simpl_state. rewrite P2, P1. reflexivity.
      * simpl_state. congruence.
      * simpl_state. congruence.
      * repeat split; assumption.
  - repeat step. split; [reflexivity |]. repeat split; simpl_state; congruence.
Qed.

(** The state of the process after [OneLakeProductionMigrator()]. *)
Lemma init_returns d :
  loadable d ->
  returns Production.init (boot Production.new_progress d)
          (fun _ st' => st_progress st' = loaded d /\ st_disk st' = d /\ disk_ops st' = []).
Proof.
  intros L. unfold Production.init, Production.load_progress, loaded.
  repeat step. simpl_state. cbn [boot st_disk].
  destruct (progress_file d) as [[p | raw] |] eqn:E.
  - repeat step. repeat split.
  - exfalso. exact (L raw E).
  - repeat step. repeat split.
Qed.

(** The arguments [main] hands to [migrate_files]. *)
Definition start_of (a : Production.args) : Z :=
  if Production.arg_test_run a then 0 else Production.arg_start_batch a.
Definition max_of (a : Production.args) : option Z :=
  if Production.arg_test_run a then Some 5 else Production.arg_max_batches a.

Lemma main_returns a d :
  loadable d -> writable d -> BATCH_SIZE cfg <> 0 ->
  returns (Production.main cfg onelake time_time a) (boot Production.new_progress d)
          (fun _ st' =>
             exists st,
               st_progress st = loaded d /\ st_disk st = d /\ disk_ops st = []
               /\ if bool_decide (is_Some (token_of d)) && bool_decide (cached_files d <> [])
                  then migrated (start_of a) (max_of a) st st'
                  else untouched st st').
Proof.
  intros L W B0. unfold Production.main. step.
  eapply returns_weaken; [apply init_returns; exact L |].
  intros [] st (P & D & O). step.
  set (st2 := if Production.arg_test_run a
              then add_log (Log "INFO" "TEST RUN: Processing first 5 batches only" []) st
              else st).
  assert (P2 : st_progress st2 = loaded d) by (subst st2; destruct (Production.arg_test_run a); exact P).
  assert (D2 : st_disk st2 = d) by (subst st2; destruct (Production.arg_test_run a); exact D).
  assert (O2 : disk_ops st2 = []) by (subst st2; destruct (Production.arg_test_run a); exact O).
  assert (G : returns
                (Production.migrate_files cfg onelake time_time (start_of a) (max_of a)) st2
                (fun ok st' =>
                   if bool_decide (is_Some (token_of d)) && bool_decide (cached_files d <> [])
                   then ok = true /\ migrated (start_of a) (max_of a) st2 st'
                   else ok = false /\ untouched st2 st')).
  { rewrite <- D2. apply migrate_files_returns; [rewrite D2; exact W | exact B0]. }
  assert (K : forall ok st1,
             (if bool_decide (is_Some (token_of d)) && bool_decide (cached_files d <> [])
              then ok = true /\ migrated (start_of a) (max_of a) st2 st1
              else ok = false /\ untouched st2 st1) ->
             returns (if ok then logger_info "MIGRATION COMPLETED SUCCESSFULLY!" []
                      else logger_error "MIGRATION FAILED" []) st1
                     (fun _ st' =>
                        exists st,
                          st_progress st = loaded d /\ st_disk st = d /\ disk_ops st = []
                          /\ if bool_decide (is_Some (token_of d))
                                && bool_decide (cached_files d <> [])
                             then migrated (start_of a) (max_of a) st st'
                             else untouched st st')).
  { intros ok st1 H.
    destruct (bool_decide _ && bool_decide _); destruct H as [-> H]; step;
      exists st2; repeat (split; [assumption |]); exact H. }
  subst st2. destruct (Production.arg_test_run a) eqn:T.
  - step. step.
    replace (Production.migrate_files cfg onelake time_time 0 (Some 5))
      with (Production.migrate_files cfg onelake time_time (start_of a) (max_of a))
      by (unfold start_of, max_of; rewrite T; reflexivity).
    eapply returns_weaken; [exact G | exact K].
  - replace (Production.migrate_files cfg onelake time_time
               (Production.arg_start_batch a) (Production.arg_max_batches a))
      with (Production.migrate_files cfg onelake time_time (start_of a) (max_of a))
      by (unfold start_of, max_of; rewrite T; reflexivity).
    eapply returns_weaken; [exact G | exact K].
Qed.

Lemma run_returns a d :
  loadable d -> writable d -> BATCH_SIZE cfg <> 0 ->
  exists st st',
    Production.run cfg onelake time_time a d = (0, st')
    /\ st_progress st = loaded d /\ st_disk st = d /\ disk_ops st = []
    /\ if bool_decide (is_Some (token_of d)) && bool_decide (cached_files d <> [])
       then migrated (start_of a) (max_of a) st st'
       else untouched st st'.
Proof.
  intros L W B0.
  destruct (main_returns a d L W B0) as ([] & st' & E & st & H).
  exists st, st'. unfold Production.run. rewrite E. split; [reflexivity | exact H].
Qed.
End Runs.

(** ** Slices and batches *)

(** The [i]-th chunk of [b] elements of [l]. *)
Definition chunk {A} (b : nat) (l : list A) (i : nat) : list A :=
  take b (drop (i * b) l).

Lemma concat_chunks {A} (b : nat) (l : list A) (s k : nat) :
  concat (map (chunk b l) (seq s k)) = take (k * b) (drop (s * b) l).
Proof.
  revert s. induction k as [| k IH]; intros s.
  - reflexivity.
  - cbn [seq map concat]. rewrite IH. unfold chunk.
    replace (S s * b)%nat with (s * b + b)%nat by lia.
    rewrite <- drop_drop, take_take_drop. f_equal.
  Qed.


Lemma slice_nonneg {A} (l : list A) (a b : Z) :
  0 <= a -> 0 <= b ->
  slice l a b = take (Z.to_nat (Z.min b (len l) - Z.min a (len l)))
                     (drop (Z.to_nat (Z.min a (len l))) l).
Proof.
  intros Ha Hb. unfold slice, slice_bound.
  destruct (a <? 0) eqn:Ea; [apply Z.ltb_lt in Ea; lia |].
  destruct (b <? 0) eqn:Eb; [apply Z.ltb_lt in Eb; lia |].
  reflexivity.
Qed.

Lemma slice_chunk {A} (l : list A) (b i : Z) :
  0 < b -> 0 <= i ->
  slice l (i * b) (Z.min (i * b + b) (len l)) = chunk (Z.to_nat b) l (Z.to_nat i).
Proof.
  intros Hb Hi. rewrite slice_nonneg by (unfold len; nia).
  unfold chunk, len.
  replace (Z.to_nat i * Z.to_nat b)%nat with (Z.to_nat (i * b)) by nia.
  destruct (Z_lt_le_dec (i * b) (Z.of_nat (length l))) as [Hlt | Hge].
  - rewrite (Z.min_l (i * b)) by lia.
    rewrite Z.min_l by lia.
    destruct (Z_le_gt_dec (i * b + b) (Z.of_nat (length l))) as [Hle | Hgt].
    + rewrite Z.min_l by lia. f_equal. lia.
    + rewrite Z.min_r by lia.
      rewrite !take_ge; [reflexivity | |]; rewrite length_drop; lia.
  - rewrite (Z.min_r (i * b)) by lia.
    rewrite (drop_ge l (Z.to_nat (i * b))) by lia.
    rewrite drop_ge by lia. rewrite !take_nil. reflexivity.
Qed.

Lemma range_seq (a b : Z) :
  0 <= a ->
  range a b = map Z.of_nat (seq (Z.to_nat a) (Z.to_nat (b - a))).
Proof.
  intros Ha. unfold range.
  rewrite <- (Nat.add_0_r (Z.to_nat a)).
  generalize (Z.to_nat (b - a)) as k. generalize 0%nat as s.
  intros s k. revert s. induction k as [| k IH]; intros s; [reflexivity |].
  cbn [seq map]. f_equal; [lia |].
  rewrite IH, Nat.add_succ_r. reflexivity.
Qed.

Section BatchSlices.
Variable cfg : config.
Hypothesis batch_size_pos : 0 < BATCH_SIZE cfg.

Let b : nat := Z.to_nat (BATCH_SIZE cfg).

Lemma batch_slice_chunk files bn :
  0 <= bn ->
  Production.batch_slice cfg files bn = chunk b files (Z.to_nat bn).
Proof.
  intros Hbn. unfold Production.batch_slice. apply slice_chunk; assumption.
Qed.

Lemma batch_slices_chunks files s e :
  0 <= s ->
  map (Production.batch_slice cfg files) (range s e)
  = map (chunk b files) (seq (Z.to_nat s) (Z.to_nat (e - s))).
Proof.
  intros Hs. rewrite range_seq by assumption. rewrite map_map.
  apply map_ext. intros i. rewrite batch_slice_chunk by lia.
  rewrite Nat2Z.id. reflexivity.
Qed.

Lemma total_batches_cover (n : Z) :
  0 <= n -> n <= (n + BATCH_SIZE cfg - 1) / BATCH_SIZE cfg * BATCH_SIZE cfg.
Proof.
  intros Hn.
  pose proof (Z.mul_succ_div_gt (n + BATCH_SIZE cfg - 1) (BATCH_SIZE cfg) batch_size_pos).
  lia.
Qed.


Lemma total_batches_nonneg (n : Z) :
  0 <= n -> 0 <= (n + BATCH_SIZE cfg - 1) / BATCH_SIZE cfg.
Proof. intros Hn. apply Z.div_pos; lia. Qed.

(** The batches of a full run, put end to end, are the file list. *)
Lemma full_run_batches_concat files :
  concat (map (Production.batch_slice cfg files) (batch_numbers cfg files 0 None)) = files.
Proof.
  unfold batch_numbers. cbn [Production.end_batch_of].
  rewrite batch_slices_chunks by lia. rewrite concat_chunks.
  cbn [Z.to_nat Nat.mul drop].
  apply take_ge.
  pose proof (total_batches_cover (len files) ltac:(unfold len; lia)).
  pose proof (total_batches_nonneg (len files) ltac:(unfold len; lia)).
  unfold len in *. subst b. rewrite Z.sub_0_r. nia.
Qed.

(** From a non-negative first batch on, the batches of a run are disjoint
    stretches of the file list. *)
Lemma run_batches_concat files s m :
  0 <= s ->
  exists k,
    concat (map (Production.batch_slice cfg files) (batch_numbers cfg files s m))
    = take k (drop (Z.to_nat s * b) files).
Proof.
  intros Hs. unfold batch_numbers.
  rewrite batch_slices_chunks by assumption. rewrite concat_chunks. eauto.
Qed.
End BatchSlices.

(** ** The completed keys of a run *)

Section CompletedKeys.
Variable cfg : config.
Variable onelake : request -> reply.

(** The key an entry adds to [completed_files] when it is uploaded against
    an empty store, if its upload succeeds. *)
Definition key_added (srcs : gmap string source_file) (e : cache_entry) : option string :=
  uploaded_key (outcome_for cfg onelake ∅ srcs e).


Lemma uploaded_key_outcome done srcs e :
  uploaded_key (outcome_for cfg onelake done srcs e)
  = match key_added srcs e with
    | Some k => if decide (k ∈ done) then None else Some k
    | None => None
    end.
Proof.
  unfold key_added. destruct e as [fi | ty]; [| reflexivity].
  cbn [outcome_for].
  destruct (truthy (path fi) && truthy (relative_path fi)); [| reflexivity].
  destruct (decide (default "" (relative_path fi) ∈ (∅ : gset string))) as [Hin | _];
    [set_solver |].
  destruct (transfer_outcome cfg onelake (srcs !! default "" (path fi))
              (default "" (path fi)) (default "" (relative_path fi)))
    as (r & Hr & [[size ->] | [msg ->]]); rewrite Hr; cbn [uploaded_key].
  - destruct (decide _); reflexivity.
  - destruct (decide _); reflexivity.
Qed.



End CompletedKeys.

(** ** Running again *)



Section Rerun.
Variable cfg : config.
Variable onelake : request -> reply.
Hypothesis batch_size_pos : 0 < BATCH_SIZE cfg.





End Rerun.

(** ** The requests of one upload *)

Section Requests.
Variable cfg : config.
Variable onelake : request -> reply.

Definition create_request (relative_path : string) : request :=
  Request PUT (Production.build_onelake_url cfg relative_path +:+ "?resource=file")
          (Some 0) "".

Definition append_request (relative_path content : string) : request :=
  Request PATCH (Production.build_onelake_url cfg relative_path +:+ "?action=append&position=0")
          (Some (Z.of_nat (String.length content))) content.

Definition flush_request (relative_path content : string) : request :=
  Request PATCH
          (Production.build_onelake_url cfg relative_path +:+ "?action=flush&position="
             +:+ str_of_int (Z.of_nat (String.length content)))
          (Some 0) "".

(** The remote accepts request [r] with one of the statuses [ok]. *)
Definition accepted (r : request) (ok : list Z) : bool :=
  match onelake r with
  | Reply status _ => Production.status_in status ok
  | NetError _ => false
  end.

Ltac run_transfer :=
  unfold transfer, trace_of, try_except, Production.upload_attempt, Production.upload_failed,
    Production.send, logger_info, logger_error, logger;
  unfold bind, modify, ret, raise.

Lemma transfer_requests content lp rp :
  snd (fst (transfer cfg onelake (Some (Readable content)) lp rp))
  = create_request rp ::
      (if accepted (create_request rp) [200; 201] && (0 <? Z.of_nat (String.length content))
       then append_request rp content ::
              (if accepted (append_request rp content) [200; 202]
               then [flush_request rp content] else [])
       else []).
Proof.
  unfold accepted, create_request, append_request, flush_request. run_transfer.
  destruct (onelake (Request PUT _ _ _)) as [s1 t1 | e1]; [| reflexivity].
  cbv beta iota zeta.
  destruct (Production.status_in s1 [200; 201]); [| reflexivity].
  cbn [andb]. destruct (0 <? _); [| reflexivity].
  destruct (onelake (Request PATCH (_ +:+ "?action=append&position=0") _ _)) as [s2 t2 | e2];
    [| reflexivity].
  cbv beta iota zeta.
  destruct (Production.status_in s2 [200; 202]); [| reflexivity].
  destruct (onelake _) as [s3 t3 | e3]; [| reflexivity].
  cbv beta iota zeta.
  destruct (Production.status_in s3 [200; 201]); reflexivity.
Qed.


Lemma transfer_not_found lp rp :
  transfer cfg onelake None lp rp
  = (Return (Production.Failure (Some rp) ("Local file not found: " +:+ lp)), [], []).
Proof. reflexivity. Qed.
End Requests.

(** ** A small world to run the scripts in

    Five files [a] to [e], batches of two; the remote refuses [c] with
    status 404 and accepts everything else. *)
Module Demo.

Definition cfg : config :=
  MkConfig "https://onelake.example" "ws" "lh" "2020-06-12" 2 2 3 120
           "migration_progress_production.json" "onelake_migration_production.log".

Definition onelake (r : request) : reply :=
  if str_in "/Files/c?" (url r) then Reply 404 "HTTP 404 Not Found"
  else
    match method r with
    | PUT => Reply 201 ""
    | PATCH => if str_in "action=append" (url r) then Reply 202 "" else Reply 200 ""
    end.

(** A remote that accepts everything. *)
Definition onelake_ok (r : request) : reply :=
  match method r with
  | PUT => Reply 201 ""
  | PATCH => if str_in "action=append" (url r) then Reply 202 "" else Reply 200 ""
  end.

Definition clock (n : nat) : Z := 1000 + Z.of_nat n.

Definition item (k : string) : cache_entry :=
  Dict (FileInfo (Some ("/data/" +:+ k)) (Some k) (Some 3)).

Definition files : list cache_entry := [item "a"; item "b"; item "c"; item "d"; item "e"].

Definition srcs : gmap string source_file :=
  list_to_map [("/data/a", Readable "aaa"); ("/data/b", Readable "");
               ("/data/c", Readable "ccc"); ("/data/d", Readable "ddd");
               ("/data/e", Readable "eee")].

(** The disk before the first run: a token, the file cache, no progress
    file. *)
Definition disk0 : disk :=
  Disk (Some ["# settings"; "ACCESS_TOKEN=secret"]) (Some (CacheJson (Some files)))
       None None srcs.

Definition all_batches : Production.args := Production.Args 0 None false.

End Demo.

Definition demo_first : state :=
  snd (Production.run Demo.cfg Demo.onelake Demo.clock Demo.all_batches Demo.disk0).

Example demo_first_run :
  fst (Production.run Demo.cfg Demo.onelake Demo.clock Demo.all_batches Demo.disk0) = 0
  /\ dom (completed_files (st_progress demo_first)) = list_to_set ["a"; "b"; "d"; "e"]
  /\ failed_pairs (st_progress demo_first)
     = [(Some "c", "Create failed: HTTP 404 - HTTP 404 Not Found")]
  /\ total_files (st_progress demo_first) = 5
  /\ LogAnalyzer.classify_error "Create failed: HTTP 404 - HTTP 404 Not Found" = "File Not Found".
Proof.
  split; [vm_compute; reflexivity |].
  split; [apply (bool_decide_unpack _); vm_compute; exact I |].
  repeat split; vm_compute; reflexivity.
Qed.

(** ** Idempotent re-run *)




(** ** Uploading an empty file *)

Section EmptyFile.
Variable cfg : config.
Variable onelake : request -> reply.
Variable time_time : nat -> Z.




End EmptyFile.



(** ** Conservation at the checkpoints *)

(** [len(completed) + len(failed) + skipped] of a progress store. *)
Definition accounted (p : progress) : Z :=
  Z.of_nat (size (completed_files p)) + len (failed_files_list p) + skipped_files p.

(** The stores written to the progress file, oldest first. *)
Definition checkpoints (ops : list disk_op) : list progress :=
  omap (fun o => match o with Dump p => Some p | _ => None end) ops.

Definition key_of (e : cache_entry) : option string :=
  match e with
  | Dict fi => relative_path fi
  | NotADict _ => None
  end.

Definition is_dict (e : cache_entry) : Prop :=
  match e with
  | Dict _ => True
  | NotADict _ => False
  end.

Lemma size_list_to_set_le (l : list string) :
  (size (list_to_set l : gset string) <= length l)%nat.
Proof.
  induction l as [| x l IH]; [reflexivity |].
  cbn [list_to_set length]. rewrite size_union_alt, size_singleton.
  pose proof (subseteq_size (list_to_set l ∖ {[x]}) (list_to_set l : gset string)
                ltac:(set_solver)).
  lia.
Qed.

Lemma results_partition (rs : list (gathered Production.upload_result)) :
  (length (omap uploaded_key rs) + length (omap failure_of rs)
   + length (List.filter is_skip rs) + length (List.filter is_exc rs) = length rs)%nat.
Proof.
  induction rs as [| r rs IH]; [reflexivity |].
  destruct r as [[p size [|] | p e] | e]; cbn; lia.
Qed.

Lemma failed_pairs_length p : length (failed_pairs p) = length (failed_files_list p).
Proof. unfold failed_pairs. apply length_map. Qed.

Lemma tallied_accounted_le rs p p' :
  tallied rs p p' -> accounted p' <= accounted p + len rs.
Proof.
  intros [Hd Hs Hl _ _ _]. unfold accounted, len.
  rewrite <- !failed_pairs_length, Hl, length_app, Hs.
  rewrite <- !(size_dom (D := gset string)), Hd.
  rewrite size_union_alt.
  pose proof (subseteq_size
                (list_to_set (omap uploaded_key rs) ∖ dom (completed_files p))
                (list_to_set (omap uploaded_key rs) : gset string) ltac:(set_solver)).
  pose proof (size_list_to_set_le (omap uploaded_key rs)).
  pose proof (results_partition rs). unfold len. lia.
Qed.

Lemma tallied_accounted_eq rs p p' :
  tallied rs p p' ->
  NoDup (omap uploaded_key rs) ->
  (forall k, k ∈ omap uploaded_key rs -> k ∉ dom (completed_files p)) ->
  List.filter is_exc rs = [] ->
  accounted p' = accounted p + len rs.
Proof.
  intros [Hd Hs Hl _ _ _] Hnd Hnew Hexc. unfold accounted, len.
  rewrite <- !failed_pairs_length, Hl, length_app, Hs.
  rewrite <- !(size_dom (D := gset string)), Hd.
  rewrite size_union by (intros k Hk1 Hk2; apply elem_of_list_to_set in Hk2; exact (Hnew k Hk2 Hk1)).
  rewrite size_list_to_set by exact Hnd.
  pose proof (results_partition rs). rewrite Hexc in H. cbn [length] in H. unfold len. lia.
Qed.

Section Conservation.
Variable cfg : config.
Variable onelake : request -> reply.
Hypothesis batch_size_pos : 0 < BATCH_SIZE cfg.

Lemma checkpoints_app ops1 ops2 :
  checkpoints (ops1 ++ ops2) = (checkpoints ops1 ++ checkpoints ops2)%list.
Proof. apply omap_app. Qed.

(** Each checkpoint of a chain of batches accounts for at most the items
    of the batches done so far, on top of what was accounted for before. *)
Lemma batches_done_bound files bns st st' :
  batches_done cfg onelake files bns st st' ->
  accounted (st_progress st')
  <= accounted (st_progress st) + len (concat (map (Production.batch_slice cfg files) bns))
  /\ total_files (st_progress st') = total_files (st_progress st)
  /\ exists cps,
      checkpoints (disk_ops st') = (checkpoints (disk_ops st) ++ cps)%list
      /\ Forall (fun p =>
                   accounted p
                   <= accounted (st_progress st)
                      + len (concat (map (Production.batch_slice cfg files) bns))
                   /\ total_files p = total_files (st_progress st)) cps.
Proof.
  induction 1 as [st | bn bns st st1 st2 H1 H2 IH].
  - cbn. split; [unfold len; cbn; lia |]. split; [reflexivity |].
    exists []. rewrite app_nil_r. split; [reflexivity | constructor].
  - destruct IH as (A2 & T2 & cps & C2 & F2).
    destruct H1 as (T1 & _ & O1 & _).
    pose proof (tallied_accounted_le _ _ _ T1) as A1.
    pose proof (tallied_total _ _ _ T1) as Tt1.
    unfold len in A1. rewrite length_map in A1.
    assert (Hlen : len (concat (map (Production.batch_slice cfg files) (bn :: bns)))
                   = len (Production.batch_slice cfg files bn)
                     + len (concat (map (Production.batch_slice cfg files) bns))).
    { cbn [map concat]. unfold len. rewrite length_app. lia. }
    rewrite Hlen. unfold len in *.
    split; [lia |]. split; [congruence |].
    exists (st_progress st1 :: cps). split.
    + rewrite C2, O1, checkpoints_app. cbn. rewrite <- app_assoc. reflexivity.
    + constructor.
      * split; [lia | exact Tt1].
      * eapply Forall_impl; [exact F2 |]. cbn. intros p [Hp Ht]. split; [lia | congruence].
Qed.

Lemma outcome_for_dict done srcs e :
  is_dict e -> is_exc (outcome_for cfg onelake done srcs e) = false.
Proof.
  destruct e as [fi | ty]; [intros _ | intros []]. cbn [outcome_for].
  destruct (truthy (path fi) && truthy (relative_path fi)); [| reflexivity].
  destruct (decide _); [reflexivity |].
  destruct (transfer_outcome cfg onelake (srcs !! default "" (path fi))
              (default "" (path fi)) (default "" (relative_path fi))) as (r & -> & _).
  reflexivity.
Qed.

Lemma key_added_key_of srcs e k :
  key_added cfg onelake srcs e = Some k -> key_of e = Some k.
Proof.
  unfold key_added. destruct e as [fi | ty]; [| discriminate]. cbn [outcome_for key_of].
  destruct (truthy (path fi) && truthy (relative_path fi)) eqn:T; [| discriminate].
  destruct (decide _) as [Hin | _]; [set_solver |].
  destruct (transfer_outcome cfg onelake (srcs !! default "" (path fi))
              (default "" (path fi)) (default "" (relative_path fi)))
    as (r & -> & [[size ->] | [msg ->]]); [| discriminate].
  cbn. intros H. inversion H; subst.
  destruct (relative_path fi) as [rp |]; [reflexivity |].
  destruct (truthy (path fi)); discriminate.
Qed.

Lemma omap_sublist {A B} (f g : A -> option B) (l : list A) :
  (forall x y, f x = Some y -> g x = Some y) ->
  omap f l `sublist_of` omap g l.
Proof.
  intros H. induction l as [| x l IH]; [constructor |].
  cbn. destruct (f x) as [y |] eqn:E.
  - rewrite (H x y E). constructor. exact IH.
  - destruct (g x); [constructor |]; exact IH.
Qed.

Lemma uploaded_keys_sublist done srcs batch :
  omap uploaded_key (map (outcome_for cfg onelake done srcs) batch)
  `sublist_of` omap key_of batch.
Proof.
  induction batch as [| e batch IH]; [constructor |].
  cbn -[outcome_for uploaded_key key_of]. rewrite uploaded_key_outcome.
  destruct (key_added cfg onelake srcs e) as [k |] eqn:K.
  - rewrite (key_added_key_of _ _ _ K).
    destruct (decide (k ∈ done)); [constructor | constructor]; exact IH.
  - destruct (key_of e); [constructor |]; exact IH.
Qed.

Lemma uploaded_keys_new done srcs batch k :
  k ∈ omap uploaded_key (map (outcome_for cfg onelake done srcs) batch) -> k ∉ done.
Proof.
  rewrite list_elem_of_omap. intros (r & Hr & Hk).
  apply list_elem_of_In, in_map_iff in Hr as (e & <- & _).
  rewrite uploaded_key_outcome in Hk.
  destruct (key_added cfg onelake srcs e) as [k' |]; [| discriminate].
  destruct (decide (k' ∈ done)); [discriminate |]. inversion Hk; subst. assumption.
Qed.

(** With dictionaries only and no key twice in a batch, each batch adds
    exactly its length. *)
Lemma batches_done_exact files bns st st' :
  batches_done cfg onelake files bns st st' ->
  Forall (fun bn => Forall is_dict (Production.batch_slice cfg files bn)
                    /\ NoDup (omap key_of (Production.batch_slice cfg files bn))) bns ->
  accounted (st_progress st')
  = accounted (st_progress st) + len (concat (map (Production.batch_slice cfg files) bns)).
Proof.
  induction 1 as [st | bn bns st st1 st2 H1 H2 IH]; intros Hall.
  - cbn. unfold len. cbn. lia.
  - inversion Hall as [| ? ? [Hd Hn] Hall']; subst.
    rewrite (IH Hall'). destruct H1 as (T1 & _).
    rewrite (tallied_accounted_eq _ _ _ T1).
    + cbn [map concat]. unfold len. rewrite length_app, length_map. lia.
    + eapply sublist_NoDup; [exact Hn | apply uploaded_keys_sublist].
    + intros k. apply uploaded_keys_new.
    + clear -Hd. induction Hd as [| e l He Hl IH]; [reflexivity |].
      cbn [map List.filter]. rewrite (outcome_for_dict _ _ _ He). exact IH.
Qed.
End Conservation.

Lemma slice_sublist {A} (l : list A) (a b : Z) : slice l a b `sublist_of` l.
Proof. unfold slice. etransitivity; [apply sublist_take | apply sublist_drop]. Qed.

Lemma omap_sublist_of {A B} (f : A -> option B) (l1 l2 : list A) :
  l1 `sublist_of` l2 -> omap f l1 `sublist_of` omap f l2.
Proof.
  induction 1 as [| x l1 l2 H IH | x l1 l2 H IH]; cbn.
  - constructor.
  - destruct (f x); [constructor |]; exact IH.
  - destruct (f x); [constructor |]; exact IH.
Qed.

Lemma accounted_new_progress : accounted Production.new_progress = 0.
Proof. unfold accounted. cbn. rewrite map_size_empty. reflexivity. Qed.

(** C3, as the code has it.  At every checkpoint of a run that starts at
    batch 0 or later, [len(completed) + len(failed) + skipped] is at most
    what the loaded store accounted for plus [total]; so it is at most
    [total] when the run starts from an empty store.  At the end of a full
    run from an empty store over dictionaries with pairwise distinct keys
    the sum equals [total]. *)
Theorem checkpoint_conservation
        (cfg : config) (onelake : request -> reply) (time_time : nat -> Z)
        (a : Production.args) (d : disk) :
  0 < BATCH_SIZE cfg -> loadable d -> writable d -> 0 <= start_of a ->
  let st' := snd (Production.run cfg onelake time_time a d) in
  (forall p, p ∈ checkpoints (disk_ops st') ->
             accounted p <= accounted (loaded d) + total_files p)
  /\ (progress_file d = None ->
      forall p, p ∈ checkpoints (disk_ops st') -> accounted p <= total_files p)
  /\ (progress_file d = None -> start_of a = 0 -> max_of a = None ->
      Forall is_dict (cached_files d) -> NoDup (omap key_of (cached_files d)) ->
      accounted (st_progress st') = total_files (st_progress st')).
Proof.
  intros B L W Hs st'.
  destruct (run_returns cfg onelake time_time a d L W ltac:(lia))
    as (st & st1 & E & P & D & O & H).
  subst st'. rewrite E. cbn [snd].
  assert (Hfresh : progress_file d = None -> loaded d = Production.new_progress).
  { intros F. unfold loaded. rewrite F. reflexivity. }
  assert (Hbound : forall p, p ∈ checkpoints (disk_ops st1) ->
                             accounted p <= accounted (loaded d) + total_files p).
  { destruct (bool_decide _ && bool_decide _).
    - destruct H as (t & st0 & st2 & P0 & D0 & O0 & Hdone & P' & D' & O').
      destruct (batches_done_bound cfg onelake _ _ _ _ Hdone) as (_ & _ & cps & C & F).
      rewrite O', C, O0, O. cbn [checkpoints omap app]. intros p Hp.
      rewrite Forall_forall in F. destruct (F p Hp) as [Hle Ht].
      rewrite P0, P in Hle, Ht. cbn [total_files set_start_time set_total_files] in Ht.
      change (accounted (set_start_time (Some t)
                           (set_total_files (len (cached_files (st_disk st))) (loaded d))))
        with (accounted (loaded d)) in Hle.
      rewrite D in *.
      destruct (run_batches_concat cfg B (cached_files d) (start_of a) (max_of a) Hs)
        as (k & Hk).
      rewrite Hk in Hle. rewrite Ht.
      pose proof (sublist_length _ _ (sublist_take (drop (Z.to_nat (start_of a)
                     * Z.to_nat (BATCH_SIZE cfg)) (cached_files d)) k)) as H1.
      pose proof (sublist_length _ _ (sublist_drop (cached_files d)
                     (Z.to_nat (start_of a) * Z.to_nat (BATCH_SIZE cfg)))) as H2.
      unfold len in *. lia.
    - destruct H as (_ & _ & O'). rewrite O', O. intros p Hp. inversion Hp. }
  split; [exact Hbound |]. split.
  - intros F p Hp. specialize (Hbound p Hp). rewrite (Hfresh F), accounted_new_progress in Hbound.
    lia.
  - intros F S0 M0 Hd Hn.
    destruct (bool_decide _ && bool_decide _).
    + destruct H as (t & st0 & st2 & P0 & D0 & O0 & Hdone & P' & D' & O').
      rewrite D in *. rewrite S0, M0 in Hdone.
      destruct (batches_done_bound cfg onelake _ _ _ _ Hdone) as (_ & T & _).
      rewrite P', T, P0. cbn [total_files set_start_time set_total_files].
      rewrite (batches_done_exact cfg onelake _ _ _ _ Hdone).
      * rewrite full_run_batches_concat by exact B.
        rewrite P0, P, (Hfresh F).
        change (accounted (set_start_time (Some t)
                             (set_total_files (len (cached_files d)) Production.new_progress)))
          with (accounted Production.new_progress).
        rewrite accounted_new_progress. lia.
      * apply Forall_forall. intros bn _. split.
        -- rewrite Forall_forall in Hd |- *. intros e He. apply Hd.
           eapply elem_of_sublist; [exact He | apply slice_sublist].
        -- eapply sublist_NoDup; [exact Hn |]. apply omap_sublist_of, slice_sublist.
    + destruct H as (P' & _). rewrite P', P, (Hfresh F). apply accounted_new_progress.
Qed.

Lemma existsb_Exists {A} (f : A -> bool) (P : A -> Prop) (l : list A) :
  (forall x, f x = true -> P x) -> existsb f l = true -> Exists P l.
Proof.
  intros H E. apply existsb_exists in E as (x & Hx & Hf).
  apply Exists_exists. exists x. split; [apply list_elem_of_In; exact Hx | apply H; exact Hf].
Qed.

(** The first run of the demo world, from an empty store: the sum is at most
    the total at each checkpoint and equals it at the end. *)
Lemma checkpoint_conservation_witness :
  (forall p, p ∈ checkpoints (disk_ops demo_first) -> accounted p <= total_files p)
  /\ accounted (st_progress demo_first) = total_files (st_progress demo_first).
Proof.
  pose proof (checkpoint_conservation Demo.cfg Demo.onelake Demo.clock Demo.all_batches
                Demo.disk0 eq_refl
                (fun raw (H : progress_file Demo.disk0 = Some (Garbled raw)) =>
                   eq_ind None (fun o => match o with None => True | Some _ => False end)
                          I _ H)
                eq_refl (Z.le_refl 0)) as (_ & H2 & H3).
  split; [exact (H2 eq_refl) |].
  apply (H3 eq_refl eq_refl eq_refl).
  - repeat constructor.
  - apply (bool_decide_unpack _). vm_compute. exact I.
Defined.

(** C3 fails as stated: run again on the store the first run left, the items
    completed before are counted once more as skipped, and the first
    checkpoint already accounts for more than [total]. *)
Lemma conservation_fails_on_resume :
  Exists (fun p => total_files p < accounted p)
         (checkpoints
            (disk_ops
               (snd (Production.run Demo.cfg Demo.onelake Demo.clock Demo.all_batches
                       (st_disk demo_first))))).
Proof.
  apply (existsb_Exists (fun p => total_files p <? accounted p)).
  - intros p. apply Z.ltb_lt.
  - vm_compute. reflexivity.
Qed.

Example resume_counts :
  map (fun p => (total_files p, accounted p, skipped_files p, len (failed_files_list p)))
      (checkpoints
         (disk_ops
            (snd (Production.run Demo.cfg Demo.onelake Demo.clock Demo.all_batches
                    (st_disk demo_first)))))
  = [(5, 7, 2, 1); (5, 9, 3, 2); (5, 10, 4, 2)].
Proof. vm_compute. reflexivity. Qed.

(** ** An exception in a batch *)

Section Exceptions.
Variable cfg : config.
Variable onelake : request -> reply.
Variable time_time : nat -> Z.





End Exceptions.




(** ** Saving and loading the progress file *)

(** C5, as the code has it.  [save_progress] of the production script writes
    the progress file in place: it opens the file itself for writing, which
    empties it, and dumps the store into it; there is no temporary file and
    no rename, so between the two operations the file holds no store.  In
    the auto-refresh script a failing save is caught and logged: the call
    returns, and the store in memory and the disk are as before. *)
Theorem save_progress_in_place (time_time : nat -> Z) (st : state) :
  (writable (st_disk st) ->
   exists st',
     Production.save_progress time_time st = (Return tt, st')
     /\ st_progress st' = set_last_update (Some (time_time (ticks st))) (st_progress st)
     /\ disk_ops st' = (disk_ops st ++ [Truncate; Dump (st_progress st')])%list
     /\ st_disk st' = replay [Truncate; Dump (st_progress st')] (st_disk st)
     /\ progress_file (st_disk st') = Some (Json (st_progress st'))
     /\ progress_file (replay [Truncate] (st_disk st)) = Some (Garbled ""))
  /\ (exists st',
        AutoRefresh.save_progress st = (Return tt, st')
        /\ st_progress st' = st_progress st
        /\ (writable (st_disk st) ->
            disk_ops st' = (disk_ops st ++ [Truncate; Dump (st_progress st)])%list
            /\ progress_file (st_disk st') = Some (Json (st_progress st)))
        /\ (forall e, progress_write_error (st_disk st) = Some e ->
              st_disk st' = st_disk st /\ disk_ops st' = disk_ops st
              /\ log st'
                 = (log st ++ [Log "ERROR" "WARNING: Failed to save progress: {e}" [exn_msg e]])%list)).
Proof.
  split.
  - intros W. unfold Production.save_progress, bind, now, modify, get. simpl_state.
    cbn [st_disk]. rewrite W. eexists. split; [reflexivity |].
    simpl_state. rewrite <- app_assoc. repeat split.
  - unfold AutoRefresh.save_progress, try_except, bind, get, modify, raise, logger_error, logger.
    destruct (progress_write_error (st_disk st)) as [e |] eqn:E.
    + eexists. split; [reflexivity |]. simpl_state. split; [reflexivity |].
      split; [intros W; unfold writable in W; congruence |].
      intros e' He'. inversion He'; subst. repeat split.
    + eexists. split; [reflexivity |]. simpl_state. split; [reflexivity |].
      split; [intros _; rewrite <- app_assoc; split; reflexivity | discriminate].
Qed.

(** The demo disk, with a progress file that cannot be written. *)
Definition demo_disk_read_only : disk :=
  Disk (env_file Demo.disk0) (cache_file Demo.disk0) None
       (Some (Exn "PermissionError" "[Errno 13] Permission denied")) Demo.srcs.

(** C5 fails as stated: a process killed between the two operations of a
    save leaves a progress file the next start cannot load; and in the
    production script a save that fails ends the run with an exception. *)
Lemma save_progress_is_not_atomic :
  progress_file (st_disk demo_first) = Some (Json (st_progress demo_first))
  /\ (exists p,
        drop (length (disk_ops demo_first))
             (disk_ops (snd (Production.save_progress Demo.clock demo_first)))
        = [Truncate; Dump p])
  /\ fst (Production.load_progress (boot Production.new_progress
                                         (replay [Truncate] (st_disk demo_first))))
     = Raise (Exn "JSONDecodeError" "Expecting value: line 1 column 1 (char 0)")
  /\ fst (Production.run Demo.cfg Demo.onelake Demo.clock Demo.all_batches demo_disk_read_only)
     = 1.
Proof.
  split; [vm_compute; reflexivity |].
  split; [eexists; vm_compute; reflexivity |].
  split; vm_compute; reflexivity.
Qed.


Lemma load_progress_absent st :
  progress_file (st_disk st) = None ->
  Production.load_progress st = (Return Production.new_progress, st).
Proof. intros H. unfold Production.load_progress, bind, get. rewrite H. reflexivity. Qed.

Lemma load_progress_garbled st raw :
  progress_file (st_disk st) = Some (Garbled raw) ->
  Production.load_progress st
  = (Raise (Exn "JSONDecodeError" "Expecting value: line 1 column 1 (char 0)"), st).
Proof. intros H. unfold Production.load_progress, bind, get. rewrite H. reflexivity. Qed.

Lemma turbo_fixed_load_progress_never_raises (f : option TurboFixed.log_text) :
  exists p, TurboFixed.load_progress f = Return p
            /\ (f = None \/ (exists raw, f = Some (TurboFixed.Garbled raw)) ->
                p = TurboFixed.init_progress).
Proof.
  destruct f as [[p | raw] |]; cbn; eexists; (split; [reflexivity |]).
  - intros [H | [raw H]]; discriminate.
  - reflexivity.
  - reflexivity.
Qed.


(** ** The exit status *)




Lemma exit_status_nonzero_on_exception cfg onelake time_time a d raw :
  progress_file d = Some (Garbled raw) ->
  fst (Production.run cfg onelake time_time a d) = 1.
Proof.
  intros H. unfold Production.run, Production.main, Production.init.
  unfold bind at 1. unfold bind at 1. unfold modify at 1. unfold bind at 1.
  rewrite load_progress_garbled with (raw := raw) by exact H. reflexivity.
Qed.

(** ** The batches of a run *)

Lemma slice_chunk_unclamped {A} (l : list A) (b i : Z) :
  0 < b -> 0 <= i ->
  slice l (i * b) (i * b + b) = chunk (Z.to_nat b) l (Z.to_nat i).
Proof.
  intros Hb Hi. rewrite <- slice_chunk by assumption.
  rewrite !slice_nonneg by (unfold len; nia).
  replace (Z.min (Z.min (i * b + b) (len l)) (len l)) with (Z.min (i * b + b) (len l)) by lia.
  reflexivity.
Qed.

Section Partition.
Variable cfg : config.
Hypothesis batch_size_pos : 0 < BATCH_SIZE cfg.

Let b : nat := Z.to_nat (BATCH_SIZE cfg).



End Partition.






(** ** The progress file is kept *)


Section Preserves.
Variable I : state -> Prop.








End Preserves.




Section FileKept.
Variable cfg : config.
Variable onelake : request -> reply.
Variable time_time : nat -> Z.









End FileKept.

(** ** The progress file of the download engine *)

Section Download.
Variable http_get : string -> SharepointTurbo.response.
Variable graph_item : string -> string -> SharepointTurbo.graph_reply.
Variable get_graph_token : outcome string.
Variable schedule : list (Z * SharepointTurbo.file_info) -> list (Z * SharepointTurbo.file_info).
Variable local_download_path : string.

Abbreviation download_attempts :=
  (SharepointTurbo.download_attempts http_get graph_item local_download_path).
Abbreviation download_file_safely_turbo :=
  (SharepointTurbo.download_file_safely_turbo http_get graph_item local_download_path).
Abbreviation download_worker :=
  (SharepointTurbo.download_worker http_get graph_item get_graph_token local_download_path).
Abbreviation download_all_files_turbo :=
  (SharepointTurbo.download_all_files_turbo http_get graph_item get_graph_token schedule
                                            local_download_path).





End Download.


(** A download directory that holds the first of two files and the progress
    file of an earlier, interrupted run; the remote serves every file. *)
Module DownloadDemo.
Definition http_get (url : string) : SharepointTurbo.response :=
  SharepointTurbo.Ok "%PDF".
Definition graph_item (drive_id file_id : string) : SharepointTurbo.graph_reply :=
  SharepointTurbo.Item None.
Definition schedule (l : list (Z * SharepointTurbo.file_info)) := l.
Definition files : list SharepointTurbo.file_info :=
  [SharepointTurbo.FileInfo "inv/1.pdf" "https://sp.example/1" (Some "id1");
   SharepointTurbo.FileInfo "inv/2.pdf" "https://sp.example/2" (Some "id2")].
Definition world0 : SharepointTurbo.world :=
  SharepointTurbo.World
    (Some (SharepointTurbo.Json (Some 0)
             (Some (SharepointTurbo.Results
                      [SharepointTurbo.Success "inv/1.pdf" "./downloaded_files/inv/1.pdf" false]
                      []))))
    false true {["inv/1.pdf" := "%PDF"]} [].
Definition run : SharepointTurbo.results * SharepointTurbo.world :=
  SharepointTurbo.download_all_files_turbo http_get graph_item (Return "token") schedule
    "./downloaded_files" files (Some "drive") 10 world0.
End DownloadDemo.


(** * Further properties of the scripts *)

(** ** The production migrator: the target URL *)

Lemma replace_char_idem (a b : ascii) (s : string) :
  a <> b -> replace_char a b (replace_char a b s) = replace_char a b s.
Proof.
  intros Hab. induction s as [| c s IH]; [reflexivity |].
  cbn [replace_char]. rewrite IH. f_equal.
  destruct (Ascii.eqb c a) eqn:E; [| rewrite E; reflexivity].
  destruct (Ascii.eqb b a) eqn:E'; [| reflexivity].
  apply Ascii.eqb_eq in E'. congruence.
Qed.

Lemma replace_char_app (a b : ascii) (s t : string) :
  replace_char a b (s +:+ t) = replace_char a b s +:+ replace_char a b t.
Proof.
  induction s as [| c s IH]; [reflexivity |].
  simpl. rewrite IH. reflexivity.
Qed.

Lemma rstrip_app_drop (drop : ascii -> bool) (s : string) (c : ascii) :
  drop c = true -> rstrip drop (s +:+ String c "") = rstrip drop s.
Proof.
  intros Hc. induction s as [| x s IH].
  - simpl. rewrite Hc. reflexivity.
  - simpl. simpl in IH. rewrite IH. reflexivity.
Qed.

Lemma lstrip_app_drop (drop : ascii -> bool) (s : string) (c : ascii) :
  drop c = true ->
  (lstrip drop s = "" /\ lstrip drop (s +:+ String c "") = "")
  \/ lstrip drop (s +:+ String c "") = lstrip drop s +:+ String c "".
Proof.
  intros Hc. induction s as [| x s IH].
  - left. simpl. rewrite Hc. split; reflexivity.
  - simpl. destruct (drop x); [exact IH | right; reflexivity].
Qed.

Lemma strip_cons_drop (drop : ascii -> bool) (s : string) (c : ascii) :
  drop c = true -> strip drop (String c s) = strip drop s.
Proof. intros Hc. unfold strip. cbn [lstrip]. rewrite Hc. reflexivity. Qed.

Lemma strip_app_drop (drop : ascii -> bool) (s : string) (c : ascii) :
  drop c = true -> strip drop (s +:+ String c "") = strip drop s.
Proof.
  intros Hc. unfold strip.
  destruct (lstrip_app_drop drop s c Hc) as [[E1 E2] | E].
  - rewrite E1, E2. reflexivity.
  - rewrite E. apply rstrip_app_drop. exact Hc.
Qed.

(** X1. [build_onelake_url] does not tell apart relative paths that differ
    in the direction of their slashes or in one slash put before or after:
    all of them are sent to the same address. *)
Theorem build_onelake_url_normalises (cfg : config) (p : string) :
  let url := Production.build_onelake_url cfg in
  url (replace_char "\" "/" p) = url p
  /\ url ("/" +:+ p) = url p
  /\ url ("\" +:+ p) = url p
  /\ url (p +:+ "/") = url p
  /\ url (p +:+ "\") = url p.
Proof.
  cbv zeta. unfold Production.build_onelake_url. cbv zeta.
  rewrite replace_char_idem by discriminate.
  rewrite !replace_char_app.
  change (replace_char "\" "/" "/") with "/".
  change (replace_char "\" "/" "\") with "/".
  change ("/" +:+ replace_char "\" "/" p) with (String "/" (replace_char "\" "/" p)).
  rewrite strip_cons_drop by reflexivity.
  rewrite strip_app_drop by reflexivity.
  repeat split; reflexivity.
Qed.

(** *** What [quote] lets through *)

Lemma quote_keeps_hex_digit (n : nat) : (n < 16)%nat -> quote_keeps (hex_digit n) = true.
Proof.
  intros H. do 16 (destruct n as [| n]; [reflexivity |]). lia.
Qed.

Lemma quote_chars (s : string) (c : ascii) :
  In c (list_ascii_of_string (quote s)) -> quote_keeps c = true \/ c = "%"%char.
Proof.
  induction s as [| x s IH]; cbn [quote]; [intros [] |].
  destruct (quote_keeps x) eqn:K; cbn [list_ascii_of_string In].
  - intros [<- | H]; [left; exact K | exact (IH H)].
  - pose proof (nat_ascii_bounded x) as B.
    intros [<- | [<- | [<- | H]]]; [right; reflexivity | left | left | exact (IH H)].
    + apply quote_keeps_hex_digit. apply Nat.Div0.div_lt_upper_bound. lia.
    + apply quote_keeps_hex_digit. apply Nat.mod_upper_bound. lia.
Qed.

Lemma startswith_head (p s : string) (c : ascii) :
  startswith (String c p) s = true -> exists s', s = String c s'.
Proof.
  destruct s as [| x s]; cbn [startswith]; [discriminate |].
  destruct (Ascii.eqb c x) eqn:E; [| discriminate].
  apply Ascii.eqb_eq in E. subst. eauto.
Qed.

Lemma str_in_head (p s : string) (c : ascii) :
  str_in (String c p) s = true -> In c (list_ascii_of_string s).
Proof.
  induction s as [| x s IH].
  - cbn. discriminate.
  - cbn [str_in]. intros H. apply orb_prop in H as [H | H].
    + apply startswith_head in H as (s' & [= -> ->]). left. reflexivity.
    + right. apply IH. exact H.
Qed.

Lemma lstrip_head (drop : ascii -> bool) (s : string) (c : ascii) (r : string) :
  lstrip drop s = String c r -> drop c = false.
Proof.
  induction s as [| x s IH]; cbn [lstrip]; [discriminate |].
  destruct (drop x) eqn:E; [exact IH |]. intros [= <- <-]. exact E.
Qed.

Lemma rstrip_head (drop : ascii -> bool) (s : string) (c : ascii) (r : string) :
  rstrip drop s = String c r -> exists r', s = String c r'.
Proof.
  destruct s as [| x s]; cbn [rstrip]; [discriminate |].
  destruct (rstrip drop s); [destruct (drop x); [discriminate |] |];
    intros [= <- <-]; eauto.
Qed.

(** X2. The part of the address that [build_onelake_url] makes from the
    relative path holds only letters, digits, [_ . - ~ /] and [%]; so no
    path can bring a [?], a [#], a [&] or a blank into the address, and the
    part never starts with a slash. *)
Theorem build_onelake_url_is_safe (cfg : config) (p : string) :
  exists encoded_path,
    Production.build_onelake_url cfg p
    = ONELAKE_BASE_URL cfg +:+ "/" +:+ WORKSPACE_ID cfg +:+ "/" +:+ LAKEHOUSE_ID cfg
        +:+ "/Files/" +:+ encoded_path
    /\ (forall c, In c (list_ascii_of_string encoded_path) ->
                  quote_keeps c = true \/ c = "%"%char)
    /\ str_in "?" encoded_path = false /\ str_in "#" encoded_path = false
    /\ str_in "&" encoded_path = false /\ str_in " " encoded_path = false
    /\ startswith "/" encoded_path = false.
Proof.
  eexists. split; [reflexivity |].
  set (clean := strip (Ascii.eqb "/") (replace_char "\" "/" p)).
  assert (Q : forall c, In c (list_ascii_of_string (quote clean)) ->
                        quote_keeps c = true \/ c = "%"%char) by apply quote_chars.
  assert (N : forall c, quote_keeps c = false -> c <> "%"%char ->
                        str_in (String c "") (quote clean) = false).
  { intros c K P. destruct (str_in _ _) eqn:E; [| reflexivity].
    apply str_in_head in E. destruct (Q c E); congruence. }
  split; [exact Q |].
  repeat (split; [apply N; [reflexivity | discriminate] |]).
  destruct (startswith "/" (quote clean)) eqn:E; [| reflexivity].
  apply startswith_head in E as (s' & E).
  destruct clean as [| x r] eqn:C; [discriminate |].
  assert (x = "/"%char).
  { cbn [quote] in E. destruct (quote_keeps x); [injection E; auto | discriminate]. }
  subst x. unfold strip in C.
  apply rstrip_head in C as (r' & C). apply lstrip_head in C. discriminate.
Qed.

(** ** The production migrator: runs *)

Lemma returns_and {A} (m : M A) st (Q1 Q2 : A -> state -> Prop) :
  returns m st Q1 -> returns m st Q2 -> returns m st (fun a st' => Q1 a st' /\ Q2 a st').
Proof.
  intros (a & st' & E & H1) (a2 & st2 & E2 & H2). rewrite E in E2.
  injection E2 as <- <-. exists a, st'. auto.
Qed.


(** [kept p p']: whatever [p] records is still in [p']: the completion
    records as they were, the failure records at the head of the list. *)
Definition kept (p p' : progress) : Prop :=
  (forall k v, completed_files p !! k = Some v -> completed_files p' !! k = Some v)
  /\ failed_files_list p `prefix_of` failed_files_list p'.

Lemma kept_refl p : kept p p.
Proof. split; [auto | reflexivity]. Qed.

Lemma kept_ext p p1 p2 :
  kept p p1 -> completed_files p2 = completed_files p1 ->
  failed_files_list p2 = failed_files_list p1 -> kept p p2.
Proof. intros [H1 H2] E1 E2. split; rewrite ?E1, ?E2; assumption. Qed.

Section ProductionRuns.
Variable cfg : config.
Variable onelake : request -> reply.
Variable time_time : nat -> Z.




(** *** What was recorded stays recorded *)

Lemma process_results_kept p0 bn rs counts st :
  kept p0 (st_progress st) ->
  (forall k, k ∈ omap uploaded_key rs -> completed_files p0 !! k = None) ->
  returns (Production.process_results time_time bn counts rs) st
          (fun _ st' => kept p0 (st_progress st') /\ st_disk st' = st_disk st).
Proof.
  revert counts st. induction rs as [| r rs IH]; intros counts st K New.
  - cbn [Production.process_results]. step. auto.
  - cbn [Production.process_results]. step.
    assert (New' : forall k, k ∈ omap uploaded_key rs -> completed_files p0 !! k = None).
    { intros k Hk. apply New. apply list_elem_of_omap in Hk as (x & Hx & Hf).
      apply list_elem_of_omap. exists x. split; [right; exact Hx | exact Hf]. }
    assert (G : returns (Production.process_result time_time bn counts r) st
                        (fun _ st' => kept p0 (st_progress st') /\ st_disk st' = st_disk st)).
    { unfold Production.process_result. destruct counts as [[bs bf] bk].
      destruct K as [K1 K2].
      destruct r as [[p size [|] | p e] | e]; repeat step; simpl_state;
        (split; [| reflexivity]); split; cbn; try assumption.
      - intros k v Hk. rewrite lookup_insert_ne; [auto |].
        intros <-. rewrite New in Hk; [discriminate |].
        apply list_elem_of_omap. eexists. split; [left | reflexivity].
      - etransitivity; [exact K2 | apply prefix_app_r; reflexivity]. }
    eapply returns_weaken; [exact G |].
    intros c st1 [K1 D1]. eapply returns_weaken; [apply IH; assumption |].
    intros c2 st2 [K2 D2]. split; [exact K2 | congruence].
Qed.

Lemma migrate_batch_kept p0 files total bn st :
  progress_write_error (st_disk st) = None -> kept p0 (st_progress st) ->
  returns (Production.migrate_batch cfg onelake time_time files total bn) st
          (fun _ st' => kept p0 (st_progress st')
                        /\ progress_write_error (st_disk st') = None).
Proof.
  intros W K. unfold Production.migrate_batch.
  step. step. step. step. step.
  eapply returns_weaken; [apply upload_batch_returns |].
  intros rs st1 (Hrs & reqs & logs & Hst1).
  step. eapply returns_weaken.
  { apply (process_results_kept p0).
    - subst st1. simpl_state. eapply kept_ext; [exact K | reflexivity | reflexivity].
    - intros k Hk. subst rs st1. simpl_state in Hk.
      destruct (completed_files p0 !! k) as [v |] eqn:E; [| reflexivity].
      exfalso. revert Hk. rewrite list_elem_of_omap. intros (r & Hr & Hkr).
      apply list_elem_of_In, in_map_iff in Hr as (e & <- & _).
      rewrite uploaded_key_outcome in Hkr.
      destruct (key_added cfg onelake _ e) as [k' |]; [| discriminate].
      destruct (decide (k' ∈ _)) as [| n]; [discriminate |].
      injection Hkr as ->. apply n. apply elem_of_dom. exists v.
      cbn. apply K. exact E. }
  intros [[bs bf] bk] st2 (K2 & D2).
  step. eapply returns_weaken; [apply save_progress_returns |].
  { rewrite D2, Hst1. exact W. }
  intros [] st3 ((t & P3) & D3 & O3 & S3 & A3).
  repeat step. simpl_state. split.
  - eapply kept_ext; [exact K2 | rewrite P3; reflexivity ..].
  - rewrite D3, D2, Hst1. exact W.
Qed.

Lemma migrate_files_kept p0 start_batch max_batches st :
  writable (st_disk st) -> BATCH_SIZE cfg <> 0 -> kept p0 (st_progress st) ->
  returns (Production.migrate_files cfg onelake time_time start_batch max_batches) st
          (fun _ st' => kept p0 (st_progress st')).
Proof.
  intros W B0 K. unfold Production.migrate_files. step.
  eapply returns_weaken; [apply get_access_token_returns |].
  intros ok st1 (-> & P1 & D1 & O1).
  destruct (bool_decide (is_Some _)); cbn [negb].
  - step. eapply returns_weaken; [apply load_file_cache_returns |].
    intros files st2 (-> & P2 & D2 & O2). rewrite D1.
    destruct (cached_files (st_disk st)) as [| e files] eqn:F.
    + repeat step. simpl_state. rewrite P2, P1. exact K.
    + repeat step. unfold Production.floordiv.
      destruct (BATCH_SIZE cfg =? 0) eqn:E; [apply Z.eqb_eq in E; contradiction |].
      repeat step.
      eapply returns_weaken.
      { apply (returns_for_each
                 (fun _ s => kept p0 (st_progress s)
                             /\ progress_write_error (st_disk s) = None)).
        - simpl_state. split; [| rewrite D2, D1; exact W].
          eapply kept_ext; [exact K | cbn; congruence ..].
        - intros bn rest s [Ks Ws]. apply migrate_batch_kept; assumption. }
      intros [] st3 [K3 W3]. step.
      eapply returns_weaken; [apply print_summary_returns |].
      intros [] st4 (P4 & D4 & O4). step. rewrite P4. exact K3.
  - repeat step. simpl_state. rewrite P1. exact K.
Qed.

Lemma main_kept a d :
  loadable d -> writable d -> BATCH_SIZE cfg <> 0 ->
  returns (Production.main cfg onelake time_time a) (boot Production.new_progress d)
          (fun _ st' => kept (loaded d) (st_progress st')).
Proof.
  intros L W B0. unfold Production.main. step.
  eapply returns_weaken; [apply init_returns; exact L |].
  intros [] st (P & D & O). step.
  assert (G : forall s m st0, st_progress st0 = loaded d -> st_disk st0 = d ->
                returns (Production.migrate_files cfg onelake time_time s m) st0
                        (fun _ st' => kept (loaded d) (st_progress st'))).
  { intros s m st0 P0 D0. apply migrate_files_kept; [rewrite D0; exact W | exact B0 |].
    rewrite P0. apply kept_refl. }
  destruct (Production.arg_test_run a).
  - step. step. eapply returns_weaken; [apply G; simpl_state; assumption |].
    intros [|] st1 K1; step; exact K1.
  - eapply returns_weaken; [apply G; assumption |].
    intros [|] st1 K1; step; exact K1.
Qed.

End ProductionRuns.





(** X5. A run never takes back what the progress file recorded before it:
    every completion record loaded at the start is still there, unchanged,
    in the progress dictionary at the end, and the failed list at the end
    starts with the failed list loaded (failures of the run are appended). *)
Theorem run_keeps_what_was_recorded
        (cfg : config) (onelake : request -> reply) (time_time : nat -> Z)
        (a : Production.args) (d : disk) :
  BATCH_SIZE cfg <> 0 -> loadable d -> writable d ->
  let st' := snd (Production.run cfg onelake time_time a d) in
  (forall k v, completed_files (loaded d) !! k = Some v ->
               completed_files (st_progress st') !! k = Some v)
  /\ failed_files_list (loaded d) `prefix_of` failed_files_list (st_progress st').
Proof.
  intros B L W.
  destruct (main_kept cfg onelake time_time a d L W B) as ([] & st' & E & K).
  unfold Production.run. rewrite E. cbn [fst snd]. cbv zeta. exact K.
Qed.

Lemma run_keeps_what_was_recorded_witness :
  let d := st_disk demo_first in
  let st' := snd (Production.run Demo.cfg Demo.onelake_ok Demo.clock Demo.all_batches d) in
  is_Some (completed_files (st_progress st') !! "a")
  /\ failed_files_list (loaded d) `prefix_of` failed_files_list (st_progress st').
Proof.
  pose proof (run_keeps_what_was_recorded Demo.cfg Demo.onelake_ok Demo.clock
                Demo.all_batches (st_disk demo_first)) as H.
  cbv zeta in *. destruct H as [H1 H2].
  - discriminate.
  - intros raw. vm_compute. discriminate.
  - vm_compute. reflexivity.
  - split; [| exact H2].
    assert (E : exists v, completed_files (loaded (st_disk demo_first)) !! "a" = Some v)
      by (vm_compute; eauto).
    destruct E as [v E]. exists v. apply H1. exact E.
Defined.

(** ** The production migrator: one upload *)

Section OneUpload.
Variable cfg : config.
Variable onelake : request -> reply.

(** Every request of the upload of [content] to [rp] is accepted. *)
Definition all_accepted (rp content : string) : bool :=
  accepted onelake (create_request cfg rp) [200; 201]
  && (negb (0 <? Z.of_nat (String.length content))
      || (accepted onelake (append_request cfg rp content) [200; 202]
          && accepted onelake (flush_request cfg rp content) [200; 201])).

Lemma transfer_result content lp rp :
  if all_accepted rp content
  then fst (fst (transfer cfg onelake (Some (Readable content)) lp rp))
       = Return (Production.Success rp (Z.of_nat (String.length content)) false)
  else exists msg,
         fst (fst (transfer cfg onelake (Some (Readable content)) lp rp))
         = Return (Production.Failure (Some rp) msg).
Proof.
  unfold all_accepted, accepted, create_request, append_request, flush_request.
  unfold transfer, trace_of, try_except, Production.upload_attempt, Production.upload_failed,
    Production.send, logger_info, logger_error, logger;
    unfold bind, modify, ret, raise.
  destruct (onelake (Request PUT _ _ _)) as [s1 t1 | e1]; [| cbn; eauto].
  cbv beta iota zeta.
  destruct (Production.status_in s1 [200; 201]); [| cbn; eauto].
  cbn [andb]. destruct (0 <? _); [| reflexivity].
  cbn [negb orb].
  destruct (onelake (Request PATCH (_ +:+ "?action=append&position=0") _ _)) as [s2 t2 | e2];
    [| cbn; eauto].
  cbv beta iota zeta.
  destruct (Production.status_in s2 [200; 202]); [| cbn; eauto].
  destruct (onelake _) as [s3 t3 | e3]; [| cbn; eauto].
  cbv beta iota zeta.
  destruct (Production.status_in s3 [200; 201]); cbn; eauto.
Qed.

(** X6. The upload of an item whose source file can be read never raises,
    and leaves the progress dictionary and the disk alone.  It sends the
    Create request; the Append request if Create was accepted and the file
    is not empty; the Flush request if Append was accepted; and nothing
    after the first request that is not accepted.  It returns a success
    exactly when every request it sent was accepted, and otherwise a
    failure under the item's own key. *)
Theorem upload_succeeds_iff_accepted (fi : file_info) (content : string) (st : state) :
  let local_path := default "" (path fi) in
  let rp := default "" (relative_path fi) in
  let size := Z.of_nat (String.length content) in
  let create := create_request cfg rp in
  let append := append_request cfg rp content in
  let flush := flush_request cfg rp content in
  truthy (path fi) && truthy (relative_path fi) = true ->
  rp ∉ dom (completed_files (st_progress st)) ->
  sources (st_disk st) !! local_path = Some (Readable content) ->
  let result := Production.upload_file_async cfg onelake (Dict fi) st in
  (all_accepted rp content = true ->
   fst result = Return (Production.Success rp size false))
  /\ (all_accepted rp content = false ->
      exists msg, fst result = Return (Production.Failure (Some rp) msg))
  /\ sent (snd result)
     = (sent st ++
        create ::
          (if accepted onelake create [200; 201] && (0 <? size)
           then append :: (if accepted onelake append [200; 202] then [flush] else [])
           else []))%list
  /\ st_progress (snd result) = st_progress st
  /\ st_disk (snd result) = st_disk st /\ disk_ops (snd result) = disk_ops st.
Proof.
  intros local_path rp size create append flush T Hnew Hsrc result.
  subst result. rewrite upload_file_async_attempt by assumption.
  fold local_path rp. rewrite Hsrc. cbv zeta. cbn [fst snd].
  unfold extend. cbn [sent st_progress st_disk disk_ops].
  rewrite transfer_requests. fold create append flush size.
  pose proof (transfer_result content local_path rp) as R.
  split; [| split; [| split; [reflexivity | split; [reflexivity | split; reflexivity]]]].
  - intros A. rewrite A in R. exact R.
  - intros A. rewrite A in R. exact R.
Qed.

End OneUpload.

Lemma upload_succeeds_iff_accepted_witness :
  fst (Production.upload_file_async Demo.cfg Demo.onelake (Demo.item "a")
         (boot Production.new_progress Demo.disk0))
  = Return (Production.Success "a" 3 false).
Proof.
  pose proof (upload_succeeds_iff_accepted Demo.cfg Demo.onelake
                (FileInfo (Some "/data/a") (Some "a") (Some 3)) "aaa"
                (boot Production.new_progress Demo.disk0)) as H.
  cbv zeta in H. destruct H as (H & _).
  - reflexivity.
  - apply not_elem_of_empty.
  - reflexivity.
  - apply H. reflexivity.
Defined.

(** ** The download engine *)

Section DownloadEngine.
Import SharepointTurbo.
Variable http_get : string -> response.
Variable graph_item : string -> string -> graph_reply.
Variable get_graph_token : outcome string.
Variable schedule : list (Z * file_info) -> list (Z * file_info).
Variable local_download_path : string.

Abbreviation attempts := (SharepointTurbo.download_attempts http_get graph_item local_download_path).
Abbreviation safely := (SharepointTurbo.download_file_safely_turbo http_get graph_item local_download_path).
Abbreviation worker :=
  (SharepointTurbo.download_worker http_get graph_item get_graph_token local_download_path).
Abbreviation engine :=
  (SharepointTurbo.download_all_files_turbo http_get graph_item get_graph_token schedule
                                            local_download_path).

(** The file a result is about. *)
Definition file_of (r : result) : string :=
  match r with
  | Success file _ _ => file
  | Failed file _ => file
  end.

Definition is_success (r : result) : bool :=
  match r with Success _ _ _ => true | Failed _ _ => false end.

(** [grown fi r m m']: what one download of [fi] with result [r] may do to
    the files [m] of the directory: nothing, or write the file of [fi],
    which was not there. *)
Definition grown (fi : file_info) (r : result) (m m' : gmap string string) : Prop :=
  file_of r = path fi
  /\ (m' = m \/ exists content, (path fi ∉ dom m) /\ m' = <[path fi := content]> m)
  /\ (is_success r = true -> path fi ∈ dom m').

Lemma attempts_grown l max_retries fi drive_id url w :
  path fi ∉ dom (downloaded w) ->
  grown fi (fst (attempts l max_retries fi drive_id url w)) (downloaded w)
        (downloaded (snd (attempts l max_retries fi drive_id url w))).
Proof.
  intros Hnew. revert url w Hnew.
  assert (Stop : forall msg m, grown fi (Failed (path fi) msg) m m).
  { intros msg m. split; [reflexivity |]. split; [left; reflexivity | discriminate]. }
  induction l as [| attempt rest IH]; intros url w Hnew.
  - apply Stop.
  - cbn [SharepointTurbo.download_attempts].
    destruct (http_get url) as [content | code msg | msg].
    + unfold grown. cbn [fst snd file_of is_success downloaded write_file logger].
      split; [reflexivity |]. split.
      * right. exists content. split; [exact Hnew | reflexivity].
      * intros _. apply elem_of_dom. rewrite lookup_insert_eq. eauto.
    + destruct ((code =? 401) && truthy drive_id && truthy (SharepointTurbo.id fi)
                && (attempt <? max_retries - 1)).
      * unfold SharepointTurbo.get_fresh_download_url.
        destruct (graph_item _ _) as [u | gmsg].
        -- destruct (truthy u); [(match goal with |- grown _ (fst (SharepointTurbo.download_attempts _ _ _ _ _ _ _ ?u ?W)) _ _ => exact (IH u W Hnew) end) |].
           destruct (attempt =? max_retries - 1); [apply Stop | (match goal with |- grown _ (fst (SharepointTurbo.download_attempts _ _ _ _ _ _ _ ?u ?W)) _ _ => exact (IH u W Hnew) end)].
        -- cbn [truthy].
           destruct (attempt =? max_retries - 1); [apply Stop | (match goal with |- grown _ (fst (SharepointTurbo.download_attempts _ _ _ _ _ _ _ ?u ?W)) _ _ => exact (IH u W Hnew) end)].
      * destruct (attempt =? max_retries - 1); [apply Stop | (match goal with |- grown _ (fst (SharepointTurbo.download_attempts _ _ _ _ _ _ _ ?u ?W)) _ _ => exact (IH u W Hnew) end)].
    + destruct (attempt =? max_retries - 1); [apply Stop | (match goal with |- grown _ (fst (SharepointTurbo.download_attempts _ _ _ _ _ _ _ ?u ?W)) _ _ => exact (IH u W Hnew) end)].
Qed.

Lemma safely_grown fi drive_id max_retries w :
  grown fi (fst (safely fi drive_id max_retries w)) (downloaded w)
        (downloaded (snd (safely fi drive_id max_retries w))).
Proof.
  unfold SharepointTurbo.download_file_safely_turbo.
  destruct (decide _) as [Hin | Hnew]; [| apply attempts_grown; exact Hnew].
  split; [reflexivity |]. split; [left; reflexivity | intros _; exact Hin].
Qed.

(** What one worker may do to the files [m] with a result [r] for [fi]. *)
Definition handled (fi : file_info) (r : result) (m m' : gmap string string) : Prop :=
  file_of r = path fi
  /\ m ⊆ m' /\ dom m' ⊆ dom m ∪ {[path fi]}
  /\ (is_success r = true -> path fi ∈ dom m').

Lemma grown_handled fi r m m' : grown fi r m m' -> handled fi r m m'.
Proof.
  intros (F & [-> | (content & Hnew & ->)] & S).
  - split; [exact F |]. split; [reflexivity |]. split; [| exact S].
    intros x Hx. apply elem_of_union. left. exact Hx.
  - split; [exact F |]. split; [| split; [| exact S]].
    + apply insert_subseteq. apply not_elem_of_dom. exact Hnew.
    + rewrite dom_insert. intros x Hx. apply elem_of_union in Hx as [Hx | Hx];
        apply elem_of_union; [right | left]; exact Hx.
Qed.

Lemma handled_trans fi r1 r2 m m1 m2 :
  handled fi r1 m m1 -> handled fi r2 m1 m2 -> handled fi r2 m m2.
Proof.
  intros (_ & S1 & D1 & _) (F2 & S2 & D2 & K2).
  split; [exact F2 |]. split; [etransitivity; eassumption |]. split; [| exact K2].
  intros x Hx. apply D2 in Hx. apply elem_of_union in Hx as [Hx | Hx].
  - apply D1. exact Hx.
  - apply elem_of_union. right. exact Hx.
Qed.

(** The result a worker files, and the files after it. *)
Definition worker_result (drive_id : option string) (fi : file_info) (w : world)
  : result * world :=
  let '(result, w) := safely fi drive_id 2 w in
  if is_failed_401 result then
    match get_graph_token with
    | Return new_token => safely fi drive_id 1 w
    | Raise e =>
        (result, logger "WARNING" "Token refresh failed for {file_info['path']}: {e}"
                        [path fi; exn_msg e] w)
    end
  else (result, w).

Lemma worker_result_handled drive_id fi w :
  handled fi (fst (worker_result drive_id fi w)) (downloaded w)
          (downloaded (snd (worker_result drive_id fi w))).
Proof.
  unfold worker_result.
  pose proof (grown_handled _ _ _ _ (safely_grown fi drive_id 2 w)) as H1.
  destruct (safely fi drive_id 2 w) as [r1 w1]. cbn [fst snd] in H1.
  destruct (is_failed_401 r1); [| exact H1].
  destruct get_graph_token as [tok | e]; [| exact H1].
  pose proof (grown_handled _ _ _ _ (safely_grown fi drive_id 1 w1)) as H2.
  eapply handled_trans; eassumption.
Qed.

(** The tally and the files after one worker. *)
Lemma worker_spec total_files drive_id index fi t w :
  let r := fst (worker_result drive_id fi w) in
  let tw := worker total_files drive_id (index, fi) (t, w) in
  t_results (fst tw)
  = (if is_success r
     then Results (success (t_results t) ++ [r]) (failed (t_results t))
     else Results (success (t_results t)) (failed (t_results t) ++ [r]))
  /\ downloaded (snd tw) = downloaded (snd (worker_result drive_id fi w))
  /\ total_processed (fst tw) = total_processed t + 1.
Proof.
  cbv zeta. unfold SharepointTurbo.download_worker, worker_result.
  destruct (safely fi drive_id 2 w) as [r1 w1].
  destruct (if is_failed_401 r1 then _ else _) as [r w2].
  cbn [fst snd].
  destruct r as [f lp sk | f err]; cbn -[Z.modulo];
    destruct (_ =? 0); destruct (_ =? 0); cbn; repeat split; reflexivity.
Qed.

(** A success whose file is in the directory. *)
Definition on_disk (m : gmap string string) (r : result) : Prop :=
  is_success r = true /\ file_of r ∈ dom m.

Lemma on_disk_mono m m' r : m ⊆ m' -> on_disk m r -> on_disk m' r.
Proof.
  intros Hs [S D]. split; [exact S |].
  apply elem_of_dom in D as [c D]. apply elem_of_dom. exists c.
  eapply lookup_weaken; eassumption.
Qed.

Definition paths (work : list (Z * file_info)) : list string :=
  map (fun x => path (snd x)) work.

Lemma workers_spec total_files drive_id work t w :
  let tw := fold_left (fun tw file_data => worker total_files drive_id file_data tw)
                      work (t, w) in
  downloaded w ⊆ downloaded (snd tw)
  /\ dom (downloaded (snd tw)) ⊆ dom (downloaded w) ∪ list_to_set (paths work)
  /\ map file_of (success (t_results (fst tw)) ++ failed (t_results (fst tw)))
     ≡ₚ map file_of (success (t_results t) ++ failed (t_results t)) ++ paths work
  /\ (Forall (on_disk (downloaded w)) (success (t_results t)) ->
      Forall (on_disk (downloaded (snd tw))) (success (t_results (fst tw))))
  /\ (Forall (fun r => is_success r = false) (failed (t_results t)) ->
      Forall (fun r => is_success r = false) (failed (t_results (fst tw)))).
Proof.
  cbv zeta. revert t w. induction work as [| [index fi] work IH]; intros t w.
  - cbn [fold_left fst snd paths map]. rewrite app_nil_r.
    split; [reflexivity |].
    split; [intros x Hx; apply elem_of_union; left; exact Hx |].
    split; [reflexivity |]. auto.
  - cbn [fold_left].
    destruct (worker_spec total_files drive_id index fi t w) as (R & D & _).
    pose proof (worker_result_handled drive_id fi w) as (F & S & Dm & K).
    destruct (worker total_files drive_id (index, fi) (t, w)) as [t1 w1].
    cbn [fst snd] in R, D. rewrite <- D in S, Dm, K.
    destruct (IH t1 w1) as (S' & Dm' & P' & O' & N').
    split; [etransitivity; eassumption |].
    split.
    { intros x Hx. apply Dm' in Hx. cbn [paths map list_to_set snd]. fold (paths work).
      apply elem_of_union in Hx as [Hx | Hx].
      - apply Dm in Hx. apply elem_of_union in Hx as [Hx | Hx].
        + apply elem_of_union. left. exact Hx.
        + apply elem_of_union. right. apply elem_of_union. left. exact Hx.
      - apply elem_of_union. right. apply elem_of_union. right. exact Hx. }
    split; [| split].
    + rewrite P', R. cbn [paths map snd]. fold (paths work).
      destruct (is_success (fst (worker_result drive_id fi w)));
        cbn [success failed]; rewrite !map_app; cbn [map]; rewrite F; solve_Permutation.
    + intros O. apply O'. rewrite R.
      destruct (is_success (fst (worker_result drive_id fi w))) eqn:E; cbn [success].
      * apply Forall_app. split.
        -- eapply Forall_impl; [exact O |]. intros r. apply on_disk_mono. exact S.
        -- constructor; [| constructor].
           split; [first [exact E | reflexivity] |]. rewrite F. apply K.
           first [exact E | reflexivity].
      * eapply Forall_impl; [exact O |]. intros r. apply on_disk_mono. exact S.
    + intros N. apply N'. rewrite R.
      destruct (is_success (fst (worker_result drive_id fi w))) eqn:E; cbn [failed];
        [exact N |].
      apply Forall_app. split; [exact N |].
      constructor; [first [exact E | reflexivity] | constructor].
Qed.

Lemma filter_remaining_spec i files w :
  let rs := filter_remaining local_download_path i files w in
  paths (fst rs) ++ map file_of (snd rs) ≡ₚ map path files
  /\ Forall (on_disk (downloaded w)) (snd rs)
  /\ Forall (fun x => path (snd x) ∉ dom (downloaded w)) (fst rs).
Proof.
  cbv zeta. revert i. induction files as [| fi files IH]; intros i.
  - cbn. split; [reflexivity |]. split; constructor.
  - cbn [filter_remaining]. destruct (IH (i + 1)) as (P & O & N).
    destruct (filter_remaining local_download_path (i + 1) files w) as [rem sk].
    cbn [fst snd] in *.
    destruct (decide _) as [Hin | Hout]; cbn [fst snd paths map file_of].
    + split; [| split; [| exact N]].
      * fold (paths rem). rewrite <- P. solve_Permutation.
      * constructor; [| exact O]. split; [reflexivity | exact Hin].
    + split; [| split; [exact O |]].
      * fold (paths rem). rewrite <- P. reflexivity.
      * constructor; [exact Hout | exact N].
Qed.

(** Where a run starts in the file list, and the results it starts from:
    what the progress file says, if it can be read. *)
Definition start_index_of (w : world) : Z :=
  match progress_file w with
  | Some (Json last saved) => default 0 last + 1
  | _ => 0
  end.

Definition loaded_results (w : world) : results :=
  match progress_file w with
  | Some (Json last saved) => default (Results [] []) saved
  | _ => Results [] []
  end.

Hypothesis schedule_permutes : forall work, schedule work ≡ₚ work.

Lemma engine_spec file_list drive_id max_workers w :
  let run := engine file_list drive_id max_workers w in
  let pending := slice file_list (start_index_of w) (len file_list) in
  let base := loaded_results w in
  downloaded w ⊆ downloaded (snd run)
  /\ dom (downloaded (snd run)) ⊆ dom (downloaded w) ∪ list_to_set (map path pending)
  /\ map file_of (success (fst run) ++ failed (fst run))
     ≡ₚ map file_of (success base ++ failed base) ++ map path pending
  /\ (Forall (on_disk (downloaded w)) (success base) ->
      Forall (on_disk (downloaded (snd run))) (success (fst run)))
  /\ (Forall (fun r => is_success r = false) (failed base) ->
      Forall (fun r => is_success r = false) (failed (fst run))).
Proof.
  cbv zeta. unfold SharepointTurbo.download_all_files_turbo.
  set (loaded :=
         match progress_file w with
         | Some (Json last saved) => _
         | Some (Garbled raw) => _
         | None => _
         end).
  assert (Hl : fst (fst loaded) = loaded_results w
               /\ snd (fst loaded) = start_index_of w
               /\ downloaded (snd loaded) = downloaded w).
  { subst loaded. unfold loaded_results, start_index_of.
    destruct (progress_file w) as [[last saved | raw] |]; repeat split; reflexivity. }
  destruct loaded as [[results start_index] w1]. cbn [fst snd] in Hl.
  destruct Hl as (-> & -> & D1).
  pose proof (filter_remaining_spec (start_index_of w)
                (slice file_list (start_index_of w) (len file_list)) w1) as (P & O & _).
  cbv zeta in P, O.
  destruct (filter_remaining local_download_path (start_index_of w) _ w1)
    as [remaining skipped].
  cbn [fst snd] in P, O. rewrite D1 in O.
  set (w2 := if 0 <? len skipped then _ else _).
  assert (D2 : downloaded w2 = downloaded w).
  { subst w2. destruct (0 <? len skipped); exact D1. }
  clearbody w2.
  match goal with
  | |- context [fold_left ?f ?l (?t0, w2)] =>
      pose proof (workers_spec (len file_list) drive_id l t0 w2) as Hw;
      destruct (fold_left f l (t0, w2)) as [t w3]
  end.
  cbv zeta in Hw. cbn [fst snd t_results success failed] in Hw.
  destruct Hw as (S3 & Dm3 & P3 & O3 & N3). rewrite D2 in S3, Dm3, O3.
  assert (Hp : paths (schedule remaining) ≡ₚ paths remaining).
  { unfold paths. apply Permutation_map. apply schedule_permutes. }
  set (w4 := if bool_decide _ && _ then _ else _).
  assert (D4 : downloaded w4 = downloaded w3).
  { subst w4. destruct (bool_decide _ && _); reflexivity. }
  clearbody w4. cbn [fst snd]. rewrite D4.
  split; [exact S3 |]. split; [| split; [| split]].
  - intros x Hx. apply Dm3 in Hx. apply elem_of_union in Hx as [Hx | Hx];
      apply elem_of_union; [left; exact Hx | right].
    apply elem_of_list_to_set. apply elem_of_list_to_set in Hx.
    rewrite Hp in Hx. rewrite <- P. apply elem_of_app. left. exact Hx.
  - rewrite P3, Hp, <- P. rewrite !map_app. solve_Permutation.
  - intros Ob. apply O3. apply Forall_app. split; assumption.
  - exact N3.
Qed.

End DownloadEngine.





(** A directory with one of two listed files in it and no progress file. *)
Definition download_fresh : SharepointTurbo.world :=
  SharepointTurbo.World None false true {["inv/1.pdf" := "%PDF"]} [].

(** X9. From a start without a progress file, every result a run files
    under ["success"] is a success whose file is in the download directory
    when the run ends, and every result under ["failed"] is a failure. *)
Theorem download_successes_are_on_disk
        (http_get : string -> SharepointTurbo.response)
        (graph_item : string -> string -> SharepointTurbo.graph_reply)
        (get_graph_token : outcome string)
        (schedule : list (Z * SharepointTurbo.file_info) -> list (Z * SharepointTurbo.file_info))
        (local_download_path : string)
        (file_list : list SharepointTurbo.file_info) (drive_id : option string)
        (max_workers : Z) (w : SharepointTurbo.world) :
  (forall work, schedule work ≡ₚ work) ->
  SharepointTurbo.progress_file w = None ->
  let run := SharepointTurbo.download_all_files_turbo
               http_get graph_item get_graph_token schedule local_download_path
               file_list drive_id max_workers w in
  Forall (fun r => is_success r = true
                   /\ file_of r ∈ dom (SharepointTurbo.downloaded (snd run)))
         (SharepointTurbo.success (fst run))
  /\ Forall (fun r => is_success r = false) (SharepointTurbo.failed (fst run)).
Proof.
  intros Hs Hnone run.
  destruct (engine_spec http_get graph_item get_graph_token schedule local_download_path Hs
              file_list drive_id max_workers w) as (_ & _ & _ & O & N).
  unfold loaded_results in O, N. rewrite Hnone in O, N.
  cbn [SharepointTurbo.success SharepointTurbo.failed] in O, N.
  split; [apply O; constructor | apply N; constructor].
Qed.

Lemma download_successes_are_on_disk_witness :
  let run := SharepointTurbo.download_all_files_turbo
               DownloadDemo.http_get DownloadDemo.graph_item (Return "token")
               DownloadDemo.schedule "./downloaded_files" DownloadDemo.files
               (Some "drive") 10 download_fresh in
  Forall (fun r => is_success r = true
                   /\ file_of r ∈ dom (SharepointTurbo.downloaded (snd run)))
         (SharepointTurbo.success (fst run)).
Proof.
  pose proof (download_successes_are_on_disk
                DownloadDemo.http_get DownloadDemo.graph_item (Return "token")
                DownloadDemo.schedule "./downloaded_files" DownloadDemo.files
                (Some "drive") 10 download_fresh) as H.
  cbv zeta in *. apply H.
  - intros work. reflexivity.
  - reflexivity.
Defined.

(** *** Retries of one download *)

Section DownloadRetries.
Import SharepointTurbo.
Variable http_get : string -> response.
Variable graph_item : string -> string -> graph_reply.
Variable get_graph_token : outcome string.
Variable local_download_path : string.

Abbreviation attempts := (SharepointTurbo.download_attempts http_get graph_item local_download_path).
Abbreviation safely := (SharepointTurbo.download_file_safely_turbo http_get graph_item local_download_path).














End DownloadRetries.

(** ** The optimized migrator of [onelake_migrator_turbo_fixed.py] *)

Section FixedMigrator.
Import OptimizedOneLakeMigrator.
Local Open Scope list_scope.
Variable cfg : settings.
Variable onelake : request -> reply.
Variable clock : nat -> Z.
Variable oauth_token : outcome string.
Variable average : Z -> Z -> Z -> Z -> Z.

(** [yields m st Q]: run from [st], [m] raises nothing, and its value and
    final state satisfy [Q]. *)
Definition yields {A} (m : M A) (st : state) (Q : A -> state -> Prop) : Prop :=
  exists a st', m st = (Return a, st') /\ Q a st'.

Lemma yields_ret {A} (a : A) st (Q : A -> state -> Prop) : Q a st -> yields (ret a) st Q.
Proof. intros H. exists a, st. split; [reflexivity | exact H]. Qed.

Lemma yields_bind {A B} (m : M A) (k : A -> M B) st (Q : B -> state -> Prop) :
  yields m st (fun a st1 => yields (k a) st1 Q) -> yields (bind m k) st Q.
Proof.
  intros (a & st1 & E & b & st2 & E2 & H). exists b, st2.
  split; [| exact H]. unfold bind. rewrite E. exact E2.
Qed.

Lemma yields_weaken {A} (m : M A) st (Q Q' : A -> state -> Prop) :
  yields m st Q -> (forall a st', Q a st' -> Q' a st') -> yields m st Q'.
Proof. intros (a & st' & E & H) W. exists a, st'. split; [exact E | apply W, H]. Qed.

Lemma yields_get st (Q : state -> state -> Prop) : Q st st -> yields get st Q.
Proof. intros H. exists st, st. split; [reflexivity | exact H]. Qed.

Lemma yields_modify f st (Q : unit -> state -> Prop) : Q tt (f st) -> yields (modify f) st Q.
Proof. intros H. exists tt, (f st). split; [reflexivity | exact H]. Qed.

Lemma yields_logger lvl tpl fs st (Q : unit -> state -> Prop) :
  Q tt (add_log (Log lvl tpl fs) st) -> yields (logger lvl tpl fs) st Q.
Proof. apply yields_modify. Qed.

Lemma yields_now st (Q : Z -> state -> Prop) :
  Q (clock (ticks st)) (tick st) -> yields (now clock) st Q.
Proof. intros H. eexists _, _. split; [reflexivity | exact H]. Qed.

Lemma yields_set_stat key v st (Q : unit -> state -> Prop) :
  Q tt (set_stats (<[key := v]> (migration_stats st)) st) -> yields (set_stat key v) st Q.
Proof. apply yields_modify. Qed.

Lemma yields_stat key v st (Q : Z -> state -> Prop) :
  migration_stats st !! key = Some v -> Q v st -> yields (stat key) st Q.
Proof.
  intros E H. exists v, st. split; [| exact H].
  unfold stat, bind, get. rewrite E. reflexivity.
Qed.

Ltac fx_step :=
  cbv beta;
  lazymatch goal with
  | |- yields (bind _ _) _ _ => apply yields_bind
  | |- yields (ret _) _ _ => apply yields_ret
  | |- yields get _ _ => apply yields_get
  | |- yields (logger _ _ _) _ _ => apply yields_logger
  | |- yields (set_stat _ _) _ _ => apply yields_set_stat
  | |- yields (modify _) _ _ => apply yields_modify
  | |- yields (now _) _ _ => apply yields_now
  end.

(** *** One batch *)

(** [posted P st st']: [st'] is [st] with some requests sent, each of which
    satisfies [P]. *)
Definition posted (P : request -> Prop) (st st' : state) : Prop :=
  exists reqs,
    Forall P reqs
    /\ st' = State (completed_files st) (failed_files st) (migration_stats st) (token st)
                   (token_refresh_time st) (migration_log st) (migration_log_error st)
                   (file_cache st) (file_cache_error st) (walked st) (local_files st)
                   (sent st ++ reqs) (log st) (ticks st).

Lemma posted_refl P st : posted P st st.
Proof. exists []. split; [constructor |]. rewrite app_nil_r. destruct st; reflexivity. Qed.

Lemma posted_trans P st st1 st2 : posted P st st1 -> posted P st1 st2 -> posted P st st2.
Proof.
  intros (r1 & F1 & ->) (r2 & F2 & ->). exists (r1 ++ r2).
  split; [apply Forall_app; auto |]. cbn. rewrite app_assoc. reflexivity.
Qed.

Lemma posted_weaken (P P' : request -> Prop) st st' :
  (forall r, P r -> P' r) -> posted P st st' -> posted P' st st'.
Proof.
  intros H (reqs & F & E). exists reqs. split; [| exact E].
  eapply Forall_impl; [exact F | exact H].
Qed.

Lemma posted_add_sent (P : request -> Prop) r st : P r -> posted P st (add_sent r st).
Proof. intros H. exists [r]. split; [constructor; [exact H | constructor] | reflexivity]. Qed.

(** The three requests of the upload of [relative_path]: create, append,
    flush. *)
Definition is_for (relative_path : string) (r : request) : Prop :=
  r = Request PUT (upload_url cfg relative_path) None ""
  \/ (exists file_data,
        r = Request PATCH (upload_url cfg relative_path +:+ "?action=append&position=0")
                    None file_data)
  \/ (exists position,
        r = Request PATCH
                    (upload_url cfg relative_path +:+ "?action=flush&position="
                       +:+ str_of_int position)
                    None "").

(** What the upload of a file with both keys comes to. *)
Definition settled (relative_path : string) (r : upload_result) : Prop :=
  (exists size, r = Success relative_path size)
  \/ (exists error, r = Failure (Some relative_path) error).

Lemma upload_attempt_spec source_path rp st :
  exists o st',
    upload_attempt cfg onelake source_path rp st = (o, st')
    /\ posted (is_for rp) st st'
    /\ ((exists r, o = Return r /\ settled rp r) \/ exists e, o = Raise e).
Proof.
  unfold upload_attempt, send, bind, get, modify, ret, raise. cbv beta.
  destruct (local_files st !! source_path) as [[file_data | e] |].
  2, 3: eexists _, _; split; [reflexivity | split; [apply posted_refl | right; eauto]].
  assert (H1 : is_for rp (Request PUT (upload_url cfg rp) None "")) by (left; reflexivity).
  assert (H2 : is_for rp (Request PATCH (upload_url cfg rp +:+ "?action=append&position=0")
                                  None file_data)) by (right; left; eauto).
  assert (H3 : is_for rp (Request PATCH
                                  (upload_url cfg rp +:+ "?action=flush&position="
                                     +:+ str_of_int (Z.of_nat (String.length file_data)))
                                  None "")) by (right; right; eauto).
  assert (P1 := posted_add_sent (is_for rp) _ st H1).
  assert (P2 := posted_trans _ _ _ _ P1 (posted_add_sent (is_for rp) _ _ H2)).
  assert (P3 := posted_trans _ _ _ _ P2 (posted_add_sent (is_for rp) _ _ H3)).
  destruct (onelake (Request PUT _ _ _)) as [s1 t1 | e1];
    [| eexists _, _; split; [reflexivity | split; [exact P1 | right; eauto]]].
  cbv beta iota zeta.
  destruct (status_in s1 [200; 201]); cbn [negb];
    [| eexists _, _; split; [reflexivity |];
       split; [exact P1 | left; eexists; split; [reflexivity | right; eauto]]].
  destruct (onelake (Request PATCH (_ +:+ "?action=append&position=0") _ _)) as [s2 t2 | e2];
    [| eexists _, _; split; [reflexivity | split; [exact P2 | right; eauto]]].
  cbv beta iota zeta.
  destruct (status_in s2 [200; 202]); cbn [negb];
    [| eexists _, _; split; [reflexivity |];
       split; [exact P2 | left; eexists; split; [reflexivity | right; eauto]]].
  destruct (onelake _) as [s3 t3 | e3];
    [| eexists _, _; split; [reflexivity | split; [exact P3 | right; eauto]]].
  cbv beta iota zeta.
  destruct (status_in s3 [200; 201]);
    (eexists _, _; split; [reflexivity |];
     split; [exact P3 | left; eexists; split; [reflexivity |]]); [left | right]; eauto.
Qed.

(** What [migrate_batch_async] makes of the task for [f]. *)
Definition about (f : file_info) (r : upload_result) : Prop :=
  match path f, relative_path f with
  | None, _ => r = Failure None "'path'"
  | Some _, None => r = Failure None "'relative_path'"
  | Some _, Some rp => settled rp r
  end.

(** A request for one of the files of [batch]. *)
Definition is_for_one_of (batch : list file_info) (r : request) : Prop :=
  exists f rp, In f batch /\ relative_path f = Some rp /\ is_for rp r.

Lemma upload_file_async_spec f st :
  let run := upload_file_async cfg onelake f st in
  posted (is_for_one_of [f]) st (snd run)
  /\ about f (match fst run with Return r => r | Raise e => Failure None (exn_msg e) end).
Proof.
  cbv zeta. unfold upload_file_async, about.
  destruct (path f) as [sp |]; [| split; [apply posted_refl | reflexivity]].
  destruct (relative_path f) as [rp |] eqn:R; [| split; [apply posted_refl | reflexivity]].
  destruct (upload_attempt_spec sp rp st) as (o & st1 & E & P & O). unfold try_except.
  rewrite E. destruct o as [r | e]; cbn [fst snd] in *.
  - split.
    + eapply posted_weaken; [| exact P]. intros q Hq. exists f, rp.
      split; [left; reflexivity | split; [exact R | exact Hq]].
    + destruct O as [(r' & [= <-] & S) | (e & [=])]. exact S.
  - split.
    + eapply posted_weaken; [| exact P]. intros q Hq. exists f, rp.
      split; [left; reflexivity | split; [exact R | exact Hq]].
    + right. eauto.
Qed.

Lemma migrate_batch_async_spec batch st :
  exists rs st1,
    migrate_batch_async cfg onelake batch st = (Return rs, st1)
    /\ Forall2 about batch rs
    /\ posted (is_for_one_of batch) st st1.
Proof.
  unfold migrate_batch_async.
  assert (G : exists gs st1,
             gather (map (upload_file_async cfg onelake) batch) st = (Return gs, st1)
             /\ Forall2 about batch
                  (map (fun g => match g with Exc e => Failure None (exn_msg e) | Res r => r end)
                       gs)
             /\ posted (is_for_one_of batch) st st1).
  { revert st. induction batch as [| f batch IH]; intros st.
    - exists [], st. split; [reflexivity |]. split; [constructor | apply posted_refl].
    - cbn [map gather].
      destruct (upload_file_async_spec f st) as (P & A).
      destruct (upload_file_async cfg onelake f st) as [o st1]. cbn [fst snd] in *.
      destruct (IH st1) as (gs & st2 & E & F & P2). rewrite E.
      eexists _, st2. split; [reflexivity |]. split.
      + cbn [map]. constructor; [| exact F]. destruct o; exact A.
      + eapply posted_trans.
        * eapply posted_weaken; [| exact P]. intros q (f' & rp & [<- | []] & R & Hq).
          exists f, rp. split; [left; reflexivity | auto].
        * eapply posted_weaken; [| exact P2]. intros q (f' & rp & I & R & Hq).
          exists f', rp. split; [right; exact I | auto]. }
  destruct G as (gs & st1 & E & F & P).
  eexists _, st1. unfold bind. rewrite E. split; [reflexivity |]. split; assumption.
Qed.

(** What a result adds to the progress dictionary. *)
Definition success_file (r : upload_result) : option string :=
  match r with
  | Success file _ => Some file
  | Failure _ _ => None
  end.

Definition failure_entry (r : upload_result) : option (string * string) :=
  match r with
  | Success _ _ => None
  | Failure file error => Some (default "unknown" file, error)
  end.

Lemma results_split (rs : list upload_result) :
  len (omap success_file rs) + len (omap failure_entry rs) = len rs.
Proof.
  unfold len. induction rs as [| [f s | f e] rs IH]; cbn; [reflexivity | |];
    cbn in IH; lia.
Qed.

(** [written st st']: between [st] and [st'] only the two lists of the
    progress dictionary, the clock and (not at all) the rest moved. *)
Definition written (st st' : state) : Prop :=
  migration_stats st' = migration_stats st
  /\ token st' = token st /\ token_refresh_time st' = token_refresh_time st
  /\ migration_log st' = migration_log st
  /\ migration_log_error st' = migration_log_error st
  /\ sent st' = sent st.

Lemma record_results_spec rs counts st :
  yields (record_results clock counts rs) st
         (fun c st' =>
            completed_files st' = completed_files st ++ omap success_file rs
            /\ failed_files st' = failed_files st ++ omap failure_entry rs
            /\ fst c = fst counts + len (omap success_file rs)
            /\ snd c = snd counts + len (omap failure_entry rs)
            /\ written st st').
Proof.
  clear cfg onelake oauth_token average.
  revert counts st. induction rs as [| r rs IH]; intros [bs bf] st.
  - cbn [record_results]. fx_step. cbn. rewrite !app_nil_r. unfold len. cbn.
    repeat split; lia.
  - cbn [record_results]. fx_step. unfold record_result.
    destruct r as [file size | file error].
    + repeat fx_step. eapply yields_weaken; [apply IH |].
      intros c st' (C & F & S1 & S2 & W). cbn in *.
      rewrite C, F, <- app_assoc. unfold len in *. cbn [length].
      repeat split; try tauto; try lia; apply W.
    + repeat fx_step. eapply yields_weaken; [apply IH |].
      intros c st' (C & F & S1 & S2 & W). cbn in *.
      rewrite C, F, <- app_assoc. unfold len in *. cbn [length].
      repeat split; try tauto; try lia; apply W.
Qed.

(** *** A whole run *)

(** [after m st Q R]: run from [st], [m] returns a value and a state that
    satisfy [Q], or raises in a state that satisfies [R]. *)
Definition after {A} (m : M A) (st : state) (Q : A -> state -> Prop) (R : state -> Prop) : Prop :=
  match m st with
  | (Return a, st') => Q a st'
  | (Raise _, st') => R st'
  end.

Lemma after_ret {A} (a : A) st (Q : A -> state -> Prop) R : Q a st -> after (ret a) st Q R.
Proof. intros H. exact H. Qed.

Lemma after_raise {A} e st (Q : A -> state -> Prop) (R : state -> Prop) :
  R st -> after (raise e) st Q R.
Proof. intros H. exact H. Qed.

Lemma after_bind {A B} (m : M A) (k : A -> M B) st (Q : B -> state -> Prop) R :
  after m st (fun a st1 => after (k a) st1 Q R) R -> after (bind m k) st Q R.
Proof. unfold after, bind. destruct (m st) as [[a | e] st1]; auto. Qed.

Lemma after_returned {A B} (m : M A) (k : A -> M B) st a st1 (Q : B -> state -> Prop) R :
  m st = (Return a, st1) -> after (k a) st1 Q R -> after (bind m k) st Q R.
Proof. intros E H. unfold after, bind. rewrite E. exact H. Qed.

Lemma after_try {A} (m : M A) (h : exn -> M A) st (Q : A -> state -> Prop) R :
  after m st Q (fun st1 => forall e, after (h e) st1 Q R) -> after (try_except m h) st Q R.
Proof.
  unfold after, try_except. destruct (m st) as [[a | e] st1]; intros H; [exact H | apply H].
Qed.

Lemma after_weaken {A} (m : M A) st (Q Q' : A -> state -> Prop) (R R' : state -> Prop) :
  after m st Q R -> (forall a st', Q a st' -> Q' a st') -> (forall st', R st' -> R' st') ->
  after m st Q' R'.
Proof. unfold after. destruct (m st) as [[a | e] st1]; auto. Qed.

Lemma after_get st (Q : state -> state -> Prop) R : Q st st -> after get st Q R.
Proof. intros H. exact H. Qed.

Lemma after_modify f st (Q : unit -> state -> Prop) R : Q tt (f st) -> after (modify f) st Q R.
Proof. intros H. exact H. Qed.

Lemma after_logger lvl tpl fs st (Q : unit -> state -> Prop) R :
  Q tt (add_log (Log lvl tpl fs) st) -> after (logger lvl tpl fs) st Q R.
Proof. intros H. exact H. Qed.

Lemma after_now st (Q : Z -> state -> Prop) R :
  Q (clock (ticks st)) (tick st) -> after (now clock) st Q R.
Proof. intros H. exact H. Qed.

Lemma after_set_stat key v st (Q : unit -> state -> Prop) R :
  Q tt (set_stats (<[key := v]> (migration_stats st)) st) -> after (set_stat key v) st Q R.
Proof. intros H. exact H. Qed.

Lemma after_stat key st (Q : Z -> state -> Prop) (R : state -> Prop) :
  (forall v, migration_stats st !! key = Some v -> Q v st) ->
  (migration_stats st !! key = None -> R st) ->
  after (stat key) st Q R.
Proof.
  intros HQ HR. unfold after, stat, bind, get.
  destruct (migration_stats st !! key) as [v |]; [apply HQ | apply HR]; reflexivity.
Qed.

Lemma after_add_stat key n st (Q : unit -> state -> Prop) (R : state -> Prop) :
  (forall v, migration_stats st !! key = Some v ->
             Q tt (set_stats (<[key := v + n]> (migration_stats st)) st)) ->
  (migration_stats st !! key = None -> R st) ->
  after (add_stat key n) st Q R.
Proof.
  intros HQ HR. unfold add_stat. apply after_bind, after_stat; [| exact HR].
  intros v E. apply after_set_stat, HQ, E.
Qed.

Lemma after_get_fabric_token st (Q : string -> state -> Prop) (R : state -> Prop) :
  (forall tok, Q tok st) -> R st -> after (get_fabric_token cfg oauth_token) st Q R.
Proof.
  intros HQ HR. unfold after, get_fabric_token.
  destruct (truthy (access_token cfg)); [apply HQ |].
  destruct oauth_token; [apply HQ | apply HR].
Qed.

Ltac flat :=
  cbn [set_stats tick add_log set_migration_log set_token set_progress set_file_cache add_sent
       completed_files failed_files migration_stats token token_refresh_time migration_log
       migration_log_error file_cache file_cache_error walked local_files sent log ticks].
Ltac flat_in H :=
  cbn [set_stats tick add_log set_migration_log set_token set_progress set_file_cache add_sent
       completed_files failed_files migration_stats token token_refresh_time migration_log
       migration_log_error file_cache file_cache_error walked local_files sent log ticks] in H.

Ltac run_step :=
  cbv beta iota;
  lazymatch goal with
  | |- after (bind _ _) _ _ _ => apply after_bind
  | |- after (ret _) _ _ _ => apply after_ret
  | |- after (raise _) _ _ _ => apply after_raise
  | |- after get _ _ _ => apply after_get
  | |- after (logger _ _ _) _ _ _ => apply after_logger
  | |- after (set_stat _ _) _ _ _ => apply after_set_stat
  | |- after (modify _) _ _ _ => apply after_modify
  | |- after (now _) _ _ _ => apply after_now
  | |- after (try_except _ _) _ _ _ => apply after_try
  end.

(** The files the scan returns: those on disk, or those of the cache. *)
Definition scanned (st : state) (files : list file_info) : Prop :=
  files = walked st
  \/ exists timestamp, file_cache st = Some (CacheJson timestamp (Some files)).

(** The files of [files] whose relative path is not in [completed]. *)
Definition pending (completed : list string) (files : list file_info) : list file_info :=
  List.filter (fun f => match relative_path f with
                        | Some rp => negb (bool_decide (rp ∈ completed))
                        | None => true
                        end) files.

(** The progress lists are [completed] and [failed] extended by the
    results of the files [done], one for each and in their order. *)
Definition listed (done : list file_info) (completed : list string)
           (failed : list (string * string)) (st' : state) : Prop :=
  exists results,
    Forall2 about done results
    /\ completed_files st' = completed ++ omap success_file results
    /\ failed_files st' = failed ++ omap failure_entry results.

(** Between [st] and [st'] requests were sent only for files of [done]. *)
Definition requested (done : list file_info) (st st' : state) : Prop :=
  exists reqs, sent st' = sent st ++ reqs /\ Forall (is_for_one_of done) reqs.

(** The statistics agree with the progress lists: [n0] files counted at
    the start, and one more for each entry added to a list of [completed]
    and [failed] entries. *)
Definition balanced (completed failed n0 total : Z) (st : state) : Prop :=
  let successes := len (completed_files st) - completed in
  let failures := len (failed_files st) - failed in
  migration_stats st !! "processed_files" = Some (n0 + successes + failures)
  /\ migration_stats st !! "successful_uploads" = Some (n0 + successes)
  /\ migration_stats st !! "failed_uploads" = Some failures
  /\ migration_stats st !! "total_files" = Some total
  /\ is_Some (migration_stats st !! "batches_completed")
  /\ is_Some (migration_stats st !! "avg_upload_speed").

Lemma is_for_one_of_mono (l l' : list file_info) r :
  (forall f, In f l -> In f l') -> is_for_one_of l r -> is_for_one_of l' r.
Proof. intros H (f & rp & I & E & F). exists f, rp. auto. Qed.

Lemma requested_same done st st' : sent st' = sent st -> requested done st st'.
Proof. intros E. exists []. split; [rewrite app_nil_r; exact E | constructor]. Qed.

Lemma requested_refl done st : requested done st st.
Proof. apply requested_same. reflexivity. Qed.

Lemma requested_trans d1 d2 st st1 st2 :
  requested d1 st st1 -> requested d2 st1 st2 -> requested (d1 ++ d2) st st2.
Proof.
  intros (r1 & E1 & F1) (r2 & E2 & F2). exists (r1 ++ r2).
  split; [rewrite E2, E1, app_assoc; reflexivity |].
  apply Forall_app. split; (eapply Forall_impl; [eassumption |]); intros r;
    apply is_for_one_of_mono; intros f I; apply in_or_app; auto.
Qed.

Lemma requested_mono d d' st st' :
  (forall f, In f d -> In f d') -> requested d st st' -> requested d' st st'.
Proof.
  intros H (reqs & E & F). exists reqs. split; [exact E |].
  eapply Forall_impl; [exact F |]. intros r. apply is_for_one_of_mono, H.
Qed.

Lemma listed_nil st : listed [] (completed_files st) (failed_files st) st.
Proof. exists []. cbn. rewrite !app_nil_r. split; [constructor | split; reflexivity]. Qed.

Lemma omap_app' {A B} (f : A -> option B) (l1 l2 : list A) :
  omap f (l1 ++ l2) = omap f l1 ++ omap f l2.
Proof.
  induction l1 as [| a l1 IH]; [reflexivity |]. cbn. destruct (f a); cbn; rewrite IH; reflexivity.
Qed.

Lemma listed_trans d1 d2 c f st1 st2 :
  listed d1 c f st1 -> listed d2 (completed_files st1) (failed_files st1) st2 ->
  listed (d1 ++ d2) c f st2.
Proof.
  intros (r1 & A1 & C1 & F1) (r2 & A2 & C2 & F2). exists (r1 ++ r2).
  split; [apply Forall2_app; assumption |].
  rewrite !omap_app', !app_assoc, <- C1, <- F1. split; assumption.
Qed.

(** What a batch leaves behind. *)
Definition batch_post (batch : list file_info) (st st' : state) : Prop :=
  listed batch (completed_files st) (failed_files st) st'
  /\ requested batch st st'
  /\ (forall c f n0 total, balanced c f n0 total st -> balanced c f n0 total st').

Ltac lookups :=
  repeat first [ rewrite lookup_insert_eq | rewrite lookup_insert_ne by discriminate ].
Ltac lookups_in H :=
  repeat first [ rewrite lookup_insert_eq in H | rewrite lookup_insert_ne in H by discriminate ].

Lemma migrate_batch_spec batch_idx batch_start_time batch st :
  after (migrate_batch cfg onelake clock average batch_idx batch_start_time batch) st
        (fun _ st' => batch_post batch st st') (fun st' => batch_post batch st st').
Proof.
  unfold migrate_batch.
  destruct (migrate_batch_async_spec batch st) as (rs & st1 & E & A & P).
  destruct (record_results_spec rs (0, 0) st1) as ([bs bf] & st2 & E2 & C & F & S1 & S2 & W).
  eapply after_returned; [exact E |]. eapply after_returned; [exact E2 |].
  cbn [fst snd] in S1, S2.
  assert (L : len rs = len batch) by (unfold len; apply Forall2_length in A; lia).
  pose proof (results_split rs) as Hsplit.
  assert (B : completed_files st2 = completed_files st ++ omap success_file rs
              /\ failed_files st2 = failed_files st ++ omap failure_entry rs
              /\ requested batch st st2
              /\ migration_stats st2 = migration_stats st).
  { destruct W as (W1 & _ & _ & _ & _ & W6). destruct P as (reqs & Fr & ->).
    cbn in C, F, W1, W6. repeat split; try assumption. exists reqs. split; assumption. }
  destruct B as (B1 & B2 & B3 & B4).
  set (T := fun st' : state =>
              completed_files st' = completed_files st2
              /\ failed_files st' = failed_files st2
              /\ sent st' = sent st2
              /\ (forall c f n0 total, balanced c f n0 total st -> balanced c f n0 total st')).
  assert (HT : forall st', T st' -> batch_post batch st st').
  { intros st' (T1 & T2 & T3 & T4). split; [| split; [| exact T4]].
    - exists rs. rewrite T1, T2. auto.
    - destruct B3 as (reqs & Es & Fr). exists reqs. rewrite T3. auto. }
  eapply after_weaken; [| intros a st'; apply HT | apply HT].
  assert (bad : forall key c f n0 total,
             migration_stats st2 !! key = None -> balanced c f n0 total st ->
             key = "processed_files" \/ key = "successful_uploads" \/ key = "failed_uploads"
             \/ key = "total_files" \/ key = "batches_completed" \/ key = "avg_upload_speed" ->
             False).
  { intros key c f n0 total N (K1 & K2 & K3 & K4 & [? K5] & [? K6]) Hk. rewrite B4 in N.
    destruct Hk as [-> | [-> | [-> | [-> | [-> | ->]]]]]; congruence. }
  cbv zeta.
  apply after_bind, after_add_stat;
    [intros vp Hp | intros N; repeat split; try reflexivity; intros; exfalso; eauto 10 using bad].
  flat.
  apply after_bind, after_add_stat;
    [intros vs Hs; flat_in Hs; lookups_in Hs
    | intros N; flat_in N; lookups_in N;
      repeat split; try reflexivity; intros; exfalso; eauto 10 using bad].
  flat.
  apply after_bind, after_add_stat;
    [intros vf Hf; flat_in Hf; lookups_in Hf
    | intros N; flat_in N; lookups_in N;
      repeat split; try reflexivity; intros; exfalso; eauto 10 using bad].
  flat.
  apply after_bind, after_add_stat;
    [intros vb Hb; flat_in Hb; lookups_in Hb
    | intros N; flat_in N; lookups_in N;
      repeat split; try reflexivity; intros; exfalso; eauto 10 using bad].
  flat. run_step. run_step. flat. run_step.
  apply after_stat;
    [intros va Ha; flat_in Ha; lookups_in Ha
    | intros N; flat_in N; lookups_in N;
      repeat split; try reflexivity; intros; exfalso; eauto 10 using bad].
  run_step. run_step. flat.
  assert (K : forall st',
             completed_files st' = completed_files st2 ->
             failed_files st' = failed_files st2 ->
             sent st' = sent st2 ->
             migration_stats st'
             = <["avg_upload_speed" := average va batch_idx (len batch)
                                               (clock (ticks st2) - batch_start_time)]>
                 (<["batches_completed" := vb + 1]>
                    (<["failed_uploads" := vf + bf]>
                       (<["successful_uploads" := vs + bs]>
                          (<["processed_files" := vp + len batch]> (migration_stats st2))))) ->
             T st').
  { intros st' E1 E2' Es E3. split; [exact E1 | split; [exact E2' | split; [exact Es |]]].
    intros c f n0 total (K1 & K2 & K3 & K4 & K5 & K6).
    unfold balanced. cbv zeta. rewrite E3, E1, E2', B1, B2. lookups.
    rewrite B4 in *. rewrite K1 in Hp. rewrite K2 in Hs. rewrite K3 in Hf.
    injection Hp as <-. injection Hs as <-. injection Hf as <-.
    unfold len in *. rewrite !length_app.
    repeat split; try (f_equal; lia); try (eexists; reflexivity). exact K4. }
  run_step.
  apply after_stat; [intros vq Hq | intros N; apply K; reflexivity].
  run_step.
  apply after_stat; [intros vt Ht | intros N; apply K; reflexivity].
  run_step.
  destruct (vt =? 0); run_step; [apply K; reflexivity |].
  run_step. run_step. flat.
  destruct (batch_idx mod 10 =? 0); [| run_step; apply K; reflexivity].
  unfold save_progress. run_step. run_step. flat.
  destruct (migration_log_error st2); run_step; apply K; reflexivity.
Qed.

Lemma batch_post_from (batch : list file_info) (st0 st st' : state) :
  completed_files st = completed_files st0 -> failed_files st = failed_files st0 ->
  sent st = sent st0 -> migration_stats st = migration_stats st0 ->
  batch_post batch st st' -> batch_post batch st0 st'.
Proof.
  intros E1 E2 E3 E4 (R & Q & K). unfold batch_post, requested, balanced in *.
  rewrite E1, E2 in R. rewrite E3 in Q. rewrite E1, E2, E4 in K. auto.
Qed.

Lemma batch_post_log (batch : list file_info) (st st' : state) r :
  batch_post batch st st' -> batch_post batch st (add_log r st').
Proof. intros H. exact H. Qed.

Lemma batch_step_spec total_batches batch_idx batch st :
  after (batch_step cfg onelake clock oauth_token average total_batches batch_idx batch) st
        (fun _ st' => batch_post batch st st') (fun st' => requested batch st st').
Proof.
  unfold batch_step. run_step. run_step. run_step. run_step. run_step. run_step. run_step.
  flat.
  assert (H : forall st1,
             completed_files st1 = completed_files st -> failed_files st1 = failed_files st ->
             sent st1 = sent st -> migration_stats st1 = migration_stats st ->
             after (logger "INFO"
                           "Processing batch {batch_idx + 1}/{len(batches)} ({len(batch)} files)"
                           [str_of_int (batch_idx + 1); str_of_int total_batches;
                            str_of_int (len batch)];;
                    try_except
                      (migrate_batch cfg onelake clock average batch_idx (clock (ticks st)) batch)
                      (fun e => logger "ERROR" "Batch {batch_idx + 1} failed: {e}"
                                       [str_of_int (batch_idx + 1); exn_msg e]))%fx
                   st1 (fun _ st' => batch_post batch st st')
                   (fun st' => requested batch st st')).
  { intros st1 E1 E2 E3 E4. run_step. run_step. run_step.
    eapply after_weaken; [apply migrate_batch_spec | |].
    - intros ? st'. apply batch_post_from; assumption.
    - intros st' P e. run_step. apply batch_post_log.
      revert P. apply batch_post_from; assumption. }
  destruct (1800 <? _).
  - run_step. apply after_get_fabric_token; [| apply requested_same; reflexivity].
    intros tok. run_step. run_step. run_step. flat. apply H; reflexivity.
  - run_step. apply H; reflexivity.
Qed.

Lemma batch_loop_spec total_batches batches :
  forall batch_idx st,
    after (batch_loop cfg onelake clock oauth_token average total_batches batch_idx batches) st
          (fun _ st' => batch_post (concat batches) st st')
          (fun st' => requested (concat batches) st st').
Proof.
  induction batches as [| batch rest IH]; intros batch_idx st.
  - cbn [batch_loop concat]. run_step. split; [apply listed_nil |].
    split; [apply requested_refl | auto].
  - cbn [batch_loop concat]. run_step.
    eapply after_weaken; [apply batch_step_spec | |].
    + intros ? st1 (R1 & Q1 & K1). cbv beta.
      eapply after_weaken; [apply IH | |].
      * intros ? st2 (R2 & Q2 & K2). split; [| split].
        -- eapply listed_trans; eassumption.
        -- eapply requested_trans; eassumption.
        -- auto.
      * intros st2 Q2. eapply requested_trans; eassumption.
    + intros st1 Q1. eapply requested_mono; [| exact Q1].
      intros f I. apply in_or_app. auto.
Qed.

(** **** Before the batches *)

Lemma scan_files_optimized_spec st :
  let same (st' : state) :=
    completed_files st' = completed_files st /\ failed_files st' = failed_files st
    /\ sent st' = sent st in
  after (scan_files_optimized clock) st (fun files st' => scanned st files /\ same st') same.
Proof.
  cbv zeta. unfold scan_files_optimized. run_step. run_step. run_step. run_step. flat.
  assert (W : forall st1,
             completed_files st1 = completed_files st -> failed_files st1 = failed_files st ->
             sent st1 = sent st -> walked st1 = walked st ->
             after (start_time <- now clock;;
                    st <- get;;
                    let files := walked st in
                    t <- now clock;;
                    let scan_time := t - start_time in
                    (if scan_time =? 0
                     then raise (Exn "ZeroDivisionError" "float division by zero")
                     else ret tt);;
                    logger "INFO"
                           "Scanned {len(files):,} files in {scan_time:.1f}s ({len(files)/scan_time:.0f} files/sec)"
                           [str_of_int (len files)];;
                    cache_time <- now clock;;
                    st <- get;;
                    match file_cache_error st with
                    | Some e => raise e
                    | None =>
                        modify (set_file_cache (Some (CacheJson (Some cache_time) (Some files))));;
                        ret files
                    end)%fx st1
                   (fun files st' =>
                      scanned st files
                      /\ completed_files st' = completed_files st
                      /\ failed_files st' = failed_files st /\ sent st' = sent st)
                   (fun st' =>
                      completed_files st' = completed_files st
                      /\ failed_files st' = failed_files st /\ sent st' = sent st)).
  { intros st1 E1 E2 E3 E4. run_step. run_step. run_step. run_step. cbv zeta.
    run_step. run_step. run_step. flat.
    destruct (_ =? 0); run_step; [auto |].
    run_step. run_step. run_step. run_step. run_step. run_step. flat.
    destruct (file_cache_error st1); run_step; [auto |].
    run_step. run_step. flat. rewrite E4. split; [left; reflexivity | auto]. }
  destruct (file_cache st) as [[[cache_time |] files | ] |] eqn:Ec.
  - unfold read_cache. run_step. run_step. run_step. run_step.
    destruct (_ <? 3600).
    + destruct files as [files |].
      * repeat run_step. flat. split; [right; eauto | auto].
      * run_step. intros e. run_step. run_step. apply W; reflexivity.
    + run_step. run_step. apply W; reflexivity.
  - unfold read_cache. run_step. run_step. run_step. intros e. run_step. run_step.
    apply W; reflexivity.
  - unfold read_cache. run_step. run_step. run_step. intros e. run_step. run_step.
    apply W; reflexivity.
  - run_step. run_step. apply W; reflexivity.
Qed.

Lemma fixed_filter_remaining_spec (processed_files : gset string) completed files st :
  (forall rp, rp ∈ processed_files <-> rp ∈ completed) ->
  after (filter_remaining processed_files files) st
        (fun remaining st' => st' = st /\ remaining = pending completed files)
        (fun st' => st' = st).
Proof.
  intros Hin. induction files as [| f rest IH]; cbn [filter_remaining].
  - run_step. split; reflexivity.
  - destruct (relative_path f) as [rp |] eqn:R; [| run_step; reflexivity].
    run_step. eapply after_weaken; [exact IH | | auto].
    intros remaining st' [-> ->]. run_step. split; [reflexivity |].
    unfold pending. cbn [List.filter]. rewrite R.
    destruct (decide (rp ∈ processed_files)) as [I | I].
    + rewrite bool_decide_eq_true_2 by (apply Hin, I). reflexivity.
    + rewrite bool_decide_eq_false_2 by (intros I'; apply I, Hin, I'). reflexivity.
Qed.

Lemma make_batches_concat {A} (b : Z) (l : list A) :
  0 < b ->
  concat (map (fun i => slice l i (i + b)) (range_step 0 (len l) b)) = l.
Proof.
  intros Hb. unfold range_step.
  replace (0 <? b) with true by (symmetry; apply Z.ltb_lt; exact Hb).
  rewrite Z.sub_0_r, map_map.
  rewrite (map_ext _ (chunk (Z.to_nat b) l)).
  - rewrite concat_chunks. cbn [Nat.mul drop]. apply take_ge.
    pose proof (Z.mul_succ_div_gt (len l + b - 1) b Hb).
    assert (0 <= (len l + b - 1) / b) by (apply Z.div_pos; unfold len; lia).
    unfold len in *. nia.
  - intros i. rewrite Z.add_0_l. rewrite slice_chunk_unclamped by lia.
    rewrite Nat2Z.id. reflexivity.
Qed.

Lemma make_batches_in {A} (b : Z) (l : list A) (steps : list Z) x :
  In x (concat (map (fun i => slice l i (i + b)) steps)) -> In x l.
Proof.
  intros H. apply in_concat in H as (batch & Hb & Hx).
  apply in_map_iff in Hb as (i & <- & _).
  apply list_elem_of_In. apply list_elem_of_In in Hx.
  eapply elem_of_sublist; [exact Hx | apply slice_sublist].
Qed.

(** **** The run *)

(** What a run that returns [stats] has done with the files [files] of
    the scan. *)
Definition run_post (resume : bool) (st : state) (files : list file_info)
           (stats : gmap string Z) (st' : state) : Prop :=
  let progress := progress_at_start resume (migration_log st) in
  let completed := TurboFixed.completed_files progress in
  let failed := TurboFixed.failed_files progress in
  let remaining := pending completed files in
  (remaining = [] ->
   stats = TurboFixed.stats progress
   /\ completed_files st' = completed /\ failed_files st' = failed)
  /\ (remaining <> [] ->
      stats = migration_stats st'
      /\ migration_log st'
         = Some (TurboFixed.Json
                   (TurboFixed.Progress (completed_files st') (failed_files st') stats))
      /\ (0 < batch_size cfg -> listed remaining completed failed st')
      /\ (TurboFixed.stats progress = ∅ ->
          balanced (len completed) (len failed)
                   (Z.of_nat (size (list_to_set completed : gset string)))
                   (len files) st')).

Lemma balanced_with (c f n0 total : Z) (st st' : state) key v :
  key <> "processed_files" -> key <> "successful_uploads" -> key <> "failed_uploads" ->
  key <> "total_files" -> key <> "batches_completed" -> key <> "avg_upload_speed" ->
  completed_files st' = completed_files st -> failed_files st' = failed_files st ->
  migration_stats st' = <[key := v]> (migration_stats st) ->
  balanced c f n0 total st -> balanced c f n0 total st'.
Proof.
  intros N1 N2 N3 N4 N5 N6 E1 E2 E3. unfold balanced. cbv zeta. rewrite E1, E2, E3.
  rewrite !lookup_insert_ne by assumption. auto.
Qed.

Lemma migrate_files_optimized_spec resume st :
  let completed :=
    TurboFixed.completed_files (progress_at_start resume (migration_log st)) in
  after (migrate_files_optimized cfg onelake clock oauth_token average resume) st
        (fun stats st' =>
           exists files,
             scanned st files /\ requested (pending completed files) st st'
             /\ run_post resume st files stats st')
        (fun st' =>
           exists files, scanned st files /\ requested (pending completed files) st st').
Proof.
  cbv zeta. unfold migrate_files_optimized. run_step. run_step. run_step. run_step.
  cbv zeta. flat.
  remember (progress_at_start resume (migration_log st)) as progress eqn:Hprogress.
  run_step. run_step. run_step.
  eapply after_weaken; [apply scan_files_optimized_spec | |]; cbv beta;
    [| intros st' (_ & _ & Es); exists (walked st); split;
       [left; reflexivity | apply requested_same; exact Es]].
  intros files st1 (Hscan & E1 & E2 & E3). flat_in E1. flat_in E2. flat_in E3.
  assert (Hscanned : scanned st files) by exact Hscan. clear Hscan.
  run_step.
  eapply after_weaken;
    [apply (fixed_filter_remaining_spec _ (TurboFixed.completed_files progress));
     intros rp; apply elem_of_list_to_set | |]; cbv beta;
    [| intros st' ->; exists files; split;
       [exact Hscanned | apply requested_same; exact E3]].
  intros remaining st' [-> ->].
  run_step. run_step.
  destruct (pending (TurboFixed.completed_files progress) files) as [| f0 rest] eqn:Hrem.
  { run_step. run_step. run_step. exists files. split; [exact Hscanned |]. flat.
    split; [apply requested_same; exact E3 |]. unfold run_post. cbv zeta.
    rewrite <- Hprogress, Hrem. split; [auto | intros []; reflexivity]. }
  rewrite <- Hrem.
  assert (Hne : pending (TurboFixed.completed_files progress) files <> [])
    by (rewrite Hrem; discriminate).
  clear f0 rest Hrem.
  set (remaining := pending (TurboFixed.completed_files progress) files) in *.
  run_step.
  destruct (batch_size cfg =? 0) eqn:Hb0;
    [run_step; exists files; split; [exact Hscanned | apply requested_same; exact E3] |].
  run_step. cbv zeta. run_step.
  apply after_get_fabric_token;
    [| exists files; split; [exact Hscanned | apply requested_same; exact E3]].
  intros tok. run_step. run_step. run_step. run_step.
  match goal with
  | |- after (bind _ ?k) _ ?Q ?R =>
      assert (H : forall st3,
                 completed_files st3 = TurboFixed.completed_files progress ->
                 failed_files st3 = TurboFixed.failed_files progress ->
                 sent st3 = sent st ->
                 (TurboFixed.stats progress = ∅ ->
                  balanced (len (TurboFixed.completed_files progress))
                           (len (TurboFixed.failed_files progress))
                           (Z.of_nat (size (list_to_set (TurboFixed.completed_files progress)
                                            : gset string)))
                           (len files) st3) ->
                 after (k tt) st3 Q R)
  end.
  { intros st3 C3 F3 S3 K3. cbv beta. run_step. run_step. run_step.
    eapply after_weaken; [apply batch_loop_spec | |]; cbv beta.
    2:{ intros st4 Q4. exists files. split; [exact Hscanned |].
        destruct Q4 as (reqs & Es & Fr). exists reqs. flat_in Es. rewrite S3 in Es.
        split; [exact Es |]. eapply Forall_impl; [exact Fr |]. intros r.
        apply is_for_one_of_mono. intros f. apply make_batches_in. }
    intros ? st4 (R4 & Q4 & K4).
    assert (Q : requested remaining st st4).
    { destruct Q4 as (reqs & Es & Fr). exists reqs. flat_in Es. rewrite S3 in Es.
      split; [exact Es |]. eapply Forall_impl; [exact Fr |]. intros r.
      apply is_for_one_of_mono. intros f. apply make_batches_in. }
    flat_in R4. rewrite C3, F3 in R4.
    assert (K : TurboFixed.stats progress = ∅ ->
                balanced (len (TurboFixed.completed_files progress))
                         (len (TurboFixed.failed_files progress))
                         (Z.of_nat (size (list_to_set (TurboFixed.completed_files progress)
                                          : gset string)))
                         (len files) st4).
    { intros Hf. apply K4. exact (K3 Hf). }
    clear K4 K3 Q4.
    assert (Hraise : forall st5, sent st5 = sent st4 ->
                                 exists files0,
                                   scanned st files0
                                   /\ requested (pending (TurboFixed.completed_files progress)
                                                         files0) st st5).
    { intros st5 E5. exists files. split; [exact Hscanned |].
      destruct Q as (reqs & Es & Fr). exists reqs. rewrite E5. auto. }
    run_step. run_step. run_step. run_step. run_step.
    unfold save_progress. run_step. run_step. flat.
    destruct (migration_log_error st4); run_step; [apply Hraise; reflexivity |].
    run_step. run_step. run_step.
    apply after_stat; [intros successful _ | intros _; apply Hraise; reflexivity].
    run_step.
    apply after_stat; [intros total _ | intros _; apply Hraise; reflexivity].
    run_step. run_step. run_step.
    apply after_stat; [intros speed _ | intros _; apply Hraise; reflexivity].
    run_step. run_step. run_step. run_step. run_step.
    exists files. split; [exact Hscanned |].
    split; [destruct Q as (reqs & Es & Fr); exists reqs; flat; auto |].
    unfold run_post. cbv zeta. rewrite <- Hprogress. fold remaining.
    split; [intros Hnil; contradiction |]. intros _. flat.
    split; [reflexivity |]. split; [reflexivity |]. split.
    - intros Hb. unfold listed. flat. unfold make_batches in R4.
      rewrite make_batches_concat in R4 by exact Hb. exact R4.
    - intros Hf. eapply (balanced_with _ _ _ _ st4 _ "end_time");
        [discriminate | discriminate | discriminate | discriminate | discriminate
         | discriminate | reflexivity | reflexivity | reflexivity | exact (K Hf)]. }
  run_step.
  destruct (decide (TurboFixed.stats progress = ∅)) as [Hfresh | Hold].
  - run_step. run_step. run_step. flat. apply H; flat; try assumption.
    intros _. unfold balanced. cbv zeta. flat. lookups. rewrite E1, E2.
    repeat split; try (f_equal; lia); eexists; reflexivity.
  - run_step. apply H; flat; try assumption. intros Hf. contradiction.
Qed.

End FixedMigrator.

(** X11. In the optimized migrator no item of a batch goes unrecorded.
    [migrate_batch_async] never raises and hands back one result per item,
    in the order of the items: for an item with both keys a success or a
    failure under its relative path, and for an item without ['path'] or
    ['relative_path'] a failure without file whose error is the text of the
    [KeyError].  The result loop then appends each success to
    ['completed_files'] and each failure to ['failed_files'], the failures
    without file under the name "unknown"; the two counts of the batch add
    up to its length. *)
Theorem optimized_batch_records_every_item
        (cfg : OptimizedOneLakeMigrator.settings) (onelake : request -> reply)
        (clock : nat -> Z) (batch : list OptimizedOneLakeMigrator.file_info)
        (st : OptimizedOneLakeMigrator.state) :
  exists results st1 counts st2,
    OptimizedOneLakeMigrator.migrate_batch_async cfg onelake batch st = (Return results, st1)
    /\ Forall2 about batch results
    /\ OptimizedOneLakeMigrator.record_results clock (0, 0) results st1 = (Return counts, st2)
    /\ OptimizedOneLakeMigrator.completed_files st2
       = (OptimizedOneLakeMigrator.completed_files st ++ omap success_file results)%list
    /\ OptimizedOneLakeMigrator.failed_files st2
       = (OptimizedOneLakeMigrator.failed_files st ++ omap failure_entry results)%list
    /\ fst counts = len (omap success_file results)
    /\ snd counts = len (omap failure_entry results)
    /\ fst counts + snd counts = len batch.
Proof.
  destruct (migrate_batch_async_spec cfg onelake batch st) as (rs & st1 & E & A & P).
  destruct (record_results_spec clock rs (0, 0) st1) as (c & st2 & E2 & C & F & S1 & S2 & _).
  assert (K : OptimizedOneLakeMigrator.completed_files st1 = OptimizedOneLakeMigrator.completed_files st
              /\ OptimizedOneLakeMigrator.failed_files st1 = OptimizedOneLakeMigrator.failed_files st).
  { destruct P as (reqs & _ & ->). split; reflexivity. }
  destruct K as [K1 K2]. rewrite K1 in C. rewrite K2 in F. cbn [fst snd] in S1, S2.
  pose proof (results_split rs) as R. pose proof A as A0. apply Forall2_length in A. unfold len in *.
  exists rs, st1, c, st2.
  split; [exact E |]. split; [exact A0 |].
  split; [exact E2 |]. split; [exact C |]. split; [exact F |].
  split; [lia |]. split; lia.
Qed.

(** A small world for the optimized migrator: three files on disk, of
    which [a.txt] was completed by an earlier run and [c.txt] cannot be
    opened; batches of two; a service that accepts every request. *)
Module FixedDemo.
Import OptimizedOneLakeMigrator.

Definition cfg : settings :=
  Settings "ws" "lh" (Some "token") "/Files" 2.

Definition onelake (r : request) : reply := Reply 200 "".

Definition clock (n : nat) : Z := 10 * Z.of_nat n.

Definition average (avg batch_idx n batch_time : Z) : Z := 0.

Definition file (name : string) : file_info :=
  FileInfo (Some ("/src/" +:+ name)) (Some name) (Some 1) (Some 0).

Definition st0 : state :=
  State [] [] ∅ "" 0
        (Some (TurboFixed.Json (TurboFixed.Progress ["a.txt"] [] ∅))) None
        None None
        [file "a.txt"; file "b.txt"; file "c.txt"]
        (<["/src/a.txt" := Readable "A"]> (<["/src/b.txt" := Readable "B"]> ∅))
        [] [] 0.

Abbreviation run :=
  (migrate_files_optimized cfg onelake clock (Return "token") average true st0).

Abbreviation stats :=
  (match fst run with
   | Return s => s
   | Raise _ => ∅
   end).

End FixedDemo.

Lemma fixed_demo_returns : FixedDemo.run = (Return FixedDemo.stats, snd FixedDemo.run).
Proof.
  assert (H : match fst FixedDemo.run with Return _ => true | Raise _ => false end = true)
    by (vm_compute; reflexivity).
  destruct FixedDemo.run as [[s | e] st']; cbn [fst snd] in *; [reflexivity | discriminate].
Qed.

(** X12. A run of the optimized migrator that returns has recorded every
    pending file exactly once.  With a positive batch size, the files of
    the scan whose relative path is not in the completed list loaded at the
    start each get one result, in their order, and the progress lists at
    the end are the loaded lists followed by the successes and by the
    failures of these results; nothing else is added and nothing loaded is
    dropped. *)
Theorem optimized_run_records_every_pending_file
        (cfg : OptimizedOneLakeMigrator.settings) (onelake : request -> reply)
        (clock : nat -> Z) (oauth_token : outcome string) (average : Z -> Z -> Z -> Z -> Z)
        (resume : bool) (st st' : OptimizedOneLakeMigrator.state) (stats : gmap string Z) :
  0 < OptimizedOneLakeMigrator.batch_size cfg ->
  OptimizedOneLakeMigrator.migrate_files_optimized cfg onelake clock oauth_token average
                                                   resume st
  = (Return stats, st') ->
  let progress :=
    OptimizedOneLakeMigrator.progress_at_start resume
                                               (OptimizedOneLakeMigrator.migration_log st) in
  exists files results,
    scanned st files
    /\ Forall2 about (pending (TurboFixed.completed_files progress) files) results
    /\ OptimizedOneLakeMigrator.completed_files st'
       = (TurboFixed.completed_files progress ++ omap success_file results)%list
    /\ OptimizedOneLakeMigrator.failed_files st'
       = (TurboFixed.failed_files progress ++ omap failure_entry results)%list.
Proof.
  intros Hb E progress.
  pose proof (migrate_files_optimized_spec cfg onelake clock oauth_token average resume st) as H.
  cbv zeta in H. unfold after in H. rewrite E in H.
  destruct H as (files & Hscan & _ & Hnil & Hne). fold progress in Hnil, Hne.
  exists files.
  destruct (pending (TurboFixed.completed_files progress) files) as [| f rest] eqn:Hp.
  - destruct (Hnil eq_refl) as (_ & C & F). exists [].
    split; [exact Hscan |]. split; [constructor |]. cbn [omap].
    rewrite !app_nil_r. split; assumption.
  - destruct (Hne ltac:(discriminate)) as (_ & _ & R & _).
    destruct (R Hb) as (results & A & C & F). exists results. auto.
Qed.

Lemma optimized_run_records_every_pending_file_witness :
  exists files results,
    scanned FixedDemo.st0 files
    /\ Forall2 about (pending ["a.txt"] files) results
    /\ OptimizedOneLakeMigrator.completed_files (snd FixedDemo.run)
       = (["a.txt"] ++ omap success_file results)%list
    /\ OptimizedOneLakeMigrator.failed_files (snd FixedDemo.run)
       = ([] ++ omap failure_entry results)%list.
Proof.
  apply (optimized_run_records_every_pending_file
           FixedDemo.cfg FixedDemo.onelake FixedDemo.clock (Return "token")
           FixedDemo.average true FixedDemo.st0 (snd FixedDemo.run) FixedDemo.stats).
  - reflexivity.
  - exact fixed_demo_returns.
Defined.

(** X13. The optimized migrator uploads nothing that was completed before.
    Whatever the outcome of a run, every request it sends is one of the
    three requests (create, append, flush) of a file of the scan whose
    relative path is not in the completed list loaded at the start. *)
Theorem optimized_run_uploads_only_pending
        (cfg : OptimizedOneLakeMigrator.settings) (onelake : request -> reply)
        (clock : nat -> Z) (oauth_token : outcome string) (average : Z -> Z -> Z -> Z -> Z)
        (resume : bool) (st : OptimizedOneLakeMigrator.state) :
  let progress :=
    OptimizedOneLakeMigrator.progress_at_start resume
                                               (OptimizedOneLakeMigrator.migration_log st) in
  let st' :=
    snd (OptimizedOneLakeMigrator.migrate_files_optimized cfg onelake clock oauth_token
                                                          average resume st) in
  exists files reqs,
    scanned st files
    /\ OptimizedOneLakeMigrator.sent st' = (OptimizedOneLakeMigrator.sent st ++ reqs)%list
    /\ Forall (fun r =>
                 exists f relative_path,
                   In f files
                   /\ OptimizedOneLakeMigrator.relative_path f = Some relative_path
                   /\ ~ In relative_path (TurboFixed.completed_files progress)
                   /\ is_for cfg relative_path r) reqs.
Proof.
  intros progress st'.
  pose proof (migrate_files_optimized_spec cfg onelake clock oauth_token average resume st) as H.
  cbv zeta in H. unfold after in H. subst st'.
  assert (G : forall files st1,
             scanned st files ->
             requested cfg (pending (TurboFixed.completed_files progress) files) st st1 ->
             exists files reqs,
               scanned st files
               /\ OptimizedOneLakeMigrator.sent st1
                  = (OptimizedOneLakeMigrator.sent st ++ reqs)%list
               /\ Forall (fun r =>
                            exists f relative_path,
                              In f files
                              /\ OptimizedOneLakeMigrator.relative_path f = Some relative_path
                              /\ ~ In relative_path (TurboFixed.completed_files progress)
                              /\ is_for cfg relative_path r) reqs).
  { intros files st1 Hscan (reqs & Es & Fr). exists files, reqs.
    split; [exact Hscan |]. split; [exact Es |].
    eapply Forall_impl; [exact Fr |]. intros r (f & rp & I & R & Hfor). exists f, rp.
    unfold pending in I. apply filter_In in I as [I Hkeep]. rewrite R in Hkeep.
    split; [exact I |]. split; [exact R |]. split; [| exact Hfor].
    intros Hin. apply list_elem_of_In in Hin.
    rewrite bool_decide_eq_true_2 in Hkeep by exact Hin. discriminate. }
  destruct (OptimizedOneLakeMigrator.migrate_files_optimized _ _ _ _ _ _ _) as [[stats | e] st1];
    cbn [snd].
  - destruct H as (files & Hscan & Q & _). eapply G; eassumption.
  - destruct H as (files & Hscan & Q). eapply G; eassumption.
Qed.

(** X14. In a run of the optimized migrator that starts without statistics
    and uploads something, the statistics returned agree with the progress
    lists: [successful_uploads] is the number of distinct completed files
    loaded plus the number of entries the run added to ['completed_files'],
    [failed_uploads] is the number of entries it added to ['failed_files'],
    [processed_files] is their sum, [total_files] is the number of files of
    the scan, and the progress file holds the two lists and the statistics
    as they are at the end. *)
Theorem optimized_fresh_run_balances
        (cfg : OptimizedOneLakeMigrator.settings) (onelake : request -> reply)
        (clock : nat -> Z) (oauth_token : outcome string) (average : Z -> Z -> Z -> Z -> Z)
        (resume : bool) (st st' : OptimizedOneLakeMigrator.state) (stats : gmap string Z) :
  OptimizedOneLakeMigrator.migrate_files_optimized cfg onelake clock oauth_token average
                                                   resume st
  = (Return stats, st') ->
  TurboFixed.stats (OptimizedOneLakeMigrator.progress_at_start
                      resume (OptimizedOneLakeMigrator.migration_log st)) = ∅ ->
  stats <> ∅ ->
  let progress :=
    OptimizedOneLakeMigrator.progress_at_start resume
                                               (OptimizedOneLakeMigrator.migration_log st) in
  let counted : Z :=
    Z.of_nat (size (list_to_set (TurboFixed.completed_files progress) : gset string)) in
  let successes :=
    len (OptimizedOneLakeMigrator.completed_files st')
    - len (TurboFixed.completed_files progress) in
  let failures :=
    len (OptimizedOneLakeMigrator.failed_files st') - len (TurboFixed.failed_files progress) in
  stats !! "successful_uploads" = Some (counted + successes)
  /\ stats !! "failed_uploads" = Some failures
  /\ stats !! "processed_files" = Some (counted + successes + failures)
  /\ (exists files, scanned st files /\ stats !! "total_files" = Some (len files))
  /\ OptimizedOneLakeMigrator.migration_log st'
     = Some (TurboFixed.Json
               (TurboFixed.Progress (OptimizedOneLakeMigrator.completed_files st')
                                    (OptimizedOneLakeMigrator.failed_files st') stats)).
Proof.
  intros E Hfresh Hstats progress counted successes failures.
  pose proof (migrate_files_optimized_spec cfg onelake clock oauth_token average resume st) as H.
  cbv zeta in H. unfold after in H. rewrite E in H.
  destruct H as (files & Hscan & _ & Hnil & Hne). fold progress in Hnil, Hne.
  destruct (pending (TurboFixed.completed_files progress) files) as [| f rest] eqn:Hp.
  - destruct (Hnil eq_refl) as (Es & _). fold progress in Hfresh. congruence.
  - destruct (Hne ltac:(discriminate)) as (Es & Hlog & _ & K).
    destruct (K Hfresh) as (K1 & K2 & K3 & K4 & _). rewrite <- Es in K1, K2, K3, K4.
    split; [exact K2 |]. split; [exact K3 |]. split; [exact K1 |].
    split; [exists files; auto | exact Hlog].
Qed.

Lemma optimized_fresh_run_balances_witness :
  FixedDemo.stats !! "successful_uploads" = Some 2
  /\ FixedDemo.stats !! "failed_uploads" = Some 1
  /\ FixedDemo.stats !! "processed_files" = Some 3.
Proof.
  destruct (optimized_fresh_run_balances
              FixedDemo.cfg FixedDemo.onelake FixedDemo.clock (Return "token")
              FixedDemo.average true FixedDemo.st0 (snd FixedDemo.run) FixedDemo.stats)
    as (H1 & H2 & H3 & _).
  - exact fixed_demo_returns.
  - reflexivity.
  - intros E. apply (f_equal (fun m : gmap string Z => m !! "total_files")) in E.
    vm_compute in E. discriminate.
  - split; [| split].
    + etransitivity; [exact H1 | vm_compute; reflexivity].
    + etransitivity; [exact H2 | vm_compute; reflexivity].
    + etransitivity; [exact H3 | vm_compute; reflexivity].
Defined.

(** ** The migrator with token refresh: the token and one upload *)

Section RefreshingUpload.
Import OneLakeMigratorWithRefresh.
Local Open Scope list_scope.
Variable cfg : settings.
Variable os_sep : ascii.
Variable onelake : nat -> request -> reply.
Variable powershell : nat -> script_run.
Variable clock : nat -> Z.

(** [ends m st Q R]: run from [st], [m] returns a value and a state that
    satisfy [Q], or raises in a state that satisfies [R]. *)
Definition ends {A} (m : M A) (st : state) (Q : A -> state -> Prop) (R : state -> Prop) : Prop :=
  match m st with
  | (Return a, st') => Q a st'
  | (Raise _, st') => R st'
  end.

Lemma ends_ret {A} (a : A) st (Q : A -> state -> Prop) R : Q a st -> ends (ret a) st Q R.
Proof. intros H. exact H. Qed.

Lemma ends_raise {A} e st (Q : A -> state -> Prop) (R : state -> Prop) :
  R st -> ends (raise e) st Q R.
Proof. intros H. exact H. Qed.

Lemma ends_bind {A B} (m : M A) (k : A -> M B) st (Q : B -> state -> Prop) R :
  ends m st (fun a st1 => ends (k a) st1 Q R) R -> ends (bind m k) st Q R.
Proof. unfold ends, bind. destruct (m st) as [[a | e] st1]; auto. Qed.

Lemma ends_try {A} (m : M A) (h : exn -> M A) st (Q : A -> state -> Prop) R :
  ends m st Q (fun st1 => forall e, ends (h e) st1 Q R) -> ends (try_except m h) st Q R.
Proof.
  unfold ends, try_except. destruct (m st) as [[a | e] st1]; intros H; [exact H | apply H].
Qed.

Lemma ends_weaken {A} (m : M A) st (Q Q' : A -> state -> Prop) (R R' : state -> Prop) :
  ends m st Q R -> (forall a st', Q a st' -> Q' a st') -> (forall st', R st' -> R' st') ->
  ends m st Q' R'.
Proof. unfold ends. destruct (m st) as [[a | e] st1]; auto. Qed.

Lemma ends_get st (Q : state -> state -> Prop) R : Q st st -> ends get st Q R.
Proof. intros H. exact H. Qed.

Lemma ends_modify f st (Q : unit -> state -> Prop) R : Q tt (f st) -> ends (modify f) st Q R.
Proof. intros H. exact H. Qed.

Lemma ends_logger lvl tpl fs st (Q : unit -> state -> Prop) R :
  Q tt (add_log (Log lvl tpl fs) st) -> ends (logger lvl tpl fs) st Q R.
Proof. intros H. exact H. Qed.

Lemma ends_now st (Q : Z -> state -> Prop) R :
  Q (clock (ticks st)) (tick st) -> ends (now clock) st Q R.
Proof. intros H. exact H. Qed.

Ltac ar_step :=
  cbv beta iota;
  lazymatch goal with
  | |- ends (bind _ _) _ _ _ => apply ends_bind
  | |- ends (ret _) _ _ _ => apply ends_ret
  | |- ends (raise _) _ _ _ => apply ends_raise
  | |- ends get _ _ _ => apply ends_get
  | |- ends (logger _ _ _) _ _ _ => apply ends_logger
  | |- ends (modify _) _ _ _ => apply ends_modify
  | |- ends (now _) _ _ _ => apply ends_now
  | |- ends (try_except _ _) _ _ _ => apply ends_try
  end.

Ltac ar_flat :=
  cbn [set_access_token set_token_timestamp script_ran script_crashed add_sent add_log tick
       access_token token_timestamp completed_files env_file script_exists script_runs
       local_files sent log ticks].
Ltac ar_flat_in H :=
  cbn [set_access_token set_token_timestamp script_ran script_crashed add_sent add_log tick
       access_token token_timestamp completed_files env_file script_exists script_runs
       local_files sent log ticks] in H.

(** *** The token *)

(** What a call leaves alone: the progress keys, the source files, the
    script, and the requests sent. *)
Definition quiet (st st' : state) : Prop :=
  completed_files st' = completed_files st /\ local_files st' = local_files st
  /\ script_exists st' = script_exists st /\ sent st' = sent st.

(** The token, its time and the environment file are as before, and the
    script was not run. *)
Definition same_token (st st' : state) : Prop :=
  access_token st' = access_token st /\ token_timestamp st' = token_timestamp st
  /\ env_file st' = env_file st /\ script_runs st' = script_runs st.

(** The run of the script that renews the token: it exists, ends with
    code 0 and leaves an environment file with the token [tok]. *)
Definition renews (st : state) (tok : string) : Prop :=
  script_exists st = true
  /\ exists stderr lines,
      powershell (script_runs st) = Ran 0 stderr (EnvLines lines)
      /\ find_token lines = Some tok.

Lemma quiet_refl st : quiet st st.
Proof. repeat split. Qed.

Lemma same_token_refl st : same_token st st.
Proof. repeat split. Qed.

Lemma get_access_token_spec st :
  ends (get_access_token) st
       (fun loaded st' =>
          quiet st st' /\ token_timestamp st' = token_timestamp st
          /\ env_file st' = env_file st /\ script_runs st' = script_runs st
          /\ ticks st' = ticks st
          /\ match loaded with
             | Some true =>
                 exists lines tok,
                   env_file st = EnvLines lines /\ find_token lines = Some tok
                   /\ access_token st' = Some tok
             | _ =>
                 access_token st' = access_token st
                 /\ forall lines, env_file st = EnvLines lines -> find_token lines = None
             end)
       (fun _ => False).
Proof.
  unfold get_access_token. ar_step. ar_step.
  destruct (env_file st) as [lines | | e] eqn:E.
  - destruct (find_token lines) as [tok |] eqn:F.
    + repeat ar_step. ar_flat. repeat split; eauto.
    + ar_step. repeat split; try assumption. intros lines' [= <-]. exact F.
  - repeat ar_step. ar_flat. repeat split; try assumption. intros lines [=].
  - repeat ar_step. ar_flat. repeat split; try assumption. intros lines [=].
Qed.

(** [refresh_access_token] never raises.  It returns [True] exactly when
    the script renews the token, and then holds the new token with the time
    of the refresh; otherwise the token and its time stay as they were. *)
Lemma refresh_access_token_spec st :
  ends (refresh_access_token powershell clock) st
       (fun refreshed st' =>
          quiet st st'
          /\ (script_runs st' <= S (script_runs st))%nat
          /\ (script_exists st = false -> script_runs st' = script_runs st)
          /\ if refreshed
             then exists tok, renews st tok /\ access_token st' = Some tok
                              /\ token_timestamp st' = Some (clock (ticks st))
             else access_token st' = access_token st
                  /\ token_timestamp st' = token_timestamp st
                  /\ forall tok, ~ renews st tok)
       (fun _ => False).
Proof.
  unfold refresh_access_token. ar_step. ar_step. ar_step. ar_step. ar_step. ar_flat.
  destruct (script_exists st) eqn:Ex.
  2:{ repeat ar_step. ar_flat. repeat split; try lia.
      intros tok [H _]. congruence. }
  ar_step. unfold run_script. ar_step. ar_step. ar_flat.
  destruct (powershell (script_runs st)) as [returncode stderr env | e] eqn:P.
  2:{ repeat ar_step. intros e'. repeat ar_step. ar_flat. repeat split; try lia; try discriminate.
      intros tok (_ & stderr & lines & E' & _). rewrite P in E'. discriminate. }
  repeat ar_step. ar_flat.
  destruct (returncode =? 0) eqn:Hrc.
  2:{ repeat ar_step. ar_flat. repeat split; try lia; try discriminate.
      intros tok (_ & stderr' & lines & E' & _). rewrite P in E'.
      injection E' as -> _ _. discriminate. }
  apply Z.eqb_eq in Hrc. subst returncode.
  ar_step. ar_step. ar_step.
  eapply ends_weaken; [apply get_access_token_spec | | intros ? []].
  intros loaded st1 ((Q1 & Q2 & Q3 & Q4) & T1 & T2 & T3 & T4 & L). ar_flat_in Q1. ar_flat_in Q2.
  ar_flat_in Q3. ar_flat_in Q4. ar_flat_in T1. ar_flat_in T2. ar_flat_in T3. ar_flat_in T4.
  destruct loaded as [[|] |].
  - destruct L as (lines & tok & El & F & A). ar_flat_in El.
    repeat ar_step. ar_flat. rewrite T4.
    repeat split; try assumption; try lia; try discriminate.
    exists tok. split; [| split; [exact A | reflexivity]].
    split; [exact Ex |]. exists stderr, lines. subst env. rewrite <- El. auto.
  - destruct L as (A & N). ar_flat_in A. ar_flat_in N.
    ar_step. repeat split; try assumption; try lia; try discriminate.
    intros tok (_ & stderr' & lines & E' & F). rewrite P in E'. injection E' as _ ->.
    rewrite (N lines eq_refl) in F. discriminate.
  - destruct L as (A & N). ar_flat_in A. ar_flat_in N.
    ar_step. repeat split; try assumption; try lia; try discriminate.
    intros tok (_ & stderr' & lines & E' & F). rewrite P in E'. injection E' as _ ->.
    rewrite (N lines eq_refl) in F. discriminate.
Qed.

(** The token is young whatever the clock shows. *)
Definition unexpired (st : state) : Prop :=
  exists timestamp,
    token_timestamp st = Some timestamp
    /\ forall n, clock n - timestamp <= TOKEN_REFRESH_MINUTES cfg * 60.

(** [is_token_expired] would say yes in [st]. *)
Definition expired (st : state) : Prop :=
  match token_timestamp st with
  | None => True
  | Some timestamp => TOKEN_REFRESH_MINUTES cfg * 60 < clock (ticks st) - timestamp
  end.

Lemma unexpired_not_expired st : unexpired st -> ~ expired st.
Proof.
  intros (ts & E & H) X. unfold expired in X. rewrite E in X. specialize (H (ticks st)). lia.
Qed.

Lemma unexpired_same st st' : token_timestamp st' = token_timestamp st -> unexpired st -> unexpired st'.
Proof. intros E (ts & T & H). exists ts. rewrite E. auto. Qed.

(** [ensure_valid_token] never raises and sends nothing.  With a token
    that is not expired it answers [True] and touches neither the token nor
    the script; with an expired one it answers what the refresh answers. *)
Lemma ensure_valid_token_spec st :
  ends (ensure_valid_token cfg powershell clock) st
       (fun valid st' =>
          quiet st st'
          /\ (script_runs st' <= S (script_runs st))%nat
          /\ (~ expired st -> valid = true /\ same_token st st')
          /\ (expired st ->
              if valid
              then exists tok, renews st tok /\ access_token st' = Some tok
                               /\ is_Some (token_timestamp st')
              else access_token st' = access_token st
                   /\ token_timestamp st' = token_timestamp st
                   /\ forall tok, ~ renews st tok))
       (fun _ => False).
Proof.
  unfold ensure_valid_token, is_token_expired. ar_step. ar_step. ar_step.
  assert (Hrefresh : forall st1,
             quiet st st1 -> script_runs st1 = script_runs st ->
             access_token st1 = access_token st -> token_timestamp st1 = token_timestamp st ->
             expired st ->
             ends (logger "INFO" "Token refresh needed..." [];;
                   refreshed <- refresh_access_token powershell clock;;
                   if negb refreshed
                   then logger "ERROR" "Failed to refresh token" [];; ret false
                   else ret true)%ar st1
                  (fun valid st' =>
                     quiet st st'
                     /\ (script_runs st' <= S (script_runs st))%nat
                     /\ (~ expired st -> valid = true /\ same_token st st')
                     /\ (expired st ->
                         if valid
                         then exists tok, renews st tok /\ access_token st' = Some tok
                                          /\ is_Some (token_timestamp st')
                         else access_token st' = access_token st
                              /\ token_timestamp st' = token_timestamp st
                              /\ forall tok, ~ renews st tok))
                  (fun _ => False)).
  { intros st1 (Q1 & Q2 & Q3 & Q4) Hruns Htok Hts Hexp. ar_step. ar_step. ar_step.
    eapply ends_weaken; [apply refresh_access_token_spec | | intros ? []].
    intros refreshed st2 ((R1 & R2 & R3 & R4) & Rr & _ & Hr).
    ar_flat_in R1. ar_flat_in R2. ar_flat_in R3. ar_flat_in R4. ar_flat_in Rr.
    assert (Hren : forall tok, renews (add_log (Log "INFO" "Token refresh needed..." []) st1) tok
                               <-> renews st tok).
    { intros tok. unfold renews. ar_flat. rewrite Q3, Hruns. reflexivity. }
    destruct refreshed; cbn [negb]; repeat ar_step; ar_flat.
    - destruct Hr as (tok & Hn & A & T). ar_flat_in A. ar_flat_in T.
      split; [unfold quiet; ar_flat; repeat split; congruence |]. split; [lia |].
      split; [intros N; contradiction |]. intros _. exists tok.
      split; [apply Hren, Hn |]. split; [exact A |]. rewrite T. eauto.
    - destruct Hr as (A & T & Hn). ar_flat_in A. ar_flat_in T.
      split; [unfold quiet; ar_flat; repeat split; congruence |]. split; [lia |].
      split; [intros N; contradiction |]. intros _.
      split; [congruence |]. split; [congruence |]. intros tok X. apply (Hn tok), Hren, X. }
  destruct (token_timestamp st) as [timestamp |] eqn:Ets.
  - ar_step. ar_step. ar_step. ar_flat.
    destruct (TOKEN_REFRESH_MINUTES cfg * 60 <? clock (ticks st) - timestamp) eqn:Hlate.
    + apply Hrefresh;
        [unfold quiet; ar_flat; repeat split | reflexivity | reflexivity
         | ar_flat; first [reflexivity | exact Ets] |].
      unfold expired. rewrite Ets. apply Z.ltb_lt, Hlate.
    + ar_step. split; [unfold quiet; ar_flat; repeat split |]. split; [ar_flat; lia |].
      split; [intros _; split; [reflexivity | unfold same_token; ar_flat; repeat split] |].
      intros X. unfold expired in X. rewrite Ets in X. apply Z.ltb_ge in Hlate. lia.
  - ar_step. apply Hrefresh;
      [unfold quiet; ar_flat; repeat split | reflexivity | reflexivity
         | ar_flat; first [reflexivity | exact Ets] |].
    unfold expired. rewrite Ets. exact I.
Qed.

(** *** One upload *)

Lemma send_spec (with_token : option string -> request) st :
  let r := with_token (access_token st) in
  ends (send onelake with_token) st
       (fun response st' =>
          st' = add_sent r st
          /\ onelake (length (sent st)) r = Reply (fst response) (snd response))
       (fun st' => st' = add_sent r st /\ exists e, onelake (length (sent st)) r = NetError e).
Proof.
  cbv zeta. unfold send. ar_step. ar_step. ar_step. ar_step. ar_flat.
  destruct (onelake (length (sent st)) (with_token (access_token st))) as [status text | e];
    ar_step; eauto.
Qed.

(** What one step of the upload does to the state: one request, or after a
    401 the same request twice, the second with the token as it is then. *)
Definition stepped (with_token : option string -> request) (st st' : state) : Prop :=
  completed_files st' = completed_files st /\ local_files st' = local_files st
  /\ script_exists st' = script_exists st
  /\ (script_runs st' <= S (script_runs st))%nat
  /\ (exists reqs,
         sent st' = sent st ++ reqs
         /\ (reqs = [with_token (access_token st)]
             \/ reqs = [with_token (access_token st); with_token (access_token st')]))
  /\ (unexpired st ->
      same_token st st'
      /\ forall text,
          onelake (length (sent st)) (with_token (access_token st)) = Reply 401 text ->
          sent st' = sent st ++ [with_token (access_token st); with_token (access_token st)]).

Lemma step_with_refresh_spec warn step ok relative_path with_token st :
  ends (step_with_refresh cfg onelake powershell clock warn step ok relative_path with_token) st
       (fun failed st' =>
          stepped with_token st st'
          /\ match failed with
             | Some result => exists error, result = Failed relative_path error
             | None =>
                 last (sent st') = Some (with_token (access_token st'))
                 /\ exists status text,
                     onelake (Nat.pred (length (sent st'))) (with_token (access_token st'))
                     = Reply status text
                     /\ status_in status ok = true
             end)
       (fun st' => stepped with_token st st').
Proof.
  unfold step_with_refresh. ar_step.
  eapply ends_weaken; [apply send_spec | |]; cbv beta.
  2:{ intros st' (-> & e & E). unfold stepped. ar_flat. repeat split; try lia.
      - eexists. split; [reflexivity | left; reflexivity].
      - intros text E'. rewrite E in E'. discriminate. }
  intros [status error_text] st1 (-> & E). cbn [fst snd] in E. cbv beta iota.
  destruct (status =? 401) eqn:H401.
  2:{ assert (S1 : stepped with_token st (add_sent (with_token (access_token st)) st)).
      { unfold stepped. ar_flat. repeat split; try lia.
        - eexists. split; [reflexivity | left; reflexivity].
        - intros text E'. rewrite E in E'. injection E' as -> _. discriminate. }
      destruct (status_in status ok) eqn:Hok; cbn [negb]; ar_step.
      - split; [exact S1 |]. ar_flat. split; [apply last_snoc |].
        exists status, error_text. rewrite length_app. cbn [length].
        replace (Nat.pred (length (sent st) + 1)) with (length (sent st)) by lia. auto.
      - split; [exact S1 | eauto]. }
  apply Z.eqb_eq in H401. subst status.
  ar_step.
  assert (Hlog : forall st1,
             st1 = add_sent (with_token (access_token st)) st
             \/ (exists r, st1 = add_log r (add_sent (with_token (access_token st)) st)) ->
             quiet (add_sent (with_token (access_token st)) st) st1
             /\ same_token st st1 /\ ticks st1 = ticks st).
  { intros st1 [-> | [r ->]]; unfold quiet, same_token; ar_flat; repeat split. }
  assert (Hrest : forall st1,
             quiet (add_sent (with_token (access_token st)) st) st1 ->
             same_token st st1 -> ticks st1 = ticks st ->
             ends (valid <- ensure_valid_token cfg powershell clock;;
                   if valid
                   then
                     retry_response <- send onelake with_token;;
                     let '(status, error_text) := retry_response in
                     if negb (status_in status ok)
                     then ret (Some (Failed relative_path
                                            (step +:+ " failed after refresh: HTTP "
                                               +:+ str_of_int status +:+ " - " +:+ error_text)))
                     else ret None
                   else ret (Some (Failed relative_path "Token refresh failed")))%ar st1
                  (fun failed st' =>
                     stepped with_token st st'
                     /\ match failed with
                        | Some result => exists error, result = Failed relative_path error
                        | None =>
                            last (sent st') = Some (with_token (access_token st'))
                            /\ exists status text,
                                onelake (Nat.pred (length (sent st')))
                                        (with_token (access_token st'))
                                = Reply status text
                                /\ status_in status ok = true
                        end)
                  (fun st' => stepped with_token st st')).
  { intros st1 (Q1 & Q2 & Q3 & Q4) (T1 & T2 & T3 & T4) Hticks. ar_flat_in Q1. ar_flat_in Q2.
    ar_flat_in Q3. ar_flat_in Q4. ar_step.
    eapply ends_weaken; [apply ensure_valid_token_spec | | intros ? []].
    intros valid st2 ((V1 & V2 & V3 & V4) & Vr & Vfresh & Vexp). cbv beta.
    assert (Hexp : expired st1 <-> expired st)
      by (unfold expired; rewrite T2, Hticks; reflexivity).
    assert (Hun : unexpired st -> same_token st st2 /\ valid = true).
    { intros U. destruct Vfresh as (-> & S1 & S2 & S3 & S4).
      - intros X. apply (unexpired_not_expired st U), Hexp, X.
      - split; [| reflexivity]. unfold same_token. repeat split; congruence. }
    destruct valid.
    2:{ ar_step. split; [| eauto]. unfold stepped.
        split; [congruence |]. split; [congruence |]. split; [congruence |].
        split; [lia |]. split.
        - eexists. split; [rewrite V4, Q4; reflexivity | left; reflexivity].
        - intros U. destruct (Hun U) as [_ [=]]. }
    ar_step.
    eapply ends_weaken; [apply send_spec | |]; cbv beta.
    2:{ intros st3 (-> & e & E3). unfold stepped. ar_flat.
        split; [congruence |]. split; [congruence |]. split; [congruence |].
        split; [lia |]. split.
        - eexists. split; [rewrite V4, Q4, <- app_assoc; reflexivity | right; reflexivity].
        - intros U. destruct (Hun U) as [(S1 & S2 & S3 & S4) _].
          split; [repeat split; assumption |]. intros text _.
          rewrite V4, Q4, <- app_assoc, S1. reflexivity. }
    intros [status2 text2] st3 (-> & E3). cbn [fst snd] in E3. cbv beta iota.
    assert (S3 : stepped with_token st (add_sent (with_token (access_token st2)) st2)).
    { unfold stepped. ar_flat.
      split; [congruence |]. split; [congruence |]. split; [congruence |].
      split; [lia |]. split.
      - eexists. split; [rewrite V4, Q4, <- app_assoc; reflexivity | right; reflexivity].
      - intros U. destruct (Hun U) as [(S1 & S2 & S3 & S4) _].
        split; [repeat split; assumption |]. intros text _.
        rewrite V4, Q4, <- app_assoc, S1. reflexivity. }
    destruct (status_in status2 ok) eqn:Hok; cbn [negb]; ar_step.
    - split; [exact S3 |]. ar_flat. split; [apply last_snoc |].
      exists status2, text2. rewrite length_app. cbn [length].
      replace (Nat.pred (length (sent st2) + 1)) with (length (sent st2)) by lia. auto.
    - split; [exact S3 | eauto]. }
  destruct warn; ar_step.
  - cbv beta. apply Hrest; apply Hlog; right; eauto.
  - cbv beta. apply Hrest; apply Hlog; left; reflexivity.
Qed.

(** One of the three requests of the upload of [content] to
    [relative_path], with some token. *)
Definition is_upload_request (relative_path content : string) (q : request) : Prop :=
  exists tok,
    q = create_request cfg os_sep relative_path tok
    \/ q = append_request cfg os_sep relative_path content tok
    \/ q = flush_request cfg os_sep relative_path content tok.

(** What an upload does to the state: at most [n] requests, all of them
    requests of this upload, at most [k] runs of the script, and with a
    token that is not expired no change of the token. *)
Definition uploading (relative_path content : string) (n k : nat) (st st' : state) : Prop :=
  completed_files st' = completed_files st /\ local_files st' = local_files st
  /\ script_exists st' = script_exists st
  /\ (script_runs st' <= script_runs st + k)%nat
  /\ (exists reqs,
         sent st' = sent st ++ reqs /\ (length reqs <= n)%nat
         /\ Forall (is_upload_request relative_path content) reqs
         /\ (unexpired st -> Forall (fun q => authorization q = access_token st) reqs))
  /\ (unexpired st -> same_token st st').

Lemma uploading_quiet rp content k st st' :
  quiet st st' -> (script_runs st' <= script_runs st + k)%nat ->
  (unexpired st -> same_token st st') -> uploading rp content 0 k st st'.
Proof.
  intros (Q1 & Q2 & Q3 & Q4) Hr Hs. unfold uploading.
  repeat (split; [assumption |]). split; [| exact Hs].
  exists []. rewrite app_nil_r. split; [exact Q4 |]. split; [reflexivity |].
  split; [constructor | intros _; constructor].
Qed.

Lemma uploading_weaken rp content n k n' k' st st' :
  (n <= n')%nat -> (k <= k')%nat -> uploading rp content n k st st' ->
  uploading rp content n' k' st st'.
Proof.
  intros Hn Hk (U1 & U2 & U3 & U4 & (reqs & E & L & F & A) & U6). unfold uploading.
  repeat (split; [assumption |]). split; [lia |]. split; [| exact U6].
  exists reqs. repeat split; try assumption. lia.
Qed.

Lemma uploading_trans rp content n k m j st st1 st2 :
  uploading rp content n k st st1 -> uploading rp content m j st1 st2 ->
  uploading rp content (n + m) (k + j) st st2.
Proof.
  intros (U1 & U2 & U3 & U4 & (r1 & E1 & L1 & F1 & A1) & U6)
         (V1 & V2 & V3 & V4 & (r2 & E2 & L2 & F2 & A2) & V6).
  unfold uploading.
  split; [congruence |]. split; [congruence |]. split; [congruence |]. split; [lia |].
  assert (Hun : unexpired st -> unexpired st1 /\ access_token st1 = access_token st).
  { intros U. destruct (U6 U) as (S1 & S2 & S3 & S4).
    split; [eapply unexpired_same; eassumption | exact S1]. }
  split.
  - exists (r1 ++ r2). split; [rewrite E2, E1, app_assoc; reflexivity |].
    split; [rewrite length_app; lia |]. split; [apply Forall_app; auto |].
    intros U. destruct (Hun U) as [U' A']. apply Forall_app. split; [auto |].
    specialize (A2 U'). rewrite A' in A2. exact A2.
  - intros U. destruct (Hun U) as [U' A']. destruct (U6 U) as (S1 & S2 & S3 & S4).
    destruct (V6 U') as (T1 & T2 & T3 & T4). unfold same_token. repeat split; congruence.
Qed.

Lemma stepped_uploading rp content (with_token : option string -> request) st st' :
  (forall tok, is_upload_request rp content (with_token tok)) ->
  (forall tok, authorization (with_token tok) = tok) ->
  stepped with_token st st' -> uploading rp content 2 1 st st'.
Proof.
  intros Hreq Hauth (S1 & S2 & S3 & S4 & (reqs & E & Hreqs) & S6). unfold uploading.
  repeat (split; [assumption |]). split; [lia |]. split; [| intros U; apply S6, U].
  exists reqs. split; [exact E |].
  destruct Hreqs as [-> | ->]; cbn [length]; (split; [lia |]); split.
  - repeat constructor. apply Hreq.
  - intros _. repeat constructor. apply Hauth.
  - repeat constructor; apply Hreq.
  - intros U. destruct (S6 U) as ((T1 & _) & _). repeat constructor; rewrite Hauth; congruence.
Qed.

Definition content_of (st : state) (local_path : string) : string :=
  match local_files st !! local_path with
  | Some (Readable content) => content
  | _ => ""
  end.

(** What the result of an upload says. *)
Definition result_of (relative_path content : string) (result : upload_result)
           (st' : state) : Prop :=
  match result with
  | Skipped _ => False
  | Success file size =>
      file = relative_path /\ size = Z.of_nat (String.length content)
      /\ last (sent st')
         = Some (flush_request cfg os_sep relative_path content (access_token st'))
      /\ exists text,
          onelake (Nat.pred (length (sent st')))
                  (flush_request cfg os_sep relative_path content (access_token st'))
          = Reply 200 text
  | Failed file _ => file = relative_path
  end.

(** The upload of a readable file starts with the Create request, under
    the token of the moment; after a 401 to it, with a token that is not
    expired, the request is sent once more as it was. *)
Definition repeated (local_path relative_path : string) (st st' : state) : Prop :=
  is_Some (local_files st !! local_path) ->
  (forall e, local_files st !! local_path <> Some (Unreadable e)) ->
  let create := create_request cfg os_sep relative_path (access_token st) in
  (exists rest, sent st' = sent st ++ create :: rest)
  /\ (unexpired st ->
      forall text,
        onelake (length (sent st)) create = Reply 401 text ->
        exists rest, sent st' = sent st ++ create :: create :: rest).

Lemma repeated_more lp rp content n k st st1 st2 :
  repeated lp rp st st1 -> uploading rp content n k st1 st2 -> repeated lp rp st st2.
Proof.
  intros H (_ & _ & _ & _ & (reqs & E & _) & _) R N. destruct (H R N) as [[rest Er] H2].
  split.
  - exists (rest ++ reqs). rewrite E, Er, <- app_assoc. reflexivity.
  - intros U text T. destruct (H2 U text T) as [rest' Er']. exists (rest' ++ reqs).
    rewrite E, Er', <- app_assoc. reflexivity.
Qed.

Lemma stepped_repeated lp rp st st1 :
  stepped (create_request cfg os_sep rp) st st1 -> repeated lp rp st st1.
Proof.
  intros (_ & _ & _ & _ & (reqs & E & Hreqs) & S6) _ _. split.
  - destruct Hreqs as [-> | ->]; eexists; exact E.
  - intros U text T. destruct (S6 U) as [_ S]. exists []. apply (S text T).
Qed.

Lemma status_in_one status ok : status_in status [ok] = true -> status = ok.
Proof. unfold status_in. cbn. rewrite orb_false_r. apply Z.eqb_eq. Qed.

Lemma refreshing_upload_attempt_spec local_path relative_path st :
  let content := content_of st local_path in
  ends (upload_attempt cfg os_sep onelake powershell clock local_path relative_path) st
       (fun result st' =>
          local_files st !! local_path = Some (Readable content)
          /\ uploading relative_path content 6 3 st st'
          /\ repeated local_path relative_path st st'
          /\ result_of relative_path content result st')
       (fun st' =>
          uploading relative_path content 6 3 st st'
          /\ repeated local_path relative_path st st').
Proof.
  cbv zeta. unfold upload_attempt, content_of. ar_step. ar_step.
  assert (Hquiet : forall content, uploading relative_path content 6 3 st st).
  { intros content. apply (uploading_weaken _ _ 0 0); [lia | lia |].
    apply uploading_quiet; [apply quiet_refl | lia | intros _; apply same_token_refl]. }
  destruct (local_files st !! local_path) as [[content | e] |] eqn:El.
  2:{ ar_step. split; [apply Hquiet |]. intros _ N. exfalso. exact (N e El). }
  2:{ ar_step. split; [apply Hquiet |]. intros [x Hx]. rewrite El in Hx. discriminate. }
  cbv zeta.
  assert (Hc : forall tok, is_upload_request relative_path content
                                             (create_request cfg os_sep relative_path tok))
    by (intros tok; exists tok; auto).
  assert (Ha : forall tok, is_upload_request relative_path content
                                             (append_request cfg os_sep relative_path content
                                                             tok))
    by (intros tok; exists tok; auto).
  assert (Hf : forall tok, is_upload_request relative_path content
                                             (flush_request cfg os_sep relative_path content
                                                            tok))
    by (intros tok; exists tok; auto).
  ar_step.
  eapply ends_weaken; [apply step_with_refresh_spec | |]; cbv beta.
  2:{ intros st1 S1.
      split; [eapply (uploading_weaken _ _ 2 1); [lia | lia |];
              eapply stepped_uploading; [exact Hc | reflexivity | exact S1] |].
      apply stepped_repeated, S1. }
  intros failed1 st1 (S1 & R1).
  assert (U1 : uploading relative_path content 2 1 st st1)
    by (eapply stepped_uploading; [exact Hc | reflexivity | exact S1]).
  assert (P1 : repeated local_path relative_path st st1) by apply stepped_repeated, S1.
  destruct failed1 as [result |].
  { ar_step. destruct R1 as [error ->].
    split; [reflexivity |].
    split; [eapply uploading_weaken; [| | exact U1]; lia |].
    split; [exact P1 | reflexivity]. }
  ar_step.
  eapply ends_weaken; [apply step_with_refresh_spec | |]; cbv beta.
  2:{ intros st2 S2.
      assert (U2 : uploading relative_path content 2 1 st1 st2)
        by (eapply stepped_uploading; [exact Ha | reflexivity | exact S2]).
      split; [eapply (uploading_weaken _ _ (2 + 2) (1 + 1)); [lia | lia |];
              eapply uploading_trans; eassumption |].
      eapply repeated_more; eassumption. }
  intros failed2 st2 (S2 & R2).
  assert (U2 : uploading relative_path content (2 + 2) (1 + 1) st st2).
  { eapply uploading_trans; [exact U1 |].
    eapply stepped_uploading; [exact Ha | reflexivity | exact S2]. }
  assert (P2 : repeated local_path relative_path st st2).
  { eapply repeated_more; [exact P1 |].
    eapply stepped_uploading; [exact Ha | reflexivity | exact S2]. }
  destruct failed2 as [result |].
  { ar_step. destruct R2 as [error ->].
    split; [reflexivity |].
    split; [eapply uploading_weaken; [| | exact U2]; lia |].
    split; [exact P2 | reflexivity]. }
  ar_step.
  eapply ends_weaken; [apply step_with_refresh_spec | |]; cbv beta.
  2:{ intros st3 S3.
      assert (U3 : uploading relative_path content 2 1 st2 st3)
        by (eapply stepped_uploading; [exact Hf | reflexivity | exact S3]).
      split; [eapply (uploading_weaken _ _ (2 + 2 + 2) (1 + 1 + 1)); [lia | lia |];
              eapply uploading_trans; eassumption |].
      eapply repeated_more; eassumption. }
  intros failed3 st3 (S3 & R3).
  assert (U3 : uploading relative_path content (2 + 2 + 2) (1 + 1 + 1) st st3).
  { eapply uploading_trans; [exact U2 |].
    eapply stepped_uploading; [exact Hf | reflexivity | exact S3]. }
  assert (P3 : repeated local_path relative_path st st3).
  { eapply repeated_more; [exact P2 |].
    eapply stepped_uploading; [exact Hf | reflexivity | exact S3]. }
  destruct failed3 as [result |].
  { ar_step. destruct R3 as [error ->].
    split; [reflexivity |]. split; [exact U3 |]. split; [exact P3 | reflexivity]. }
  ar_step. ar_step. ar_step.
  split; [reflexivity |]. split; [exact U3 |]. split; [exact P3 |].
  destruct R3 as (Hlast & status & text & Hreply & Hok). apply status_in_one in Hok.
  subst status. unfold result_of. ar_flat. eauto.
Qed.

Lemma classic_expired st : expired st \/ ~ expired st.
Proof.
  unfold expired. destruct (token_timestamp st) as [timestamp |]; [| auto].
  destruct (Z.lt_ge_cases (TOKEN_REFRESH_MINUTES cfg * 60) (clock (ticks st) - timestamp));
    [auto | right; lia].
Qed.

(** What [upload_file_to_onelake] does with an item that has a relative
    path. *)
Lemma upload_file_to_onelake_spec (fi : file_info) relative_path st :
  Runtime.relative_path fi = Some relative_path ->
  let content := content_of st (default "" (path fi)) in
  ends (upload_file_to_onelake cfg os_sep onelake powershell clock fi) st
       (fun result st' =>
          if decide (relative_path ∈ completed_files st)
          then result = Skipped relative_path /\ st' = st
          else
            uploading relative_path content 6 4 st st'
            /\ ((result = Failed relative_path "Token refresh failed"
                 /\ sent st' = sent st
                 /\ access_token st' = access_token st
                 /\ token_timestamp st' = token_timestamp st
                 /\ expired st /\ forall tok, ~ renews st tok)
                \/ (exists local_path st1,
                       path fi = Some local_path
                       /\ (expired st ->
                           exists tok, renews st tok /\ access_token st1 = Some tok)
                       /\ (~ expired st -> access_token st1 = access_token st)
                       /\ sent st1 = sent st
                       /\ local_files st1 = local_files st
                       /\ (unexpired st -> unexpired st1)
                       /\ repeated local_path relative_path st1 st'
                       /\ ((local_files st !! local_path = Some (Readable content)
                            /\ result_of relative_path content result st')
                           \/ exists error, result = Failed relative_path error))))
       (fun st' =>
          (relative_path ∉ completed_files st) /\ path fi = None
          /\ uploading relative_path content 0 1 st st'
          /\ (expired st -> exists tok, renews st tok)).
Proof.
  intros Hrp. cbv zeta. unfold upload_file_to_onelake. rewrite Hrp. ar_step. ar_step.
  destruct (decide (relative_path ∈ completed_files st)) as [Hin | Hout].
  { ar_step. auto. }
  ar_step.
  eapply ends_weaken; [apply ensure_valid_token_spec | | intros ? []]; cbv beta.
  intros valid st1 (Q & Hruns & Hfresh & Hexp).
  assert (U0 : forall content, uploading relative_path content 0 1 st st1).
  { intros content. apply uploading_quiet; [exact Q | lia |].
    intros U. apply Hfresh, unexpired_not_expired, U. }
  destruct valid; cbn [negb].
  2:{ ar_step. split; [eapply uploading_weaken; [| | apply U0]; lia |]. left.
      destruct Q as (_ & _ & _ & Q4).
      destruct (classic_expired st) as [X | X].
      - destruct (Hexp X) as (A & T & N). auto 10.
      - destruct (Hfresh X) as [[=] _]. }
  destruct (path fi) as [local_path |] eqn:Hp; cbn [default from_option]; unfold id.
  2:{ ar_step. split; [exact Hout |]. split; [reflexivity |]. split; [apply U0 |].
      intros X. destruct (Hexp X) as (tok & Hn & _). eauto. }
  assert (Hc : content_of st1 local_path = content_of st local_path).
  { unfold content_of. destruct Q as (_ & -> & _). reflexivity. }
  assert (Hmid : (expired st -> exists tok, renews st tok /\ access_token st1 = Some tok)
                 /\ (~ expired st -> access_token st1 = access_token st)
                 /\ sent st1 = sent st /\ local_files st1 = local_files st
                 /\ (unexpired st -> unexpired st1)).
  { destruct Q as (_ & Q2 & _ & Q4). split; [| split; [| split; [| split]]]; try assumption.
    - intros X. destruct (Hexp X) as (tok & Hn & A & _). eauto.
    - intros X. destruct (Hfresh X) as [_ (A & _)]. exact A.
    - intros U. destruct (Hfresh (unexpired_not_expired st U)) as [_ (_ & T & _)].
      eapply unexpired_same; eassumption. }
  ar_step.
  eapply ends_weaken; [apply refreshing_upload_attempt_spec | |]; cbv beta.
  - intros result st2 (El & U & P & Hres). rewrite Hc in *.
    split; [apply (uploading_trans _ _ 0 1 6 3 st st1 st2); [apply U0 | exact U] |].
    right. exists local_path, st1. destruct Hmid as (M1 & M2 & M3 & M4 & M5).
    split; [reflexivity |]. repeat (split; [assumption |]). left.
    destruct Q as (_ & Q2 & _). rewrite <- Q2. auto.
  - intros st2 (U & P) e. rewrite Hc in *. ar_step. ar_step. ar_step. ar_flat.
    assert (U' : uploading relative_path (content_of st local_path) 6 3 st1
                           (add_log (Log "ERROR"
                                         "ERROR: Exception uploading {relative_path}: {str(e)}"
                                         [relative_path; exn_msg e]) st2)).
    { destruct U as (V1 & V2 & V3 & V4 & V5 & V6). unfold uploading. ar_flat.
      repeat (split; [assumption |]). exact V6. }
    split; [apply (uploading_trans _ _ 0 1 6 3 st st1 _); [apply U0 | exact U'] |].
    right. exists local_path, st1. destruct Hmid as (M1 & M2 & M3 & M4 & M5).
    split; [reflexivity |]. repeat (split; [assumption |]). right. eauto.
Qed.



(** X16. The upload of an item that has both keys never raises.  For a
    completed relative path it returns "skipped" and does nothing at all.
    Otherwise it returns a success or a failure under the relative path,
    after at most six requests, each one the Create, Append or Flush request
    of this file, and at most four runs of the refresh script; the progress
    dictionary is not touched.  A success means that the last request sent
    was the Flush request and that it was answered with status 200. *)
Theorem refreshing_upload_is_bounded
        (fi : file_info) (relative_path local_path : string) (st : state) :
  Runtime.relative_path fi = Some relative_path -> path fi = Some local_path ->
  let content := content_of st local_path in
  exists result st' reqs,
    upload_file_to_onelake cfg os_sep onelake powershell clock fi st = (Return result, st')
    /\ (relative_path ∈ completed_files st -> result = Skipped relative_path /\ st' = st)
    /\ (relative_path ∉ completed_files st ->
        (exists size, result = Success relative_path size)
        \/ exists error, result = Failed relative_path error)
    /\ sent st' = sent st ++ reqs /\ (length reqs <= 6)%nat
    /\ Forall (is_upload_request relative_path content) reqs
    /\ (script_runs st' <= script_runs st + 4)%nat
    /\ completed_files st' = completed_files st
    /\ (forall size,
          result = Success relative_path size ->
          local_files st !! local_path = Some (Readable content)
          /\ size = Z.of_nat (String.length content)
          /\ last (sent st')
             = Some (flush_request cfg os_sep relative_path content (access_token st'))
          /\ exists text,
              onelake (Nat.pred (length (sent st')))
                      (flush_request cfg os_sep relative_path content (access_token st'))
              = Reply 200 text).
Proof.
  intros Hrp Hp content.
  pose proof (upload_file_to_onelake_spec fi relative_path st Hrp) as H.
  cbv zeta in H. rewrite Hp in H. cbn [default from_option] in H. unfold id in H.
  fold content in H. unfold ends in H.
  destruct (upload_file_to_onelake cfg os_sep onelake powershell clock fi st)
    as [[result | e] st'].
  2:{ destruct H as (_ & [=] & _). }
  exists result, st'.
  destruct (decide (relative_path ∈ completed_files st)) as [Hin | Hout].
  { destruct H as [-> ->]. exists []. rewrite app_nil_r.
    split; [reflexivity |]. split; [auto |]. split; [intros X; contradiction |].
    split; [reflexivity |]. split; [cbn; lia |]. split; [constructor |].
    split; [lia |]. split; [reflexivity | discriminate]. }
  destruct H as ((U1 & U2 & U3 & U4 & (reqs & E & L & F & _) & _) & Hres).
  exists reqs. split; [reflexivity |]. split; [intros X; contradiction |].
  assert (Hshape : ((exists size, result = Success relative_path size)
                    \/ exists error, result = Failed relative_path error)
                   /\ forall size,
                       result = Success relative_path size ->
                       local_files st !! local_path = Some (Readable content)
                       /\ size = Z.of_nat (String.length content)
                       /\ last (sent st')
                          = Some (flush_request cfg os_sep relative_path content
                                                (access_token st'))
                       /\ exists text,
                           onelake (Nat.pred (length (sent st')))
                                   (flush_request cfg os_sep relative_path content
                                                  (access_token st'))
                           = Reply 200 text).
  { destruct Hres as [(-> & _) | (lp & st1 & [= <-] & _ & _ & _ & _ & _ & _ & Hr)].
    - split; [right; eauto | discriminate].
    - destruct Hr as [(El & Hr) | (error & ->)]; [| split; [right; eauto | discriminate]].
      destruct result as [file | file size | file error]; cbn in Hr.
      + destruct Hr.
      + destruct Hr as (-> & -> & Hlast & Hreply).
        split; [left; eauto |]. intros size [= <-]. auto.
      + subst file. split; [right; eauto | discriminate]. }
  destruct Hshape as [S1 S2].
  split; [intros _; exact S1 |]. repeat (split; [assumption |]). exact S2.
Qed.

(** X17. With a token that is not expired (whatever the clock shows, it is
    younger than [TOKEN_REFRESH_MINUTES]), an upload never renews the token:
    the script is not run, the token, its time and the environment file stay
    as they were, and every request carries the token of the start.  In
    particular a 401 to the Create request of a readable file is followed by
    the very same request, under the same token. *)
Theorem unexpired_token_is_not_refreshed
        (fi : file_info) (relative_path : string) (st : state) :
  Runtime.relative_path fi = Some relative_path -> unexpired st ->
  let st' := snd (upload_file_to_onelake cfg os_sep onelake powershell clock fi st) in
  let create := create_request cfg os_sep relative_path (access_token st) in
  script_runs st' = script_runs st
  /\ access_token st' = access_token st /\ token_timestamp st' = token_timestamp st
  /\ env_file st' = env_file st
  /\ exists reqs,
      sent st' = sent st ++ reqs
      /\ Forall (fun q => authorization q = access_token st) reqs
      /\ (relative_path ∉ completed_files st ->
          forall local_path content text,
            path fi = Some local_path ->
            local_files st !! local_path = Some (Readable content) ->
            onelake (length (sent st)) create = Reply 401 text ->
            exists rest, reqs = create :: create :: rest).
Proof.
  intros Hrp U st' create.
  pose proof (upload_file_to_onelake_spec fi relative_path st Hrp) as H.
  cbv zeta in H. unfold ends in H. subst st'.
  assert (G : forall n k st',
             uploading relative_path (content_of st (default "" (path fi))) n k st st' ->
             script_runs st' = script_runs st
             /\ access_token st' = access_token st /\ token_timestamp st' = token_timestamp st
             /\ env_file st' = env_file st
             /\ exists reqs,
                 sent st' = sent st ++ reqs
                 /\ Forall (fun q => authorization q = access_token st) reqs).
  { intros n k st' (_ & _ & _ & _ & (reqs & E & _ & _ & A) & S).
    destruct (S U) as (S1 & S2 & S3 & S4). repeat (split; [assumption |]).
    exists reqs. auto. }
  destruct (upload_file_to_onelake cfg os_sep onelake powershell clock fi st)
    as [[result | e] st']; cbn [snd].
  2:{ destruct H as (Hout & Hp & Hu & _).
      destruct (G _ _ _ Hu) as (G1 & G2 & G3 & G4 & reqs & E & A).
      repeat (split; [assumption |]). exists reqs. split; [exact E |]. split; [exact A |].
      intros _ lp content text Hp'. congruence. }
  destruct (decide (relative_path ∈ completed_files st)) as [Hin | Hout].
  { destruct H as [-> ->]. repeat (split; [reflexivity |]). exists [].
    rewrite app_nil_r. split; [reflexivity |]. split; [constructor |].
    intros X. contradiction. }
  destruct H as (Hu & Hres).
  destruct (G _ _ _ Hu) as (G1 & G2 & G3 & G4 & reqs & E & A).
  repeat (split; [assumption |]). exists reqs. split; [exact E |]. split; [exact A |].
  intros _ lp content text Hp El T.
  destruct Hres as [(_ & _ & _ & _ & X & _) | (lp' & st1 & Hp' & _ & M2 & M3 & M4 & M5 & P & _)].
  { destruct (unexpired_not_expired st U X). }
  assert (lp' = lp) by congruence. subst lp'.
  assert (A1 : access_token st1 = access_token st) by (apply M2, unexpired_not_expired, U).
  destruct P as [_ P].
  - rewrite M4, El. eauto.
  - intros e. rewrite M4, El. discriminate.
  - rewrite A1, M3 in P. destruct (P (M5 U) text T) as [rest Er]. exists rest.
    rewrite Er in E. apply app_inv_head in E. subst create. congruence.
Qed.


End RefreshingUpload.

(** A small world for the migrator with token refresh: one readable file,
    a script that writes a new token, a clock that stands still, and a
    service that answers 401 to the first request and accepts the others. *)
Module RefreshDemo.
Import OneLakeMigratorWithRefresh.

Definition cfg : settings :=
  Settings "https://onelake.dfs.fabric.microsoft.com" "ws" "lh" 45.

Definition onelake (n : nat) (r : request) : reply :=
  if Nat.eqb n 0 then Reply 401 "expired"
  else
    match method r, content_length r with
    | PUT, _ => Reply 201 ""
    | PATCH, Some _ => Reply 202 ""
    | PATCH, None => Reply 200 ""
    end.

Definition powershell (n : nat) : script_run :=
  Ran 0 "" (EnvLines ["ACCESS_TOKEN=new"]).

Definition clock (n : nat) : Z := 0.

Definition item : file_info := FileInfo (Some "/src/a.txt") (Some "a.txt") (Some 1).

(** A state with the token [old], loaded at time [timestamp]. *)
Definition st0 (timestamp : option Z) : state :=
  State (Some "old") timestamp ∅ (EnvLines ["ACCESS_TOKEN=old"]) true 0
        (<["/src/a.txt" := Readable "A"]> ∅) [] [] 0.

End RefreshDemo.

Lemma refreshing_upload_is_bounded_witness :
  exists result st' reqs,
    OneLakeMigratorWithRefresh.upload_file_to_onelake
      RefreshDemo.cfg "\" RefreshDemo.onelake RefreshDemo.powershell RefreshDemo.clock
      RefreshDemo.item (RefreshDemo.st0 (Some 0))
    = (Return result, st')
    /\ OneLakeMigratorWithRefresh.sent st' = reqs /\ (length reqs <= 6)%nat
    /\ (OneLakeMigratorWithRefresh.script_runs st' <= 4)%nat.
Proof.
  destruct (refreshing_upload_is_bounded
              RefreshDemo.cfg "\" RefreshDemo.onelake RefreshDemo.powershell RefreshDemo.clock
              RefreshDemo.item "a.txt" "/src/a.txt" (RefreshDemo.st0 (Some 0)))
    as (result & st' & reqs & E & _ & _ & Es & L & _ & R & _).
  - reflexivity.
  - reflexivity.
  - exists result, st', reqs. split; [exact E |]. split; [exact Es |]. split; [exact L | exact R].
Defined.

Lemma unexpired_token_is_not_refreshed_witness :
  let st' :=
    snd (OneLakeMigratorWithRefresh.upload_file_to_onelake
           RefreshDemo.cfg "\" RefreshDemo.onelake RefreshDemo.powershell RefreshDemo.clock
           RefreshDemo.item (RefreshDemo.st0 (Some 0))) in
  OneLakeMigratorWithRefresh.script_runs st' = 0%nat
  /\ OneLakeMigratorWithRefresh.access_token st' = Some "old"
  /\ exists rest,
      OneLakeMigratorWithRefresh.sent st'
      = OneLakeMigratorWithRefresh.create_request RefreshDemo.cfg "\" "a.txt" (Some "old")
          :: OneLakeMigratorWithRefresh.create_request RefreshDemo.cfg "\" "a.txt" (Some "old")
          :: rest.
Proof.
  destruct (unexpired_token_is_not_refreshed
              RefreshDemo.cfg "\" RefreshDemo.onelake RefreshDemo.powershell RefreshDemo.clock
              RefreshDemo.item "a.txt" (RefreshDemo.st0 (Some 0)))
    as (R & A & _ & _ & reqs & E & _ & H).
  - reflexivity.
  - exists 0. split; [reflexivity | intros n; vm_compute; discriminate].
  - cbv zeta. split; [exact R |]. split; [exact A |].
    destruct (H ltac:(vm_compute; set_solver) "/src/a.txt" "A" "expired") as [rest Er].
    + reflexivity.
    + reflexivity.
    + reflexivity.
    + exists rest. rewrite E, Er. reflexivity.
Defined.


(** ** The classifiers and the log analysis *)

(** Lowering does not change whether a character is a given digit. *)
Definition is_digit (c : ascii) : bool :=
  (Nat.leb 48 (nat_of_ascii c) && Nat.leb (nat_of_ascii c) 57)%bool.

Lemma eqb_lower_char_digit (c d : ascii) :
  is_digit c = true -> Ascii.eqb c (lower_char d) = Ascii.eqb c d.
Proof.
  unfold is_digit, lower_char. intros H.
  apply andb_prop in H as [H1 H2]. apply Nat.leb_le in H1, H2.
  destruct (Nat.leb 65 (nat_of_ascii d) && Nat.leb (nat_of_ascii d) 90)%bool eqn:U;
    [| reflexivity].
  apply andb_prop in U as [U1 U2]. apply Nat.leb_le in U1, U2.
  transitivity false.
  - apply Ascii.eqb_neq. intros E. rewrite E in H1, H2.
    rewrite nat_ascii_embedding in H1, H2; lia.
  - symmetry. apply Ascii.eqb_neq. intros E. subst. lia.
Qed.

Lemma startswith_lower_digits (p s : string) :
  forallb is_digit (list_ascii_of_string p) = true ->
  startswith p (lower s) = startswith p s.
Proof.
  revert s. induction p as [| a p IH]; intros s H; [reflexivity |].
  cbn in H. apply andb_prop in H as [Ha Hp].
  destruct s as [| b s]; [reflexivity |].
  cbn [lower startswith]. rewrite eqb_lower_char_digit by exact Ha.
  destruct (Ascii.eqb a b); [apply IH; exact Hp | reflexivity].
Qed.

Lemma str_in_lower_digits (p s : string) :
  forallb is_digit (list_ascii_of_string p) = true ->
  str_in p (lower s) = str_in p s.
Proof.
  intros H. induction s as [| b s IH].
  - reflexivity.
  - cbn [lower str_in].
    change (String (lower_char b) (lower s)) with (lower (String b s)).
    rewrite startswith_lower_digits by exact H. rewrite IH. reflexivity.
Qed.

(** X19. The classifiers do not look at the case of letters: two messages
    with the same lower-case form get the same kind, from the log analyzer
    and from the dashboard. *)
Theorem classify_error_ignores_case (e e' : string) :
  lower e = lower e' ->
  LogAnalyzer.classify_error e = LogAnalyzer.classify_error e'
  /\ DashboardMonitor.classify_error e = DashboardMonitor.classify_error e'.
Proof.
  intros H. unfold LogAnalyzer.classify_error, DashboardMonitor.classify_error. cbv zeta.
  rewrite <- !(str_in_lower_digits "401" e), <- !(str_in_lower_digits "401" e'),
    <- !(str_in_lower_digits "404" e), <- !(str_in_lower_digits "404" e'),
    <- !(str_in_lower_digits "429" e), <- !(str_in_lower_digits "429" e'),
    <- !(str_in_lower_digits "500" e), <- !(str_in_lower_digits "500" e'),
    <- !(str_in_lower_digits "502" e), <- !(str_in_lower_digits "502" e'),
    <- !(str_in_lower_digits "503" e), <- !(str_in_lower_digits "503" e')
    by reflexivity.
  rewrite H. split; reflexivity.
Qed.

Lemma classify_error_ignores_case_witness :
  LogAnalyzer.classify_error "Read TIMEOUT" = LogAnalyzer.classify_error "read timeout"
  /\ DashboardMonitor.classify_error "Read TIMEOUT"
     = DashboardMonitor.classify_error "read timeout".
Proof. apply (classify_error_ignores_case "Read TIMEOUT" "read timeout"). reflexivity. Defined.

(** The patterns only the dashboard's classifier has. *)
Definition dashboard_only (e : string) : bool :=
  str_in "timed out" (lower e) || str_in "permission" (lower e) || str_in "access" (lower e)
  || str_in "rate limit" (lower e) || str_in "502" e.

(** X20. The two classifiers agree on every message that has none of the
    patterns only the dashboard knows ("timed out", "permission", "access",
    "rate limit", "502"); and whatever the log analyzer calls
    "Authentication" or "File Not Found", the dashboard calls the same. *)
Theorem classifiers_agree (e : string) :
  (dashboard_only e = false ->
   DashboardMonitor.classify_error e = LogAnalyzer.classify_error e)
  /\ (LogAnalyzer.classify_error e = "Authentication" ->
      DashboardMonitor.classify_error e = "Authentication")
  /\ (LogAnalyzer.classify_error e = "File Not Found" ->
      DashboardMonitor.classify_error e = "File Not Found")
  /\ (DashboardMonitor.classify_error e = "Other" -> LogAnalyzer.classify_error e = "Other").
Proof.
  unfold dashboard_only, DashboardMonitor.classify_error, LogAnalyzer.classify_error. cbv zeta.
  split; [| split; [| split]].
  - intros H.
    repeat match type of H with (_ || _ = false) =>
             let H' := fresh in apply orb_false_elim in H as [H H'] end.
    repeat match goal with H : _ = false |- _ => rewrite H; clear H end.
    rewrite !orb_false_r. reflexivity.
  - destruct (str_in "401" e); [reflexivity |].
    destruct (str_in "unauthorized" (lower e)); [reflexivity |].
    cbn [orb]. intros H. exfalso. revert H.
    repeat match goal with
           | |- context [str_in ?x ?y] => destruct (str_in x y); cbn [orb]; try discriminate
           end.
  - destruct (str_in "401" e); [discriminate |].
    destruct (str_in "unauthorized" (lower e)); [discriminate |].
    destruct (str_in "404" e); [reflexivity |].
    destruct (str_in "not found" (lower e)); [reflexivity |].
    cbn [orb]. intros H. exfalso. revert H.
    repeat match goal with
           | |- context [str_in ?x ?y] => destruct (str_in x y); cbn [orb]; try discriminate
           end.
  - repeat match goal with
           | |- context [str_in ?x ?y] => destruct (str_in x y); cbn [orb]; try discriminate
           end.
    reflexivity.
Qed.

Lemma classifiers_agree_witness :
  DashboardMonitor.classify_error "HTTP 503 from server"
  = LogAnalyzer.classify_error "HTTP 503 from server".
Proof. apply (classifiers_agree "HTTP 503 from server"). reflexivity. Defined.

(** *** [analyze_errors] *)

Section LogAnalysis.
Import LogAnalyzer.

Lemma classify_error_kind (e : string) : In (classify_error e) error_kinds.
Proof.
  unfold classify_error, error_kinds. cbv zeta.
  repeat match goal with
         | |- context [str_in ?x ?y] => destruct (str_in x y); cbn [orb]; [cbn; tauto |]
         end.
  cbn; tauto.
Qed.

Lemma error_type_of_kind (e : event) : In (error_type_of e) error_kinds.
Proof.
  unfold error_type_of. destruct (String.eqb _ _); [apply classify_error_kind |].
  cbn; tauto.
Qed.

(** The error events filed under the kind [k]. *)
Definition filed_under (k : string) (error_events : list event) : list event :=
  List.filter (fun e => String.eqb (error_type_of e) k) error_events.

Lemma group_errors_lookup (l : list event) (m : gmap string (list event)) (k : string) :
  fold_left (fun error_types event =>
               <[error_type_of event :=
                   (default [] (error_types !! error_type_of event) ++ [event])%list]>
                 error_types) l m !! k
  = match filed_under k l with
    | [] => m !! k
    | _ :: _ => Some (default [] (m !! k) ++ filed_under k l)%list
    end.
Proof.
  revert m. induction l as [| e l IH]; intros m; [reflexivity |].
  cbn [fold_left]. rewrite IH. unfold filed_under. cbn [List.filter].
  destruct (String.eqb (error_type_of e) k) eqn:E.
  - apply String.eqb_eq in E. subst k. rewrite lookup_insert_eq. cbn [default].
    destruct (List.filter _ l) as [| x xs].
    + reflexivity.
    + unfold id. rewrite <- app_assoc. reflexivity.
  - apply String.eqb_neq in E. rewrite lookup_insert_ne by exact E. reflexivity.
Qed.

Lemma group_errors_filed (l : list event) (k : string) :
  group_errors l !! k
  = match filed_under k l with [] => None | _ :: _ => Some (filed_under k l) end.
Proof.
  unfold group_errors. rewrite group_errors_lookup. rewrite lookup_empty. reflexivity.
Qed.

(** The sum of the counts filed under the seven kinds. *)
Definition kinds_total (count : string -> Z) : Z :=
  fold_right (fun k acc => count k + acc) 0 error_kinds.

Lemma filed_under_total (l : list event) :
  kinds_total (fun k => len (filed_under k l)) = len l.
Proof.
  unfold kinds_total, error_kinds, filed_under, len. cbn [fold_right].
  induction l as [| e l IH]; [reflexivity |].
  cbn [List.filter length].
  pose proof (error_type_of_kind e) as K. unfold error_kinds in K. cbn [In] in K.
  destruct K as [K | [K | [K | [K | [K | [K | [K | []]]]]]]]; rewrite <- K;
    repeat match goal with
           | |- context [String.eqb ?a ?b] =>
               let v := eval vm_compute in (String.eqb a b) in
               change (String.eqb a b) with v
           end;
    cbn [length]; rewrite ?Nat2Z.inj_succ;
    repeat match goal with
           | |- context [Z.of_nat (length (List.filter ?f l))] =>
               let n := fresh "n" in
               set (n := Z.of_nat (length (List.filter f l))) in *; clearbody n
           end;
    lia.
Qed.

Lemma slice_last_length {A} (l : list A) (n : Z) :
  0 < n -> len (slice l (- n) (len l)) <= n.
Proof.
  intros Hn. unfold slice, slice_bound, len.
  rewrite length_firstn, length_skipn.
  destruct (Z.ltb_spec (- n) 0); destruct (Z.ltb_spec (Z.of_nat (length l)) 0);
    cbv iota; lia.
Qed.

Lemma omap_length_le {A B} (f : A -> option B) (l : list A) :
  (length (omap f l) <= length l)%nat.
Proof.
  induction l as [| x l IH]; [reflexivity |].
  cbn. destruct (f x); cbn; lia.
Qed.

(** X21. [analyze_errors] counts every error event once: the total is the
    number of events that are at level ERROR or mention "failed"; the key
    ['error_types'] is present exactly when there is such an event; its keys
    are among the seven kinds, each with the (positive) number of events
    filed under it, and the counts add up to the total; the time line holds
    at most twenty entries. *)
Theorem analyze_errors_counts (events : list event) :
  let analysis := analyze_errors events in
  let error_events := List.filter is_error_event events in
  total_errors analysis = len error_events
  /\ (error_types analysis = None <-> error_events = [])
  /\ (forall counts, error_types analysis = Some counts ->
        (forall k n, counts !! k = Some n <->
                     0 < n /\ n = len (filed_under k error_events))
        /\ (forall k, is_Some (counts !! k) -> In k error_kinds)
        /\ kinds_total (fun k => default 0 (counts !! k)) = total_errors analysis)
  /\ len (error_timeline analysis) <= 20.
Proof.
  cbv zeta. unfold analyze_errors.
  set (errs := List.filter is_error_event events).
  assert (L : forall k n,
             (len <$> group_errors errs) !! k = Some n <->
             0 < n /\ n = len (filed_under k errs)).
  { intros k n. rewrite lookup_fmap, group_errors_filed.
    destruct (filed_under k errs) as [| x xs]; cbn; unfold len; cbn [length].
    - split; [discriminate | lia].
    - split; [intros [= <-]; lia | intros [_ ->]; reflexivity]. }
  destruct errs as [| e errs'] eqn:E.
  - cbn. repeat split; try discriminate; try lia.
  - cbn [total_errors error_types error_timeline].
    split; [reflexivity |]. split; [split; discriminate |]. split.
    + intros counts [= <-]. split; [exact L |]. split.
      * intros k [n Hn]. apply L in Hn as [Hpos Hn].
        destruct (filed_under k (e :: errs')) as [| x xs] eqn:F;
          [unfold len in Hn; cbn in Hn; lia |].
        assert (Hx : In x (filed_under k (e :: errs'))) by (rewrite F; left; reflexivity).
        apply filter_In in Hx as [_ Hx]. apply String.eqb_eq in Hx. subst k.
        apply error_type_of_kind.
      * rewrite <- (filed_under_total (e :: errs')).
        unfold kinds_total. unfold error_kinds. cbn [fold_right].
        assert (D : forall k, default 0 ((len <$> group_errors (e :: errs')) !! k)
                              = len (filed_under k (e :: errs'))).
        { intros k. rewrite lookup_fmap, group_errors_filed.
          destruct (filed_under k (e :: errs')); reflexivity. }
        rewrite !D. reflexivity.
    + unfold len at 1. etransitivity.
      * apply inj_le. apply omap_length_le.
      * apply (slice_last_length (e :: errs') 20). lia.
Qed.

End LogAnalysis.
